(** * cubeSITE: slice rotation, snapping and solved detection

    A shallow embedding of the two variants of the cube widget:
    [src/main.js] (variant A: intro animation, colored dots, solved
    detection, quaternion snapping) and the second source file (variant B:
    rotation group, Euler-angle bookkeeping, random shuffle).

    JavaScript numbers are embedded as the real numbers they denote:
    [+], [*], [/] are exact, [Math.round x] is [floor (x + 1/2)],
    [Math.sin], [Math.cos], [Math.asin], [Math.atan2] are the real
    functions.  Rounding error of IEEE doubles, signed zeros, NaN and
    infinities are outside this embedding.  The operations of the rendering
    library (vectors, quaternions, Euler angles) are written out from the
    library's formulas, with the default Euler order XYZ. *)

From Stdlib Require Import ZArith QArith Qreals Reals Lra Lia Permutation RNsatz.
From stdpp Require Import base list.

#[local] Open Scope R_scope.

(** ** JavaScript [Math] on real numbers *)

Module Math.

Definition PI : R := Rtrigo1.PI.

(** [Math.round]: the integer nearest to [x], ties towards +infinity. *)
Definition round (x : R) : Z := Zfloor (x + / 2).

Definition min (a b : R) : R := Rmin a b.
Definition abs (a : R) : R := Rabs a.
Definition pow (a : R) (n : nat) : R := a ^ n.

Definition ltb (a b : R) : bool := if Rlt_dec a b then true else false.
Definition gtb (a b : R) : bool := ltb b a.

(** [Math.atan2 y x], the angle of the point [(x, y)] in (-PI, PI]. *)
Definition atan2 (y x : R) : R :=
  if Rlt_dec 0 x then atan (y / x)
  else if Rlt_dec x 0 then
    (if Rle_dec 0 y then atan (y / x) + PI else atan (y / x) - PI)
  else if Rlt_dec 0 y then PI / 2
  else if Rlt_dec y 0 then - (PI / 2)
  else 0.

Definition clamp (v lo hi : R) : R := Rmax lo (Rmin hi v).

End Math.

(** ** The rendering library's vectors, quaternions and Euler angles *)

Module THREE.

Record Vector3 := mkVector3 { vx : R; vy : R; vz : R }.
Record Quaternion := mkQuaternion { qx : R; qy : R; qz : R; qw : R }.
(** Euler angles, always in the default order XYZ. *)
Record Euler := mkEuler { ex : R; ey : R; ez : R }.
(** The upper-left 3x3 block of a 4x4 matrix, [mij] = row i, column j. *)
Record Matrix3 := mkMatrix3 {
  m11 : R; m12 : R; m13 : R;
  m21 : R; m22 : R; m23 : R;
  m31 : R; m32 : R; m33 : R }.

Definition identityQuaternion : Quaternion := mkQuaternion 0 0 0 1.

(** [Quaternion.setFromAxisAngle(axis, angle)] *)
Definition setFromAxisAngle (axis : Vector3) (angle : R) : Quaternion :=
  let halfAngle := angle / 2 in
  let s := sin halfAngle in
  mkQuaternion (vx axis * s) (vy axis * s) (vz axis * s) (cos halfAngle).

(** [a.multiply(b)], i.e. [multiplyQuaternions(a, b)] *)
Definition multiply (a b : Quaternion) : Quaternion :=
  mkQuaternion
    (qx a * qw b + qw a * qx b + qy a * qz b - qz a * qy b)
    (qy a * qw b + qw a * qy b + qz a * qx b - qx a * qz b)
    (qz a * qw b + qw a * qz b + qx a * qy b - qy a * qx b)
    (qw a * qw b - qx a * qx b - qy a * qy b - qz a * qz b).

(** [Vector3.applyQuaternion(q)] *)
Definition applyQuaternion (v : Vector3) (q : Quaternion) : Vector3 :=
  let tx := 2 * (qy q * vz v - qz q * vy v) in
  let ty := 2 * (qz q * vx v - qx q * vz v) in
  let tz := 2 * (qx q * vy v - qy q * vx v) in
  mkVector3
    (vx v + qw q * tx + qy q * tz - qz q * ty)
    (vy v + qw q * ty + qz q * tx - qx q * tz)
    (vz v + qw q * tz + qx q * ty - qy q * tx).

(** [Quaternion.setFromEuler(euler)], order XYZ *)
Definition setFromEuler (e : Euler) : Quaternion :=
  let c1 := cos (ex e / 2) in
  let c2 := cos (ey e / 2) in
  let c3 := cos (ez e / 2) in
  let s1 := sin (ex e / 2) in
  let s2 := sin (ey e / 2) in
  let s3 := sin (ez e / 2) in
  mkQuaternion
    (s1 * c2 * c3 + c1 * s2 * s3)
    (c1 * s2 * c3 - s1 * c2 * s3)
    (c1 * c2 * s3 + s1 * s2 * c3)
    (c1 * c2 * c3 - s1 * s2 * s3).

(** [Vector3.applyEuler(euler)] *)
Definition applyEuler (v : Vector3) (e : Euler) : Vector3 :=
  applyQuaternion v (setFromEuler e).

(** [Matrix4.makeRotationFromQuaternion(q)], rotation block *)
Definition makeRotationFromQuaternion (q : Quaternion) : Matrix3 :=
  let x := qx q in let y := qy q in let z := qz q in let w := qw q in
  let x2 := x + x in let y2 := y + y in let z2 := z + z in
  let xx := x * x2 in let xy := x * y2 in let xz := x * z2 in
  let yy := y * y2 in let yz := y * z2 in let zz := z * z2 in
  let wx := w * x2 in let wy := w * y2 in let wz := w * z2 in
  mkMatrix3
    (1 - (yy + zz)) (xy - wz) (xz + wy)
    (xy + wz) (1 - (xx + zz)) (yz - wx)
    (xz - wy) (yz + wx) (1 - (xx + yy)).

(** [Euler.setFromRotationMatrix(m)], order XYZ *)
Definition setFromRotationMatrix (m : Matrix3) : Euler :=
  let y := asin (Math.clamp (m13 m) (-1) 1) in
  if Math.ltb (Math.abs (m13 m)) 0.9999999
  then mkEuler (Math.atan2 (- m23 m) (m33 m)) y
               (Math.atan2 (- m12 m) (m11 m))
  else mkEuler (Math.atan2 (m32 m) (m22 m)) y 0.

(** [Euler.setFromQuaternion(q)] *)
Definition setFromQuaternion (q : Quaternion) : Euler :=
  setFromRotationMatrix (makeRotationFromQuaternion q).

(** Matrix times vector: the rotation part of [Matrix4.multiply] acting
    on a translation column. *)
Definition applyMatrix3 (m : Matrix3) (v : Vector3) : Vector3 :=
  mkVector3
    (m11 m * vx v + m12 m * vy v + m13 m * vz v)
    (m21 m * vx v + m22 m * vy v + m23 m * vz v)
    (m31 m * vx v + m32 m * vy v + m33 m * vz v).

Definition add (a b : Vector3) : Vector3 :=
  mkVector3 (vx a + vx b) (vy a + vy b) (vz a + vz b).

End THREE.
Import THREE.

(** ** Configuration shared by both variants *)

Definition SEGMENTS : Z := 3.
Definition GAP : R := 0.02.
Definition CUBE_SIZE : R := 2.
Definition SEGMENT_SIZE : R :=
  (CUBE_SIZE - GAP * (IZR SEGMENTS - 1)) / IZR SEGMENTS.
Definition BEVEL_SIZE : R := 0.06.

Inductive Axis := AxisX | AxisY | AxisZ.

Record Move := mkMove { axis : Axis; index : Z; direction : Z }.

(** A sub-cube's [userData]: its grid coordinate. *)
Record UserData := mkUserData { x : Z; y : Z; z : Z }.

#[global] Instance UserData_eq_dec : EqDecision UserData.
Proof. solve_decision. Defined.

#[global] Instance Axis_eq_dec : EqDecision Axis.
Proof. solve_decision. Defined.

(** The two nested [forEach] loops over a slice: [sliceCubes] holds
    references into [smallCubes], modelled as indices into that array. *)
Definition forEach {A} (f : A -> A) (refs : list nat) (arr : list A)
  : list A :=
  fold_left (fun acc i => alter f i acc) refs arr.

Definition forEachIndexed {A B} (f : B -> A -> A) (refs : list nat)
    (vals : list B) (arr : list A) : list A :=
  fold_left (fun acc iv => alter (f (snd iv)) (fst iv) acc)
            (zip refs vals) arr.

(** [arr.filter(pred)] as the list of indices of the selected objects. *)
Definition filterRefs {A} (pred : A -> bool) (arr : list A) : list nat :=
  filter (fun i => from_option pred false (arr !! i)) (seq 0 (length arr)).

(** [refs.map(f)] reading through the references. *)
Definition mapRefs {A B} (f : A -> B) (refs : list nat) (arr : list A)
  : list B :=
  omap (fun i => f <$> arr !! i) refs.

(** The array index range of the build loops: [0, 1, ..., SEGMENTS - 1]. *)
Definition segmentRange : list Z := Z.of_nat <$> seq 0 (Z.to_nat SEGMENTS).

(** ** Variant A: [src/main.js] *)

Module VariantA.

Definition RUBIKS_COLORS (i : nat) : Z :=
  match i with
  | 0%nat => 0x0000ff
  | 1%nat => 0x87ceeb
  | 2%nat => 0xff0000
  | 3%nat => 0xff8c00
  | 4%nat => 0xffcc00
  | _ => 0xffffff
  end%Z.

(** A decoration dot: a child group of a sub-cube, tagged through its
    own [userData] ([isDot], [colorHex], [faceIndex]). *)
Record Dot := mkDot {
  dotPosition : Vector3;
  colorHex : Z;
  faceIndex : Z }.

Record Cube := mkCube {
  userData : UserData;
  position : Vector3;
  quaternion : Quaternion;
  dots : list Dot }.

Definition offset : R := (IZR SEGMENTS - 1) / 2.

Definition createDot (color : Z) (face : Z) (p : Vector3) : Dot :=
  mkDot p color face.

Definition gridPosition (gx gy gz : Z) : Vector3 :=
  mkVector3 ((IZR gx - offset) * (SEGMENT_SIZE + GAP))
            ((IZR gy - offset) * (SEGMENT_SIZE + GAP))
            ((IZR gz - offset) * (SEGMENT_SIZE + GAP)).

(** The body of the innermost build loop; [None] is [continue]. *)
Definition buildCube (gx gy gz : Z) : option Cube :=
  let isEdge :=
    (gx =? 0)%Z || (gx =? SEGMENTS - 1)%Z ||
    (gy =? 0)%Z || (gy =? SEGMENTS - 1)%Z ||
    (gz =? 0)%Z || (gz =? SEGMENTS - 1)%Z in
  if negb isEdge then None else
  let cubeSize := SEGMENT_SIZE * 0.98 in
  let halfSize := cubeSize / 2 in
  let dotOffset := halfSize * 0.55 in
  let dotZ := 0.001 in
  let d0 := if (gx =? SEGMENTS - 1)%Z
            then [createDot (RUBIKS_COLORS 0) 0
                    (mkVector3 (halfSize + dotZ) dotOffset (- dotOffset))]
            else [] in
  let d1 := if (gx =? 0)%Z
            then [createDot (RUBIKS_COLORS 1) 1
                    (mkVector3 (- halfSize - dotZ) dotOffset dotOffset)]
            else [] in
  let d2 := if (gy =? SEGMENTS - 1)%Z
            then [createDot (RUBIKS_COLORS 2) 2
                    (mkVector3 dotOffset (halfSize + dotZ) (- dotOffset))]
            else [] in
  let d3 := if (gy =? 0)%Z
            then [createDot (RUBIKS_COLORS 3) 3
                    (mkVector3 dotOffset (- halfSize - dotZ) dotOffset)]
            else [] in
  let d4 := if (gz =? SEGMENTS - 1)%Z
            then [createDot (RUBIKS_COLORS 4) 4
                    (mkVector3 dotOffset dotOffset (halfSize + dotZ))]
            else [] in
  let d5 := if (gz =? 0)%Z
            then [createDot (RUBIKS_COLORS 5) 5
                    (mkVector3 (- dotOffset) dotOffset (- halfSize - dotZ))]
            else [] in
  Some (mkCube (mkUserData gx gy gz) (gridPosition gx gy gz)
               identityQuaternion (d0 ++ d1 ++ d2 ++ d3 ++ d4 ++ d5)).

(** The three nested build loops. *)
Definition buildCubes : list Cube :=
  gx ← segmentRange; gy ← segmentRange; gz ← segmentRange;
  match buildCube gx gy gz with Some c => [c] | None => [] end.

Definition faceToMove (face : Z) : option Move :=
  match face with
  | 0 => Some (mkMove AxisX 2 1)
  | 1 => Some (mkMove AxisX 0 (-1))
  | 2 => Some (mkMove AxisY 2 1)
  | 3 => Some (mkMove AxisY 0 (-1))
  | 4 => Some (mkMove AxisZ 2 1)
  | 5 => Some (mkMove AxisZ 0 (-1))
  | _ => None
  end%Z.

(** The closure of an in-flight [rotateSlice] call: what [animateSlice]
    captures, and who awaits the promise ([awaiting = Some f]: the
    [navigateToFace(f)] call suspended at its [await]). *)
Record Animation := mkAnimation {
  sliceCubes : list nat;
  originalPositions : list Vector3;
  originalQuaternions : list Quaternion;
  targetAngle : R;
  start : R;
  rotationAxis : Vector3;
  awaiting : option Z }.

(** Dark mode and what follows it: the body class, the two
    post-processing passes, and the material preset last applied to all
    sub-cubes ([None]: the materials as constructed). *)
Record Display := mkDisplay {
  isDarkMode : bool;
  bodyDarkClass : bool;
  bloomPassEnabled : bool;
  chromaticPassEnabled : bool;
  materialPreset : option Z }.

Record State := mkState {
  smallCubes : list Cube;
  cubeGroupRotation : Euler;
  introComplete : bool;
  isAnimating : bool;
  animation : option Animation;
  moveHistory : list Move;
  isSolved : bool;
  hasBeenMixed : bool;
  display : Display;
  currentFace : Z;
  solveTimers : nat }.

Definition initialDisplay : Display :=
  mkDisplay false false false false None.

(** The module-level state once the script has run.  The intro animation
    that follows scatters the sub-cubes and flies them back: while it runs
    [navigateToFace] returns at once, so no rotation and no solved check
    can start, and its last frame puts every sub-cube at the position and
    orientation it was built with; the poses in between are not
    modelled. *)
Definition initialState : State :=
  mkState buildCubes (mkEuler 0 0 0) false false None [] true false
          initialDisplay (-1) 0.

Definition withCubes (cs : list Cube) (s : State) : State :=
  mkState cs (cubeGroupRotation s) (introComplete s) (isAnimating s)
          (animation s) (moveHistory s) (isSolved s) (hasBeenMixed s)
          (display s) (currentFace s) (solveTimers s).

Definition withDisplay (d : Display) (s : State) : State :=
  mkState (smallCubes s) (cubeGroupRotation s) (introComplete s)
          (isAnimating s) (animation s) (moveHistory s) (isSolved s)
          (hasBeenMixed s) d (currentFace s) (solveTimers s).

Definition withMaterial (m : Z) (s : State) : State :=
  withDisplay (mkDisplay (isDarkMode (display s)) (bodyDarkClass (display s))
                         (bloomPassEnabled (display s))
                         (chromaticPassEnabled (display s)) (Some m)) s.

Definition withHasBeenMixed (b : bool) (s : State) : State :=
  mkState (smallCubes s) (cubeGroupRotation s) (introComplete s)
          (isAnimating s) (animation s) (moveHistory s) (isSolved s)
          b (display s) (currentFace s) (solveTimers s).

(** [applyMaterialPreset(presetIndex)]: presets 0..5 exist, a negative
    index selects the default; any other index reads an undefined preset
    and throws ([None]). *)
Definition applyMaterialPreset (presetIndex : Z) (s : State)
  : option State :=
  if (0 <=? presetIndex)%Z && negb (presetIndex <=? 5)%Z then None
  else Some (withMaterial presetIndex s).

(** *** Snapping *)

(** [snapQuaternion(q)] *)
Definition snapQuaternion (q : Quaternion) : Quaternion :=
  let euler := setFromQuaternion q in
  let euler_x := IZR (Math.round (ex euler / (Math.PI / 2))) * (Math.PI / 2) in
  let euler_y := IZR (Math.round (ey euler / (Math.PI / 2))) * (Math.PI / 2) in
  let euler_z := IZR (Math.round (ez euler / (Math.PI / 2))) * (Math.PI / 2) in
  setFromEuler (mkEuler euler_x euler_y euler_z).

(** The body of the completion loop of [rotateSlice] for one sub-cube. *)
Definition snapCube (cube : Cube) : Cube :=
  let gridX := Math.round (vx (position cube) / (SEGMENT_SIZE + GAP) + offset) in
  let gridY := Math.round (vy (position cube) / (SEGMENT_SIZE + GAP) + offset) in
  let gridZ := Math.round (vz (position cube) / (SEGMENT_SIZE + GAP) + offset) in
  mkCube (mkUserData gridX gridY gridZ)
         (gridPosition gridX gridY gridZ)
         (snapQuaternion (quaternion cube))
         (dots cube).

(** *** Solved detection *)

Record FaceDots := mkFaceDots {
  posX : list Z; negX : list Z;
  posY : list Z; negY : list Z;
  posZ : list Z; negZ : list Z }.

Definition threshold : R := CUBE_SIZE / 2 - 0.1.

(** [child.getWorldPosition(worldPos)] for a dot of [cube]: the
    translation of [cubeGroup.matrixWorld * cube.matrix * dot.matrix]. *)
Definition getWorldPosition (groupRotation : Euler) (cube : Cube)
    (dot : Dot) : Vector3 :=
  applyMatrix3 (makeRotationFromQuaternion (setFromEuler groupRotation))
    (add (position cube)
         (applyMatrix3 (makeRotationFromQuaternion (quaternion cube))
                       (dotPosition dot))).

(** The [if]/[else if] chain that files one dot. *)
Definition pushDot (worldPos : Vector3) (color : Z) (fd : FaceDots)
  : FaceDots :=
  if Math.gtb (vx worldPos) threshold then
    mkFaceDots (posX fd ++ [color]) (negX fd) (posY fd) (negY fd) (posZ fd) (negZ fd)
  else if Math.ltb (vx worldPos) (- threshold) then
    mkFaceDots (posX fd) (negX fd ++ [color]) (posY fd) (negY fd) (posZ fd) (negZ fd)
  else if Math.gtb (vy worldPos) threshold then
    mkFaceDots (posX fd) (negX fd) (posY fd ++ [color]) (negY fd) (posZ fd) (negZ fd)
  else if Math.ltb (vy worldPos) (- threshold) then
    mkFaceDots (posX fd) (negX fd) (posY fd) (negY fd ++ [color]) (posZ fd) (negZ fd)
  else if Math.gtb (vz worldPos) threshold then
    mkFaceDots (posX fd) (negX fd) (posY fd) (negY fd) (posZ fd ++ [color]) (negZ fd)
  else if Math.ltb (vz worldPos) (- threshold) then
    mkFaceDots (posX fd) (negX fd) (posY fd) (negY fd) (posZ fd) (negZ fd ++ [color])
  else fd.

(** The dots met by the traversal of all sub-cubes, in order, each with
    its world position and color tag. *)
Definition worldDots (groupRotation : Euler) (cubes : list Cube)
  : list (Vector3 * Z) :=
  cube ← cubes;
  (fun d => (getWorldPosition groupRotation cube d, colorHex d)) <$> dots cube.

Definition collectDots (wd : list (Vector3 * Z)) : FaceDots :=
  fold_left (fun fd d => pushDot (fst d) (snd d) fd) wd
            (mkFaceDots [] [] [] [] [] []).

(** One iteration of the checking loop: [true] when the face passes. *)
Definition faceOk (colors : list Z) : bool :=
  if negb (length colors =? 9)%nat then false
  else match colors with
       | [] => true
       | firstColor :: _ => forallb (fun c => (c =? firstColor)%Z) colors
       end.

Definition entries (fd : FaceDots) : list (list Z) :=
  [posX fd; negX fd; posY fd; negY fd; posZ fd; negZ fd].

Definition checkDots (wd : list (Vector3 * Z)) : bool :=
  forallb faceOk (entries (collectDots wd)).

Definition checkIfSolved (s : State) : bool :=
  checkDots (worldDots (cubeGroupRotation s) (smallCubes s)).

(** [checkForSolve()], with the result of [checkIfSolved()] passed in by
    [checkForSolve] below. *)
Definition checkForSolveWith (solved : bool) (s : State) : bool * State :=
  if negb (hasBeenMixed s) then (false, withHasBeenMixed true s)
  else if solved then
    let dark := negb (isDarkMode (display s)) in
    let d := mkDisplay dark dark dark dark
               (if dark then Some (-1)%Z else materialPreset (display s)) in
    (true, withHasBeenMixed false (withDisplay d s))
  else (false, s).

Definition checkForSolve (s : State) : bool * State :=
  checkForSolveWith (checkIfSolved s) s.

(** *** Slice rotation *)

Definition inSlice (a : Axis) (i : Z) (cube : Cube) : bool :=
  match a with
  | AxisX => (x (userData cube) =? i)%Z
  | AxisY => (y (userData cube) =? i)%Z
  | AxisZ => (z (userData cube) =? i)%Z
  end.

Definition duration : R := 350.

(** What follows the [await] in [navigateToFace(face)]. *)
Definition navigateResume (face : Z) (s : State) : State :=
  let s1 := mkState (smallCubes s) (cubeGroupRotation s) (introComplete s)
              (isAnimating s) (animation s) (moveHistory s) (isSolved s)
              (hasBeenMixed s) (display s) (currentFace s)
              (S (solveTimers s)) in
  match applyMaterialPreset face s1 with
  | None => s1
  | Some s2 =>
      mkState (smallCubes s2) (cubeGroupRotation s2) (introComplete s2)
              (isAnimating s2) (animation s2) (moveHistory s2) (isSolved s2)
              (hasBeenMixed s2) (display s2) face (solveTimers s2)
  end.

(** Resolving the promise of a [rotateSlice] call. *)
Definition resolve (k : option Z) (s : State) : State :=
  match k with
  | Some face => navigateResume face s
  | None => s
  end.

(** One frame's pose of a slice cube. *)
Definition poseCube (rotQuat : Quaternion)
    (orig : Vector3 * Quaternion) (cube : Cube) : Cube :=
  mkCube (userData cube)
         (applyQuaternion (fst orig) rotQuat)
         (multiply rotQuat (snd orig))
         (dots cube).

(** [animateSlice()], the frame callback; [now] is the value read from
    [performance.now()]. *)
Definition animateSlice (now : R) (s : State) : State :=
  match animation s with
  | None => s
  | Some a =>
      let elapsed := now - start a in
      let progress := Math.min (elapsed / duration) 1 in
      let eased := 1 - Math.pow (1 - progress) 3 in
      let currentAngle := targetAngle a * eased in
      let rotQuat := setFromAxisAngle (rotationAxis a) currentAngle in
      let cubes1 :=
        forEachIndexed (poseCube rotQuat) (sliceCubes a)
          (zip (originalPositions a) (originalQuaternions a))
          (smallCubes s) in
      if Math.ltb progress 1 then withCubes cubes1 s
      else
        let cubes2 := forEach snapCube (sliceCubes a) cubes1 in
        resolve (awaiting a)
          (mkState cubes2 (cubeGroupRotation s) (introComplete s)
                   false None (moveHistory s) (isSolved s)
                   (hasBeenMixed s) (display s) (currentFace s)
                   (solveTimers s))
  end.

(** [rotateSlice(axis, index, direction, recordMove)].  [k] is who awaits
    the returned promise; [t0] and [t1] are the two clock readings of the
    call (the start time and the first, synchronous [animateSlice]). *)
Definition rotateSlice (a : Axis) (i : Z) (dir : Z) (recordMove : bool)
    (k : option Z) (t0 t1 : R) (s : State) : State :=
  if isAnimating s then resolve k s
  else
    let history := if recordMove then moveHistory s ++ [mkMove a i dir]
                   else moveHistory s in
    let solved := if recordMove then false else isSolved s in
    let slice := filterRefs (inSlice a i) (smallCubes s) in
    let anim :=
      mkAnimation slice
        (mapRefs position slice (smallCubes s))
        (mapRefs quaternion slice (smallCubes s))
        (Math.PI / 2 * IZR dir) t0
        (mkVector3 (if decide (a = AxisX) then 1 else 0)
                   (if decide (a = AxisY) then 1 else 0)
                   (if decide (a = AxisZ) then 1 else 0))
        k in
    animateSlice t1
      (mkState (smallCubes s) (cubeGroupRotation s) (introComplete s)
               true (Some anim) history solved (hasBeenMixed s)
               (display s) (currentFace s) (solveTimers s)).

(** [navigateToFace(faceIndex)] up to its [await]. *)
Definition navigateToFace (face : Z) (t0 t1 : R) (s : State) : State :=
  if isAnimating s || negb (introComplete s) then s
  else match faceToMove face with
       | Some move =>
           rotateSlice (axis move) (index move) (direction move) false
                       (Some face) t0 t1 s
       | None => navigateResume face s
       end.

(** What can happen on the page, as far as the cube is concerned. *)
Inductive Event :=
| IntroDone
| Click (face : Z) (t0 t1 : R)
| Frame (now : R)
| Timeout
| Render (rx ry : R).

Definition step (s : State) (e : Event) : State :=
  match e with
  | IntroDone =>
      if introComplete s then s
      else
        let s1 := mkState (smallCubes s) (cubeGroupRotation s) true
                    (isAnimating s) (animation s) (moveHistory s)
                    (isSolved s) (hasBeenMixed s) (display s)
                    (currentFace s) (solveTimers s) in
        withMaterial (-1) s1
  | Click face t0 t1 => navigateToFace face t0 t1 s
  | Frame now => animateSlice now s
  | Timeout =>
      match solveTimers s with
      | O => s
      | S n =>
          snd (checkForSolve
                 (mkState (smallCubes s) (cubeGroupRotation s)
                    (introComplete s) (isAnimating s) (animation s)
                    (moveHistory s) (isSolved s) (hasBeenMixed s)
                    (display s) (currentFace s) n))
      end
  | Render rx ry =>
      mkState (smallCubes s) (mkEuler rx ry (ez (cubeGroupRotation s)))
              (introComplete s) (isAnimating s) (animation s)
              (moveHistory s) (isSolved s) (hasBeenMixed s) (display s)
              (currentFace s) (solveTimers s)
  end.

Definition run (s : State) (es : list Event) : State := fold_left step es s.

End VariantA.

(** ** Variant B: the second source file *)

Module VariantB.

(** The scene-graph parent of a sub-cube. *)
Inductive Parent := InCubeGroup | InRotationGroup.

Record Cube := mkCube {
  userData : UserData;
  position : Vector3;
  rotation : Euler;
  parent : Parent }.

Definition offset : R := (IZR SEGMENTS - 1) / 2.

Definition gridPosition (gx gy gz : Z) : Vector3 :=
  mkVector3 ((IZR gx - offset) * (SEGMENT_SIZE + GAP))
            ((IZR gy - offset) * (SEGMENT_SIZE + GAP))
            ((IZR gz - offset) * (SEGMENT_SIZE + GAP)).

Definition buildCube (gx gy gz : Z) : option Cube :=
  let isEdge :=
    (gx =? 0)%Z || (gx =? SEGMENTS - 1)%Z ||
    (gy =? 0)%Z || (gy =? SEGMENTS - 1)%Z ||
    (gz =? 0)%Z || (gz =? SEGMENTS - 1)%Z in
  if negb isEdge then None
  else Some (mkCube (mkUserData gx gy gz) (gridPosition gx gy gz)
                    (mkEuler 0 0 0) InCubeGroup).

Definition buildCubes : list Cube :=
  gx ← segmentRange; gy ← segmentRange; gz ← segmentRange;
  match buildCube gx gy gz with Some c => [c] | None => [] end.

(** The closure of an in-flight [rotateSlice] call. *)
Record Animation := mkAnimation {
  sliceCubes : list nat;
  animAxis : Axis;
  targetRotation : R;
  start : R }.

Record State := mkState {
  smallCubes : list Cube;
  rotationGroupRotation : Euler;
  isAnimating : bool;
  animation : option Animation }.

Definition initialState : State :=
  mkState buildCubes (mkEuler 0 0 0) false None.

Definition inSlice (a : Axis) (i : Z) (cube : Cube) : bool :=
  match a with
  | AxisX => (x (userData cube) =? i)%Z
  | AxisY => (y (userData cube) =? i)%Z
  | AxisZ => (z (userData cube) =? i)%Z
  end.

Definition duration : R := 600.

Definition toRotationGroup (cube : Cube) : Cube :=
  mkCube (userData cube) (position cube) (rotation cube) InRotationGroup.

(** The body of the completion loop for one sub-cube. *)
Definition settleCube (groupRotation : Euler) (cube : Cube) : Cube :=
  let p := applyEuler (position cube) groupRotation in
  let r := mkEuler (ex (rotation cube) + ex groupRotation)
                   (ey (rotation cube) + ey groupRotation)
                   (ez (rotation cube) + ez groupRotation) in
  let roundedPos :=
    mkUserData (Math.round (vx p / (SEGMENT_SIZE + GAP) + 1))
               (Math.round (vy p / (SEGMENT_SIZE + GAP) + 1))
               (Math.round (vz p / (SEGMENT_SIZE + GAP) + 1)) in
  mkCube roundedPos p r InCubeGroup.

(** [animate()], the frame callback of [rotateSlice]. *)
Definition animateSlice (now : R) (s : State) : State :=
  match animation s with
  | None => s
  | Some a =>
      let elapsed := now - start a in
      let progress := Math.min (elapsed / duration) 1 in
      let eased :=
        if Math.ltb progress 0.5
        then 4 * progress * progress * progress
        else 1 - Math.pow (-2 * progress + 2) 3 / 2 in
      let g := rotationGroupRotation s in
      let g1 :=
        match animAxis a with
        | AxisX => mkEuler (targetRotation a * eased) (ey g) (ez g)
        | AxisY => mkEuler (ex g) (targetRotation a * eased) (ez g)
        | AxisZ => mkEuler (ex g) (ey g) (targetRotation a * eased)
        end in
      if Math.ltb progress 1
      then mkState (smallCubes s) g1 (isAnimating s) (animation s)
      else
        mkState (forEach (settleCube g1) (sliceCubes a) (smallCubes s))
                (mkEuler 0 0 0) false None
  end.

(** [rotateSlice(axis, index, direction)]; [t0] and [t1] are the two
    clock readings of the call. *)
Definition rotateSlice (a : Axis) (i : Z) (dir : Z) (t0 t1 : R)
    (s : State) : State :=
  if isAnimating s then s
  else
    let slice := filterRefs (inSlice a i) (smallCubes s) in
    let cubes1 := forEach toRotationGroup slice (smallCubes s) in
    animateSlice t1
      (mkState cubes1 (rotationGroupRotation s) true
               (Some (mkAnimation slice a (Math.PI / 2 * IZR dir) t0))).

(** The orientation the library derives from [cube.rotation]. *)
Definition quaternion (cube : Cube) : Quaternion :=
  setFromEuler (rotation cube).

Inductive Event :=
| Call (a : Axis) (i : Z) (dir : Z) (t0 t1 : R)
| Frame (now : R).

Definition step (s : State) (e : Event) : State :=
  match e with
  | Call a i dir t0 t1 => rotateSlice a i dir t0 t1 s
  | Frame now => animateSlice now s
  end.

Definition run (s : State) (es : list Event) : State := fold_left step es s.

End VariantB.

(** ** An exact arithmetic for axis-aligned orientations

    Quaternions of rotations by multiples of 90 degrees have components in
    Q(sqrt 2).  [Exact] repeats the library's formulas over pairs of
    rationals [a + b * sqrt 2], where they can be evaluated; the lemmas
    further down relate each operation to its real counterpart. *)

Module Exact.

Record Num := mkNum { rat : Q; irr : Q }.

Definition toR (a : Num) : R := Q2R (rat a) + Q2R (irr a) * sqrt 2.

Definition ofZ (n : Z) : Num := mkNum (inject_Z n) 0.
Definition add (a b : Num) : Num :=
  mkNum (Qred (rat a + rat b)) (Qred (irr a + irr b)).
Definition sub (a b : Num) : Num :=
  mkNum (Qred (rat a - rat b)) (Qred (irr a - irr b)).
Definition opp (a : Num) : Num := mkNum (- rat a)%Q (- irr a)%Q.
Definition mul (a b : Num) : Num :=
  mkNum (Qred (rat a * rat b + 2 * (irr a * irr b)))
        (Qred (rat a * irr b + irr a * rat b)).
Definition eqb (a b : Num) : bool :=
  Qeq_bool (rat a) (rat b) && Qeq_bool (irr a) (irr b).

(** The integer a number is, if it is one. *)
Definition toZ (a : Num) : option Z :=
  let n := (Qnum (rat a) / Zpos (Qden (rat a)))%Z in
  if Qeq_bool (irr a) 0 && Qeq_bool (rat a) (inject_Z n)
  then Some n else None.

Record Quaternion := mkQuaternion { qx : Num; qy : Num; qz : Num; qw : Num }.

Record Matrix3 := mkMatrix3 {
  m11 : Num; m12 : Num; m13 : Num;
  m21 : Num; m22 : Num; m23 : Num;
  m31 : Num; m32 : Num; m33 : Num }.

Definition toQuaternion (q : Quaternion) : THREE.Quaternion :=
  THREE.mkQuaternion (toR (qx q)) (toR (qy q)) (toR (qz q)) (toR (qw q)).

Definition toMatrix3 (m : Matrix3) : THREE.Matrix3 :=
  THREE.mkMatrix3 (toR (m11 m)) (toR (m12 m)) (toR (m13 m))
                  (toR (m21 m)) (toR (m22 m)) (toR (m23 m))
                  (toR (m31 m)) (toR (m32 m)) (toR (m33 m)).

Definition negate (q : Quaternion) : Quaternion :=
  mkQuaternion (opp (qx q)) (opp (qy q)) (opp (qz q)) (opp (qw q)).

Definition quaternion_eqb (p q : Quaternion) : bool :=
  eqb (qx p) (qx q) && eqb (qy p) (qy q) && eqb (qz p) (qz q) &&
  eqb (qw p) (qw q).

Definition matrix_eqb (a b : Matrix3) : bool :=
  eqb (m11 a) (m11 b) && eqb (m12 a) (m12 b) && eqb (m13 a) (m13 b) &&
  eqb (m21 a) (m21 b) && eqb (m22 a) (m22 b) && eqb (m23 a) (m23 b) &&
  eqb (m31 a) (m31 b) && eqb (m32 a) (m32 b) && eqb (m33 a) (m33 b).

Definition multiply (a b : Quaternion) : Quaternion :=
  mkQuaternion
    (sub (add (add (mul (qx a) (qw b)) (mul (qw a) (qx b)))
              (mul (qy a) (qz b))) (mul (qz a) (qy b)))
    (sub (add (add (mul (qy a) (qw b)) (mul (qw a) (qy b)))
              (mul (qz a) (qx b))) (mul (qx a) (qz b)))
    (sub (add (add (mul (qz a) (qw b)) (mul (qw a) (qz b)))
              (mul (qx a) (qy b))) (mul (qy a) (qx b)))
    (sub (sub (sub (mul (qw a) (qw b)) (mul (qx a) (qx b)))
              (mul (qy a) (qy b))) (mul (qz a) (qz b))).

Definition makeRotationFromQuaternion (q : Quaternion) : Matrix3 :=
  let x := qx q in let y := qy q in let z := qz q in let w := qw q in
  let x2 := add x x in let y2 := add y y in let z2 := add z z in
  let xx := mul x x2 in let xy := mul x y2 in let xz := mul x z2 in
  let yy := mul y y2 in let yz := mul y z2 in let zz := mul z z2 in
  let wx := mul w x2 in let wy := mul w y2 in let wz := mul w z2 in
  mkMatrix3
    (sub (ofZ 1) (add yy zz)) (sub xy wz) (add xz wy)
    (add xy wz) (sub (ofZ 1) (add xx zz)) (sub yz wx)
    (sub xz wy) (add yz wx) (sub (ofZ 1) (add xx yy)).

(** [sqrt 2 / 2] *)
Definition half : Num := mkNum 0 (1 # 2).

(** [cos (k * PI / 4)] and [sin (k * PI / 4)] for [-2 <= k <= 2]. *)
Definition cosQuarter (k : Z) : Num :=
  match k with
  | 0 => ofZ 1
  | 1 | -1 => half
  | _ => ofZ 0
  end%Z.

Definition sinQuarter (k : Z) : Num :=
  match k with
  | 1 => half
  | -1 => opp half
  | 2 => ofZ 1
  | -2 => ofZ (-1)
  | _ => ofZ 0
  end%Z.

(** [setFromEuler] at the angles [kx * 90, ky * 90, kz * 90] degrees. *)
Definition setFromEuler (k : Z * Z * Z) : Quaternion :=
  let '(kx, ky, kz) := k in
  let c1 := cosQuarter kx in
  let c2 := cosQuarter ky in
  let c3 := cosQuarter kz in
  let s1 := sinQuarter kx in
  let s2 := sinQuarter ky in
  let s3 := sinQuarter kz in
  mkQuaternion
    (add (mul (mul s1 c2) c3) (mul (mul c1 s2) s3))
    (sub (mul (mul c1 s2) c3) (mul (mul s1 c2) s3))
    (add (mul (mul c1 c2) s3) (mul (mul s1 s2) c3))
    (sub (mul (mul c1 c2) c3) (mul (mul s1 s2) s3)).

(** [Math.atan2 y x] in quarter turns, for the axis points. *)
Definition atan2 (y x : Z) : option Z :=
  match y, x with
  | 0, 0 => Some 0
  | 0, 1 => Some 0
  | 1, 0 => Some 1
  | 0, -1 => Some 2
  | -1, 0 => Some (-1)
  | _, _ => None
  end%Z.

(** [Euler.setFromRotationMatrix] in quarter turns, for matrices whose
    relevant entries are 0, 1 or -1. *)
Definition setFromRotationMatrix (m : Matrix3) : option (Z * Z * Z) :=
  a13 ← toZ (m13 m);
  if (a13 =? 0)%Z then
    a23 ← toZ (m23 m); a33 ← toZ (m33 m);
    a12 ← toZ (m12 m); a11 ← toZ (m11 m);
    kx ← atan2 (- a23) a33;
    kz ← atan2 (- a12) a11;
    Some (kx, 0, kz)%Z
  else if (a13 =? 1)%Z || (a13 =? -1)%Z then
    a32 ← toZ (m32 m); a22 ← toZ (m22 m);
    kx ← atan2 a32 a22;
    Some (kx, a13, 0)%Z
  else None.

Definition snapAngles (q : Quaternion) : option (Z * Z * Z) :=
  setFromRotationMatrix (makeRotationFromQuaternion q).

Definition snapQuaternion (q : Quaternion) : option Quaternion :=
  setFromEuler <$> snapAngles q.

Definition axisVector (a : Axis) : Num * Num * Num :=
  match a with
  | AxisX => (ofZ 1, ofZ 0, ofZ 0)
  | AxisY => (ofZ 0, ofZ 1, ofZ 0)
  | AxisZ => (ofZ 0, ofZ 0, ofZ 1)
  end.

(** [setFromAxisAngle(axis, dir * 90 degrees)] *)
Definition setFromAxisAngle (a : Axis) (dir : Z) : Quaternion :=
  let '(ax, ay, az) := axisVector a in
  let s := sinQuarter dir in
  mkQuaternion (mul ax s) (mul ay s) (mul az s) (cosQuarter dir).

(** One completed slice turn acting on an orientation (variant A). *)
Definition turn (a : Axis) (dir : Z) (q : Quaternion) : option Quaternion :=
  snapQuaternion (multiply (setFromAxisAngle a dir) q).

Definition quarterRange : list Z := [-2; -1; 0; 1; 2]%Z.

Definition eulerTriples : list (Z * Z * Z) :=
  kx ← quarterRange; ky ← quarterRange; kz ← quarterRange;
  [(kx, ky, kz)].

(** The orientations by multiples of 90 degrees, with both signs. *)
Definition lattice : list Quaternion :=
  k ← eulerTriples; [setFromEuler k; negate (setFromEuler k)].

(** The six quarter turns of a slice. *)
Definition quarterMoves : list (Axis * Z) :=
  [(AxisX, 1); (AxisX, -1); (AxisY, 1); (AxisY, -1);
   (AxisZ, 1); (AxisZ, -1)]%Z.

(** Four turns about one axis in one direction. *)
Definition turn4 (a : Axis) (dir : Z) (q : Quaternion) : option Quaternion :=
  q1 ← turn a dir q; q2 ← turn a dir q1; q3 ← turn a dir q2; turn a dir q3.

Definition sameMatrix (p q : Quaternion) : bool :=
  matrix_eqb (makeRotationFromQuaternion p) (makeRotationFromQuaternion q).

(** Two numbers that are different integers. *)
Definition distinctInt (a b : Num) : bool :=
  match toZ a, toZ b with
  | Some n, Some m => negb (n =? m)%Z
  | _, _ => false
  end.

(** Two matrices with different integers at some place. *)
Definition differ (a b : Matrix3) : bool :=
  distinctInt (m11 a) (m11 b) || distinctInt (m12 a) (m12 b) ||
  distinctInt (m13 a) (m13 b) || distinctInt (m21 a) (m21 b) ||
  distinctInt (m22 a) (m22 b) || distinctInt (m23 a) (m23 b) ||
  distinctInt (m31 a) (m31 b) || distinctInt (m32 a) (m32 b) ||
  distinctInt (m33 a) (m33 b).

(** A result exists and its matrix differs from that of [q]. *)
Definition returnsOther (o : option Quaternion) (q : Quaternion) : bool :=
  match o with
  | Some q' => differ (makeRotationFromQuaternion q')
                      (makeRotationFromQuaternion q)
  | None => false
  end.

(** The checks that are run on the whole lattice: a result exists, and
    a result exists and has the matrix of [q]. *)
Definition defined (o : option Quaternion) : bool :=
  match o with Some _ => true | None => false end.

Definition returns (o : option Quaternion) (q : Quaternion) : bool :=
  match o with Some q' => sameMatrix q' q | None => false end.

End Exact.

(** ** Notions used by the statements *)

(** The grid slot a slot moves to under a quarter turn of the grid about
    its center: [dir = 1] is the counter-clockwise turn seen from the
    positive end of the axis (the right-hand rule). *)
Definition quarterTurn (a : Axis) (dir : Z) (u : UserData) : UserData :=
  match a with
  | AxisX => mkUserData (x u) (1 - dir * (z u - 1)) (1 + dir * (y u - 1))
  | AxisY => mkUserData (1 + dir * (z u - 1)) (y u) (1 - dir * (x u - 1))
  | AxisZ => mkUserData (1 - dir * (y u - 1)) (1 + dir * (x u - 1)) (z u)
  end%Z.

(** The same quarter turn on positions. *)
Definition quarterTurnVector (a : Axis) (dir : Z) (p : Vector3) : Vector3 :=
  match a with
  | AxisX => mkVector3 (vx p) (- IZR dir * vz p) (IZR dir * vy p)
  | AxisY => mkVector3 (IZR dir * vz p) (vy p) (- IZR dir * vx p)
  | AxisZ => mkVector3 (- IZR dir * vy p) (IZR dir * vx p) (vz p)
  end.

Definition coordinate (a : Axis) (u : UserData) : Z :=
  match a with AxisX => x u | AxisY => y u | AxisZ => z u end.

(** A quarter turn of the slots of slice [i], the others staying. *)
Definition turnSlot (a : Axis) (i dir : Z) (u : UserData) : UserData :=
  if decide (coordinate a u = i) then quarterTurn a dir u else u.

(** The 26 grid slots of the visible shell, in build order. *)
Definition shell : list UserData :=
  gx ← segmentRange; gy ← segmentRange; gz ← segmentRange;
  if decide (gx = 1 ∧ gy = 1 ∧ gz = 1)%Z then [] else [mkUserData gx gy gz].

Definition inRange (u : UserData) : Prop :=
  (0 <= x u <= 2 ∧ 0 <= y u <= 2 ∧ 0 <= z u <= 2)%Z.

(** The six face-center slots. *)
Definition faceCenters : list UserData :=
  [mkUserData 2 1 1; mkUserData 0 1 1; mkUserData 1 2 1;
   mkUserData 1 0 1; mkUserData 1 1 2; mkUserData 1 1 0]%Z.

(** The unit vector of an axis, as [rotateSlice] builds it. *)
Definition axisVector (a : Axis) : Vector3 :=
  mkVector3 (if decide (a = AxisX) then 1 else 0)
            (if decide (a = AxisY) then 1 else 0)
            (if decide (a = AxisZ) then 1 else 0).

(** Two quaternions show the same orientation when the library turns them
    into the same rotation matrix ([q] and [-q] do). *)
Definition sameOrientation (p q : THREE.Quaternion) : Prop :=
  makeRotationFromQuaternion p = makeRotationFromQuaternion q.

Definition negateQuaternion (q : THREE.Quaternion) : THREE.Quaternion :=
  mkQuaternion (- qx q) (- qy q) (- qz q) (- qw q).

Definition quarterAngles (kx ky kz : Z) : Euler :=
  mkEuler (IZR kx * (Math.PI / 2)) (IZR ky * (Math.PI / 2))
          (IZR kz * (Math.PI / 2)).

(** An orientation by multiples of 90 degrees about the three axes. *)
Definition axisAligned (q : THREE.Quaternion) : Prop :=
  ∃ kx ky kz : Z,
    (-2 <= kx <= 2)%Z ∧ (-2 <= ky <= 2)%Z ∧ (-2 <= kz <= 2)%Z ∧
    (q = setFromEuler (quarterAngles kx ky kz) ∨
     q = negateQuaternion (setFromEuler (quarterAngles kx ky kz))).

(** The clock readings of a whole rotation: the two of the call and one
    per later frame. *)
Record Timing := mkTiming { t0 : R; t1 : R; frames : list R }.

(** A timing whose fourth frame is the last one, in either variant. *)
Definition sampleTiming : Timing := mkTiming 0 0 [16; 300; 600].

(** A timing that leaves the rotation in flight, in either variant. *)
Definition earlyTiming : Timing := mkTiming 0 0 [16; 32].

(** A rotation runs to completion when one of its frames is drawn no
    earlier than [duration] after the start. *)
Definition completes (duration : R) (tm : Timing) : Prop :=
  Exists (fun now => duration <= now - t0 tm) (t1 tm :: frames tm).

Module SpecA.
Import VariantA.

Definition onGrid (c : Cube) : Prop :=
  position c = gridPosition (x (userData c)) (y (userData c)) (z (userData c)).

(** A rest state: no rotation in flight, the sub-cubes occupy the shell
    slots, one each, and sit exactly on their slots. *)
Definition atRest (s : State) : Prop :=
  isAnimating s = false ∧ animation s = None ∧
  userData <$> smallCubes s ≡ₚ shell ∧
  Forall onGrid (smallCubes s).

Definition aligned (s : State) : Prop :=
  Forall (fun c => axisAligned (quaternion c)) (smallCubes s).

(** A call of [rotateSlice] with nobody awaiting it, and the frames
    that follow. *)
Definition rotationRun (a : Axis) (i dir : Z) (recordMove : bool)
    (tm : Timing) (s : State) : State :=
  fold_left (fun st now => animateSlice now st) (frames tm)
            (rotateSlice a i dir recordMove None (t0 tm) (t1 tm) s).

Definition sliceCoordinates (a : Axis) (i : Z) (s : State)
  : list UserData :=
  filter (fun u => coordinate a u = i) (userData <$> smallCubes s).

(** The rotation quaternion of the last frame. *)
Definition finalQuaternion (a : Axis) (dir : Z) : Quaternion :=
  setFromAxisAngle (axisVector a) (Math.PI / 2 * IZR dir).

(** The orientation of a slice cube after the last frame and the snap. *)
Definition turnOrientation (a : Axis) (dir : Z) (q : Quaternion)
  : Quaternion :=
  snapQuaternion (multiply (finalQuaternion a dir) q).

(** A slice cube after the last frame and the snap. *)
Definition turnCube (a : Axis) (dir : Z) (c : Cube) : Cube :=
  snapCube (poseCube (finalQuaternion a dir) (position c, quaternion c) c).

(** The sub-cubes after a completed rotation of slice [i] of axis [a]. *)
Definition turnSlice (a : Axis) (i dir : Z) (cubes : list Cube)
  : list Cube :=
  (fun c => if inSlice a i c then turnCube a dir c else c) <$> cubes.

(** The sub-cubes in the middle of a rotation, the slice posed by [q]. *)
Definition posed (q : Quaternion) (a : Axis) (i : Z) (cubes : list Cube)
  : list Cube :=
  (fun c => if inSlice a i c
            then poseCube q (position c, quaternion c) c else c) <$> cubes.

(** [arr] is [cubes] up to the pose of the slice cubes. *)
Definition sameButPose (a : Axis) (i : Z) (arr cubes : list Cube) : Prop :=
  ∀ j, match cubes !! j with
       | Some c0 => ∃ c, arr !! j = Some c ∧ userData c = userData c0 ∧
                         dots c = dots c0 ∧
                         (inSlice a i c0 = false -> c = c0)
       | None => arr !! j = None
       end.

(** The closure [rotateSlice] creates over the sub-cubes [cubes]. *)
Definition newAnimation (a : Axis) (i dir : Z) (k : option Z) (t0 : R)
    (cubes : list Cube) : Animation :=
  let slice := filterRefs (inSlice a i) cubes in
  mkAnimation slice (mapRefs position slice cubes)
              (mapRefs quaternion slice cubes)
              (Math.PI / 2 * IZR dir) t0 (axisVector a) k.

(** The state when the last frame has snapped the slice to [cubes]. *)
Definition finish (cubes : list Cube) (s : State) : State :=
  mkState cubes (cubeGroupRotation s) (introComplete s) false None
          (moveHistory s) (isSolved s) (hasBeenMixed s) (display s)
          (currentFace s) (solveTimers s).

(** The bookkeeping of the prologue of [rotateSlice]. *)
Definition recordMoveIn (a : Axis) (i dir : Z) (recordMove : bool)
    (s : State) : State :=
  mkState (smallCubes s) (cubeGroupRotation s) (introComplete s)
          (isAnimating s) (animation s)
          (if recordMove then moveHistory s ++ [mkMove a i dir]
           else moveHistory s)
          (if recordMove then false else isSolved s)
          (hasBeenMixed s) (display s) (currentFace s) (solveTimers s).

(** The state after the prologue of [rotateSlice], before its first
    frame. *)
Definition begin (a : Axis) (i dir : Z) (recordMove : bool)
    (k : option Z) (t0 : R) (s : State) : State :=
  mkState (smallCubes s) (cubeGroupRotation s) (introComplete s) true
          (Some (newAnimation a i dir k t0 (smallCubes s)))
          (moveHistory (recordMoveIn a i dir recordMove s))
          (isSolved (recordMoveIn a i dir recordMove s))
          (hasBeenMixed s) (display s) (currentFace s) (solveTimers s).

(** A rotation in flight: started from [s], the slice posed by [q]. *)
Definition inflight (q : Quaternion) (a : Axis) (i dir : Z)
    (recordMove : bool) (k : option Z) (t0 : R) (s : State) : State :=
  withCubes (posed q a i (smallCubes s)) (begin a i dir recordMove k t0 s).

(** The state a rotation started from [s] completes in. *)
Definition completed (a : Axis) (i dir : Z) (recordMove : bool)
    (k : option Z) (s : State) : State :=
  resolve k (finish (turnSlice a i dir (smallCubes s))
                    (recordMoveIn a i dir recordMove s)).

(** The face-center sub-cubes are where they were built. *)
Definition centersKept (cubes : list Cube) : Prop :=
  ∀ j c, buildCubes !! j = Some c -> userData c ∈ faceCenters ->
         ∃ c', cubes !! j = Some c' ∧ userData c' = userData c.

(** What holds of the sub-cubes between any two events of a page whose
    rotations all come from face navigation: they are the sub-cubes
    [cubes] of the last rest state, or those with one outer slice posed
    by the rotation in flight. *)
Definition navigated (s : State) : Prop :=
  ∃ cubes,
    Forall onGrid cubes ∧ centersKept cubes ∧
    ((isAnimating s = false ∧ animation s = None ∧ smallCubes s = cubes) ∨
     (isAnimating s = true ∧
      ∃ a i dir k t0 q,
        animation s = Some (newAnimation a i dir k t0 cubes) ∧
        smallCubes s = posed q a i cubes ∧
        (i = 0 ∨ i = 2)%Z ∧ (dir = 1 ∨ dir = -1)%Z)).

(** The classification of the solved detector in the words of its
    contract: the first outward direction, in the order +x, -x, +y, -y,
    +z, -z, along which the position lies beyond the threshold. *)
Inductive Face := PosX | NegX | PosY | NegY | PosZ | NegZ.

Definition allFaces : list Face := [PosX; NegX; PosY; NegY; PosZ; NegZ].

Definition beyond (f : Face) (p : Vector3) : bool :=
  match f with
  | PosX => Math.gtb (vx p) threshold
  | NegX => Math.ltb (vx p) (- threshold)
  | PosY => Math.gtb (vy p) threshold
  | NegY => Math.ltb (vy p) (- threshold)
  | PosZ => Math.gtb (vz p) threshold
  | NegZ => Math.ltb (vz p) (- threshold)
  end.

Definition classify (p : Vector3) : option Face :=
  List.find (fun f => beyond f p) allFaces.

#[global] Instance Face_eq_dec : EqDecision Face.
Proof. solve_decision. Defined.

(** The color tags of the dots classified to face [f], in traversal
    order. *)
Definition group (f : Face) (wd : list (Vector3 * Z)) : list Z :=
  snd <$> filter (fun d => classify (fst d) = Some f) wd.

Definition uniform (colors : list Z) : Prop :=
  ∀ c c', c ∈ colors -> c' ∈ colors -> c = c'.

(** The face a dot was created for, from its [faceIndex]. *)
Definition faceOf (face : Z) : Face :=
  match face with
  | 0 => PosX | 1 => NegX | 2 => PosY | 3 => NegY | 4 => PosZ | _ => NegZ
  end%Z.

(** The color tags of the dots created for face [f]. *)
Definition createdFor (f : Face) (cubes : list Cube) : list Z :=
  cube ← cubes;
  colorHex <$> filter (fun d => faceOf (faceIndex d) = f) (dots cube).

(** Every dot of [cube] is seen on the face it was created for. *)
Definition dotsInPlace (g : Euler) (cube : Cube) : Prop :=
  Forall (fun d => classify (getWorldPosition g cube d)
                   = Some (faceOf (faceIndex d))) (dots cube).

(** The color tags of the dots that belong to face [f] when the whole
    cube is displayed with rotation [g]: going through the sub-cubes in
    order, those of the dots of each whose world position is classified
    to [f]. *)
Definition seenOn (f : Face) (g : Euler) (cubes : list Cube) : list Z :=
  cube ← cubes;
  colorHex <$> filter (fun d => classify (getWorldPosition g cube d) = Some f)
                      (dots cube).

End SpecA.

Module SpecB.
Import VariantB.

Definition onGrid (c : Cube) : Prop :=
  position c = gridPosition (x (userData c)) (y (userData c)) (z (userData c)).

Definition atRest (s : State) : Prop :=
  isAnimating s = false ∧ animation s = None ∧
  rotationGroupRotation s = mkEuler 0 0 0 ∧
  userData <$> smallCubes s ≡ₚ shell ∧
  Forall onGrid (smallCubes s).

Definition rotationRun (a : Axis) (i dir : Z) (tm : Timing) (s : State)
  : State :=
  fold_left (fun st now => animateSlice now st) (frames tm)
            (rotateSlice a i dir (t0 tm) (t1 tm) s).

Definition sliceCoordinates (a : Axis) (i : Z) (s : State)
  : list UserData :=
  filter (fun u => coordinate a u = i) (userData <$> smallCubes s).

(** [rotationGroup.rotation] with the component of axis [a] set to [v]. *)
Definition setAxis (a : Axis) (v : R) (g : Euler) : Euler :=
  match a with
  | AxisX => mkEuler v (ey g) (ez g)
  | AxisY => mkEuler (ex g) v (ez g)
  | AxisZ => mkEuler (ex g) (ey g) v
  end.

(** The easing curve of [animate]. *)
Definition eased (progress : R) : R :=
  if Math.ltb progress 0.5
  then 4 * progress * progress * progress
  else 1 - Math.pow (-2 * progress + 2) 3 / 2.

(** The sub-cubes in the middle of a rotation: the slice hangs under the
    rotation group. *)
Definition moved (a : Axis) (i : Z) (cubes : list Cube) : list Cube :=
  (fun c => if inSlice a i c then toRotationGroup c else c) <$> cubes.

(** The sub-cubes after a completed rotation that started with the
    rotation group at [g0]. *)
Definition settleSlice (a : Axis) (i dir : Z) (g0 : Euler)
    (cubes : list Cube) : list Cube :=
  (fun c => if inSlice a i c
            then settleCube (setAxis a (Math.PI / 2 * IZR dir) g0) c
            else c) <$> cubes.

(** A slice cube after a completed rotation from rest. *)
Definition settle (a : Axis) (dir : Z) (c : Cube) : Cube :=
  settleCube (setAxis a (Math.PI / 2 * IZR dir) (mkEuler 0 0 0)) c.

Definition newAnimation (a : Axis) (i dir : Z) (t0 : R) (s : State)
  : Animation :=
  mkAnimation (filterRefs (inSlice a i) (smallCubes s)) a
              (Math.PI / 2 * IZR dir) t0.

Definition inflight (v : R) (a : Axis) (i dir : Z) (t0 : R) (s : State)
  : State :=
  mkState (moved a i (smallCubes s))
          (setAxis a v (rotationGroupRotation s)) true
          (Some (newAnimation a i dir t0 s)).

Definition completed (a : Axis) (i dir : Z) (s : State) : State :=
  mkState (settleSlice a i dir (rotationGroupRotation s) (smallCubes s))
          (mkEuler 0 0 0) false None.

End SpecB.

(** ** The states the page of variant A can reach *)

Module ReachA.
Import VariantA SpecA.

(** The sub-cubes of a rest state: on the 26 shell slots, one each, each
    exactly on its slot and turned by multiples of 90 degrees. *)
Definition settled (cubes : list Cube) : Prop :=
  userData <$> cubes ≡ₚ shell ∧ Forall onGrid cubes ∧
  Forall (fun c => axisAligned (quaternion c)) cubes.

(** Between two events the sub-cubes are settled, or settled up to the
    pose of the one slice that a valid move is turning. *)
Definition reachable (s : State) : Prop :=
  ∃ cubes, settled cubes ∧
    ((isAnimating s = false ∧ animation s = None ∧ smallCubes s = cubes) ∨
     (isAnimating s = true ∧
      ∃ a i dir k t0 q,
        animation s = Some (newAnimation a i dir k t0 cubes) ∧
        smallCubes s = posed q a i cubes ∧
        (0 <= i <= 2)%Z ∧ (dir = 1 ∨ dir = -1)%Z)).

End ReachA.

(** ** Variant B: shuffles, navigation and the view *)

Module PageB.
Import VariantB.

(** [axes[k]] for [const axes = ['x', 'y', 'z']]. *)
Definition axes (k : Z) : option Axis :=
  match k with
  | 0 => Some AxisX
  | 1 => Some AxisY
  | 2 => Some AxisZ
  | _ => None
  end%Z.

(** The three draws of one iteration of [rubiksShuffle]; [r1], [r2],
    [r3] are the values of the three [Math.random()] calls.  The library
    draws from [0, 1), so that [axes[...]] is never undefined ([None]). *)
Definition drawMove (r1 r2 r3 : R) : option Move :=
  match axes (Zfloor (r1 * 3)) with
  | Some a =>
      Some (mkMove a (Zfloor (r2 * IZR SEGMENTS))
                   (if Math.gtb r3 0.5 then 1 else -1)%Z)
  | None => None
  end.

(** A pair of numbers read and written as [{ x, y }]. *)
Record XY := mkXY { px : R; py : R }.

(** [faceRotations[faceIndex]]; [None] is [undefined]. *)
Definition faceRotations (face : Z) : option XY :=
  match face with
  | 0 => Some (mkXY 0 (- Math.PI / 2))
  | 1 => Some (mkXY 0 (Math.PI / 2))
  | 2 => Some (mkXY (- Math.PI / 2) 0)
  | 3 => Some (mkXY (Math.PI / 2) 0)
  | 4 => Some (mkXY 0 0)
  | 5 => Some (mkXY 0 Math.PI)
  | _ => None
  end%Z.

(** The view: drag state, the whole-cube rotation and the overlay.  A
    rotation is [None] once its components are no numbers any more
    ([targetRotation = { ...undefined }] leaves [x] and [y] undefined, and
    every sum with them is NaN). *)
Record View := mkView {
  isDragging : bool;
  previousMousePosition : XY;
  targetRotation : option XY;
  currentRotation : option XY;
  velocity : XY;
  autoRotate : bool;
  cubeGroupRotation : option XY;
  currentFace : Z;
  lastTap : R;
  overlayHidden : bool;
  overlayContent : option Z;
  autoTimers : nat }.

(** A [rubiksShuffle] suspended at [await rotateSlice(...)]: the
    iterations still to run, and the [navigateToFace(face)] that awaits
    the shuffle, if one does. *)
Record Waiter := mkWaiter { remaining : nat; caller : option Z }.

Record Page := mkPage {
  scene : State;
  waiter : option Waiter;
  view : View;
  shufflePending : bool;
  randomReads : nat;
  clockReads : nat }.

Definition initialView : View :=
  mkView false (mkXY 0 0) (Some (mkXY 0 0)) (Some (mkXY 0 0)) (mkXY 0 0)
         true (Some (mkXY 0 0)) (-1) 0 true None 0.

(** The page once the script has run: the initial shuffle is scheduled. *)
Definition initialPage : Page :=
  mkPage initialState None initialView true 0 0.

Definition withScene (sc : State) (p : Page) : Page :=
  mkPage sc (waiter p) (view p) (shufflePending p) (randomReads p)
         (clockReads p).

Definition withWaiter (w : option Waiter) (p : Page) : Page :=
  mkPage (scene p) w (view p) (shufflePending p) (randomReads p)
         (clockReads p).

Definition withView (v : View) (p : Page) : Page :=
  mkPage (scene p) (waiter p) v (shufflePending p) (randomReads p)
         (clockReads p).

(** What follows [await rubiksShuffle(2)] in [navigateToFace(face)]. *)
Definition presentFace (face : Z) (v : View) : View :=
  mkView (isDragging v) (previousMousePosition v) (faceRotations face)
         (currentRotation v) (velocity v) (autoRotate v)
         (cubeGroupRotation v) face (lastTap v) (overlayHidden v)
         (overlayContent v) (autoTimers v).

(** The return of [rubiksShuffle] to whoever awaits it. *)
Definition shuffleDone (k : option Z) (p : Page) : Page :=
  match k with
  | Some face => withView (presentFace face (view p)) p
  | None => p
  end.

Section Oracles.

(** The values of the successive [Math.random()] and
    [performance.now()] calls. *)
Variables random clock : nat -> R.

(** [rubiksShuffle(count)] from its [n]-th last iteration on, awaited by
    [k].  A call of [rotateSlice] that is dropped, or whose first frame
    already completes the rotation, has resolved its promise when it
    returns, and the loop goes on; otherwise the loop is suspended until
    the frame that completes the rotation. *)
Fixpoint rubiksShuffle (n : nat) (k : option Z) (p : Page) : Page :=
  match n with
  | O => shuffleDone k p
  | S n' =>
      let r := randomReads p in
      let c := clockReads p in
      match drawMove (random r) (random (r + 1)) (random (r + 2)) with
      | None => p
      | Some m =>
          if isAnimating (scene p) then
            rubiksShuffle n' k
              (mkPage (scene p) (waiter p) (view p) (shufflePending p)
                      (r + 3) c)
          else
            let sc := rotateSlice (axis m) (index m) (direction m)
                                  (clock c) (clock (c + 1)) (scene p) in
            let p1 := mkPage sc (waiter p) (view p) (shufflePending p)
                             (r + 3) (c + 2) in
            if isAnimating sc
            then withWaiter (Some (mkWaiter n' k)) p1
            else rubiksShuffle n' k p1
      end
  end.

(** [navigateToFace(faceIndex)] *)
Definition navigateToFace (face : Z) (p : Page) : Page :=
  if isAnimating (scene p) then p
  else
    let v := view p in
    let v1 := mkView (isDragging v) (previousMousePosition v)
                (targetRotation v) (currentRotation v) (velocity v) false
                (cubeGroupRotation v) (currentFace v) (lastTap v)
                (overlayHidden v) (overlayContent v) (autoTimers v) in
    rubiksShuffle 2 (Some face) (withView v1 p).

(** A display frame of the rotation in flight: [animate] inside
    [rotateSlice], and the shuffle that resumes when it resolves. *)
Definition sliceFrame (p : Page) : Page :=
  match animation (scene p) with
  | None => p
  | Some _ =>
      let sc := animateSlice (clock (clockReads p)) (scene p) in
      let p1 := mkPage sc (waiter p) (view p) (shufflePending p)
                       (randomReads p) (clockReads p + 1) in
      if isAnimating sc then p1
      else match waiter p with
           | Some w => rubiksShuffle (remaining w) (caller w)
                                     (withWaiter None p1)
           | None => p1
           end
  end.

End Oracles.

Definition addXY (dx dy : R) (t : option XY) : option XY :=
  match t with
  | Some t => Some (mkXY (px t + dx) (py t + dy))
  | None => None
  end.

(** The [pointerdown] handler. *)
Definition pointerDown (clientX clientY : R) (v : View) : View :=
  mkView true (mkXY clientX clientY) (targetRotation v) (currentRotation v)
         (mkXY 0 0) false (cubeGroupRotation v) (currentFace v) (lastTap v)
         (overlayHidden v) (overlayContent v) (autoTimers v).

(** The [pointermove] handler. *)
Definition pointerMove (clientX clientY : R) (v : View) : View :=
  if negb (isDragging v) then v
  else
    let deltaX := clientX - px (previousMousePosition v) in
    let deltaY := clientY - py (previousMousePosition v) in
    mkView (isDragging v) (mkXY clientX clientY)
           (addXY (deltaY * 0.005) (deltaX * 0.005) (targetRotation v))
           (currentRotation v) (mkXY (deltaY * 0.005) (deltaX * 0.005))
           (autoRotate v) (cubeGroupRotation v) (currentFace v) (lastTap v)
           (overlayHidden v) (overlayContent v) (autoTimers v).

(** The [pointerup] handler: it sets a timer of 3 seconds. *)
Definition pointerUp (v : View) : View :=
  mkView false (previousMousePosition v) (targetRotation v)
         (currentRotation v) (velocity v) (autoRotate v)
         (cubeGroupRotation v) (currentFace v) (lastTap v)
         (overlayHidden v) (overlayContent v) (S (autoTimers v)).

(** One of the timers set by [pointerup] fires. *)
Definition autoRotateTimeout (v : View) : View :=
  match autoTimers v with
  | O => v
  | S n =>
      mkView (isDragging v) (previousMousePosition v) (targetRotation v)
             (currentRotation v) (velocity v)
             (if negb (isDragging v) then true else autoRotate v)
             (cubeGroupRotation v) (currentFace v) (lastTap v)
             (overlayHidden v) (overlayContent v) n
  end.

(** The [pointerleave] handler. *)
Definition pointerLeave (v : View) : View :=
  mkView false (previousMousePosition v) (targetRotation v)
         (currentRotation v) (velocity v) (autoRotate v)
         (cubeGroupRotation v) (currentFace v) (lastTap v)
         (overlayHidden v) (overlayContent v) (autoTimers v).

(** [animate()], the render loop, without its draw call. *)
Definition animate (v : View) : View :=
  let lerpFactor := 0.03 in
  let t1 := if autoRotate v && negb (isDragging v)
            then addXY 0 0.003 (targetRotation v)
            else targetRotation v in
  let t2 := if negb (isDragging v)
            then addXY (px (velocity v)) (py (velocity v)) t1
            else t1 in
  let vel := if negb (isDragging v)
             then mkXY (px (velocity v) * 0.95) (py (velocity v) * 0.95)
             else velocity v in
  let cur :=
    match t2, currentRotation v with
    | Some t, Some c =>
        Some (mkXY (px c + (px t - px c) * lerpFactor)
                   (py c + (py t - py c) * lerpFactor))
    | _, _ => None
    end in
  mkView (isDragging v) (previousMousePosition v) t2 cur vel (autoRotate v)
         cur (currentFace v) (lastTap v) (overlayHidden v)
         (overlayContent v) (autoTimers v).

(** [showContent(faceIndex)]; [hasTemplate f] tells whether the document
    holds the element [face-f-content]. *)
Definition showContent (hasTemplate : Z -> bool) (face : Z) (v : View)
  : View :=
  if hasTemplate face
  then mkView (isDragging v) (previousMousePosition v) (targetRotation v)
              (currentRotation v) (velocity v) (autoRotate v)
              (cubeGroupRotation v) (currentFace v) (lastTap v) false
              (Some face) (autoTimers v)
  else v.

(** The [click] handler of the container; [now] is [Date.now()]. *)
Definition containerClick (hasTemplate : Z -> bool) (now : R) (v : View)
  : View :=
  let v1 := if Math.ltb (now - lastTap v) 300 && (0 <=? currentFace v)%Z
            then showContent hasTemplate (currentFace v) v
            else v in
  mkView (isDragging v1) (previousMousePosition v1) (targetRotation v1)
         (currentRotation v1) (velocity v1) (autoRotate v1)
         (cubeGroupRotation v1) (currentFace v1) now (overlayHidden v1)
         (overlayContent v1) (autoTimers v1).

(** The close button, and a click on the overlay's backdrop. *)
Definition hideOverlay (v : View) : View :=
  mkView (isDragging v) (previousMousePosition v) (targetRotation v)
         (currentRotation v) (velocity v) (autoRotate v)
         (cubeGroupRotation v) (currentFace v) (lastTap v) true
         (overlayContent v) (autoTimers v).

(** What can happen on the page. *)
Inductive Event :=
| InitialShuffle
| NavClick (face : Z)
| SliceFrame
| RenderFrame
| PointerDown (clientX clientY : R)
| PointerMove (clientX clientY : R)
| PointerUp
| PointerLeave
| AutoRotateTimeout
| ContainerClick (now : R)
| CloseClick
| OverlayClick (onBackdrop : bool).

Definition step (random clock : nat -> R) (hasTemplate : Z -> bool)
    (p : Page) (e : Event) : Page :=
  match e with
  | InitialShuffle =>
      if shufflePending p
      then rubiksShuffle random clock 3 None
             (mkPage (scene p) (waiter p) (view p) false (randomReads p)
                     (clockReads p))
      else p
  | NavClick face => navigateToFace random clock face p
  | SliceFrame => sliceFrame random clock p
  | RenderFrame => withView (animate (view p)) p
  | PointerDown cx cy => withView (pointerDown cx cy (view p)) p
  | PointerMove cx cy => withView (pointerMove cx cy (view p)) p
  | PointerUp => withView (pointerUp (view p)) p
  | PointerLeave => withView (pointerLeave (view p)) p
  | AutoRotateTimeout => withView (autoRotateTimeout (view p)) p
  | ContainerClick now => withView (containerClick hasTemplate now (view p)) p
  | CloseClick => withView (hideOverlay (view p)) p
  | OverlayClick onBackdrop =>
      if onBackdrop then withView (hideOverlay (view p)) p else p
  end.

Definition run (random clock : nat -> R) (hasTemplate : Z -> bool)
    (p : Page) (es : list Event) : Page :=
  fold_left (step random clock hasTemplate) es p.

End PageB.

Module ReachB.
Import VariantB SpecB PageB.

(** A move [rubiksShuffle] can draw. *)
Definition validMove (m : Move) : Prop :=
  (0 <= index m <= 2)%Z ∧ (direction m = 1 ∨ direction m = -1)%Z.

(** Between two events the scene is at rest and no shuffle is suspended,
    or one slice of a rest state hangs under the rotation group, turned
    by a valid move, and the shuffle that made the move awaits it. *)
Definition reachable (p : Page) : Prop :=
  (atRest (scene p) ∧ waiter p = None) ∨
  (∃ s0 v a i dir t0 w,
     atRest s0 ∧ scene p = inflight v a i dir t0 s0 ∧
     validMove (mkMove a i dir) ∧ waiter p = Some w).

(** The overlay shows nothing, or the content of a face with a
    template. *)
Definition shown (hasTemplate : Z -> bool) (p : Page) : Prop :=
  ∀ f, overlayContent (view p) = Some f ->
       (0 <= f)%Z ∧ hasTemplate f = true.

(** Without a navigation no face is presented and no shuffle works for
    one. *)
Definition unvisited (p : Page) : Prop :=
  currentFace (view p) = (-1)%Z ∧ overlayContent (view p) = None ∧
  ∀ w, waiter p = Some w -> caller w = None.

End ReachB.

(** ** Variant A: the camera and the view *)

Module ViewA.
Import PageB.

(** [updateCameraForScreenSize()]: the new [camera.position.z]. *)
Definition updateCameraForScreenSize (innerWidth innerHeight : R) : R :=
  let aspect := innerWidth / innerHeight in
  let minDimension := Math.min innerWidth innerHeight in
  if Math.ltb aspect 1 then 6.5
  else if Math.ltb minDimension 500 then 4
  else 5.

(** [Math.pow(b, e)] for a positive base. *)
Definition powR (b e : R) : R := Rpower b e.

(** The drag state and the whole-cube rotation of [src/main.js]; a
    rotation is [None] once its components are no numbers any more. *)
Record View := mkView {
  isDragging : bool;
  previousMousePosition : XY;
  targetRotation : option XY;
  currentRotation : option XY;
  velocity : XY;
  lastTime : R;
  cubeGroupRotation : option XY }.

(** The [pointerdown] handler; it reads [isAnimating] and
    [introComplete]. *)
Definition pointerDown (isAnimating introComplete : bool)
    (clientX clientY : R) (v : View) : View :=
  if isAnimating || negb introComplete then v
  else mkView true (mkXY clientX clientY) (targetRotation v)
              (currentRotation v) (mkXY 0 0) (lastTime v)
              (cubeGroupRotation v).

(** The [pointermove] handler. *)
Definition pointerMove (clientX clientY : R) (v : View) : View :=
  if negb (isDragging v) then v
  else
    let deltaX := clientX - px (previousMousePosition v) in
    let deltaY := clientY - py (previousMousePosition v) in
    mkView (isDragging v) (mkXY clientX clientY)
           (addXY (deltaY * 0.005) (deltaX * 0.005) (targetRotation v))
           (currentRotation v) (mkXY (deltaY * 0.005) (deltaX * 0.005))
           (lastTime v) (cubeGroupRotation v).

(** The [pointerup] and [pointerleave] handlers. *)
Definition pointerUp (v : View) : View :=
  mkView false (previousMousePosition v) (targetRotation v)
         (currentRotation v) (velocity v) (lastTime v)
         (cubeGroupRotation v).

(** [animate()], the render loop, without its draw call; [now] is the
    value read from [performance.now()]. *)
Definition animate (now : R) (v : View) : View :=
  let deltaTime := Math.min ((now - lastTime v) / 1000) 0.1 in
  let lerpFactor := 1 - powR 0.001 deltaTime in
  let t1 := if negb (isDragging v)
            then addXY (px (velocity v)) (py (velocity v)) (targetRotation v)
            else targetRotation v in
  let vel := if negb (isDragging v)
             then let damping := powR 0.05 deltaTime in
                  mkXY (px (velocity v) * damping) (py (velocity v) * damping)
             else velocity v in
  let cur :=
    match t1, currentRotation v with
    | Some t, Some c =>
        Some (mkXY (px c + (px t - px c) * lerpFactor)
                   (py c + (py t - py c) * lerpFactor))
    | _, _ => None
    end in
  mkView (isDragging v) (previousMousePosition v) t1 cur vel now cur.

(** Frames that follow each other by at most 100 ms, the first one
    following [last]. *)
Fixpoint steady (last : R) (frames : list R) : Prop :=
  match frames with
  | [] => True
  | now :: rest => 0 <= now - last <= 100 ∧ steady now rest
  end.

End ViewA.

(** ** Variant A: the intro animation *)

Module IntroA.
Import VariantA.

(** [Vector3.lerpVectors(v1, v2, alpha)] *)
Definition lerpVectors (v1 v2 : Vector3) (alpha : R) : Vector3 :=
  mkVector3 (vx v1 + (vx v2 - vx v1) * alpha)
            (vy v1 + (vy v2 - vy v1) * alpha)
            (vz v1 + (vz v2 - vz v1) * alpha).

(** A sub-cube during the intro, with what [playIntroAnimation] stores
    in its [userData]. *)
Record Scattered := mkScattered {
  cube : Cube;
  targetPos : Vector3;
  targetRot : Quaternion;
  startPos : Vector3;
  startRot : Quaternion;
  delay : R }.

Record Intro := mkIntro {
  cubes : list Scattered;
  start : R;
  introComplete : bool;
  materialPreset : option Z }.

Definition duration : R := 2000.
Definition staggerDelay : R := 50.
Definition spread : R := 8.

(** The body of the first loop of [playIntroAnimation] for the sub-cube
    of index [i]; [random] gives the values of the successive
    [Math.random()] calls, six per sub-cube. *)
Definition scatter (random : nat -> R) (i : nat) (c : Cube) : Scattered :=
  let k := (6 * i)%nat in
  let p := mkVector3 ((random k - 0.5) * spread * 2)
                     ((random (k + 1)%nat - 0.5) * spread * 2)
                     ((random (k + 2)%nat - 0.5) * spread - 5) in
  let q := setFromEuler
             (mkEuler (random (k + 3)%nat * Math.PI * 2)
                      (random (k + 4)%nat * Math.PI * 2)
                      (random (k + 5)%nat * Math.PI * 2)) in
  mkScattered (mkCube (userData c) p q (dots c))
              (position c) (quaternion c) p q (INR i * staggerDelay).

(** [playIntroAnimation()] up to its [requestAnimationFrame]; [now] is
    the value read from [performance.now()]. *)
Definition playIntroAnimation (random : nat -> R) (now : R)
    (smallCubes : list Cube) (preset : option Z) : Intro :=
  mkIntro (imap (scatter random) smallCubes) now false preset.

Section Library.

(** [Quaternion.slerpQuaternions(qa, qb, t)] of the rendering library. *)
Variable slerpQuaternions : Quaternion -> Quaternion -> R -> Quaternion.

(** The body of the loop of [animateIntro] for one sub-cube: the
    sub-cube after the frame, and whether it leaves [allDone] alone. *)
Definition animateCube (elapsed : R) (sc : Scattered) : Scattered * bool :=
  let cubeElapsed := elapsed - delay sc in
  if Math.ltb cubeElapsed 0 then (sc, false)
  else
    let progress := Math.min (cubeElapsed / duration) 1 in
    let eased := if Req_dec_T progress 1 then 1
                 else 1 - Rpower 2 (-10 * progress) in
    (mkScattered
       (mkCube (userData (cube sc))
               (lerpVectors (startPos sc) (targetPos sc) eased)
               (slerpQuaternions (startRot sc) (targetRot sc) eased)
               (dots (cube sc)))
       (targetPos sc) (targetRot sc) (startPos sc) (startRot sc) (delay sc),
     negb (Math.ltb progress 1)).

(** [animateIntro()], a frame of the intro; no frame is requested once
    the intro is complete. *)
Definition animateIntro (now : R) (st : Intro) : Intro :=
  if introComplete st then st
  else
    let elapsed := now - start st in
    let results := animateCube elapsed <$> cubes st in
    if forallb snd results
    then mkIntro (fst <$> results) (start st) true (Some (-1)%Z)
    else mkIntro (fst <$> results) (start st) false (materialPreset st).

End Library.

(** The sub-cubes as the rest of the page sees them. *)
Definition smallCubes (st : Intro) : list Cube := cube <$> cubes st.

(** What a frame never touches: the stored poses, the delay, the grid
    coordinate and the dots. *)
Definition sameIntro (sc sc0 : Scattered) : Prop :=
  targetPos sc = targetPos sc0 ∧ targetRot sc = targetRot sc0 ∧
  startPos sc = startPos sc0 ∧ startRot sc = startRot sc0 ∧
  delay sc = delay sc0 ∧
  userData (cube sc) = userData (cube sc0) ∧
  dots (cube sc) = dots (cube sc0).

(** What holds of the intro from [playIntroAnimation] on. *)
Definition inIntro (random : nat -> R) (t0 : R) (cubes0 : list Cube)
    (st : Intro) : Prop :=
  start st = t0 ∧ length (cubes st) = length cubes0 ∧
  (∀ i sc c, cubes st !! i = Some sc -> cubes0 !! i = Some c ->
             sameIntro sc (scatter random i c)) ∧
  (introComplete st = true ->
   smallCubes st = cubes0 ∧ materialPreset st = Some (-1)%Z).

End IntroA.

(** ** The beveled box of both variants *)

Module Geometry.

(** The four arrays [createBeveledBox] fills, and its vertex counter.
    [vertices] and [normals] hold three numbers per vertex, [uvs] two,
    [indices] three vertex numbers per triangle. *)
Record Buffers := mkBuffers {
  vertices : list R;
  indices : list nat;
  normals : list R;
  uvs : list R;
  vertexIndex : nat }.

Definition emptyBuffers : Buffers := mkBuffers [] [] [] [] 0.

(** [addQuad(v0, v1, v2, v3, normal)] *)
Definition addQuad (v0 v1 v2 v3 normal : list R) (g : Buffers) : Buffers :=
  let startIndex := vertexIndex g in
  mkBuffers
    (vertices g ++ v0 ++ v1 ++ v2 ++ v3)
    (indices g ++ [startIndex; startIndex + 1; startIndex + 2]%nat
               ++ [startIndex; startIndex + 2; startIndex + 3]%nat)
    (normals g ++ normal ++ normal ++ normal ++ normal)
    (uvs g ++ [0; 0; 1; 0; 1; 1; 0; 1])
    (vertexIndex g + 4).

(** [addTriangle(v0, v1, v2, normal)] *)
Definition addTriangle (v0 v1 v2 normal : list R) (g : Buffers) : Buffers :=
  let startIndex := vertexIndex g in
  mkBuffers
    (vertices g ++ v0 ++ v1 ++ v2)
    (indices g ++ [startIndex; startIndex + 1; startIndex + 2]%nat)
    (normals g ++ normal ++ normal ++ normal)
    (uvs g ++ [0; 0; 1; 0; 0.5; 1])
    (vertexIndex g + 3).

(** [Math.SQRT1_2] *)
Definition SQRT1_2 : R := sqrt (1 / 2).

(** [createBeveledBox(width, height, depth, bevel)]: the position,
    normal and uv attributes and the index of the geometry it returns. *)
Definition createBeveledBox (width height depth bevel : R) : Buffers :=
  let hw := width / 2 in
  let hh := height / 2 in
  let hd := depth / 2 in
  let b := bevel in
  let g := emptyBuffers in
  let bevelNorm := SQRT1_2 in
  let cornerNorm := 1 / sqrt 3 in
  (* Front (+Z) *)
  let g := addQuad [- hw + b; - hh + b; hd] [hw - b; - hh + b; hd]
                   [hw - b; hh - b; hd] [- hw + b; hh - b; hd]
                   [0; 0; 1] g in
  (* Back (-Z) *)
  let g := addQuad [hw - b; - hh + b; - hd] [- hw + b; - hh + b; - hd]
                   [- hw + b; hh - b; - hd] [hw - b; hh - b; - hd]
                   [0; 0; - 1] g in
  (* Right (+X) *)
  let g := addQuad [hw; - hh + b; hd - b] [hw; - hh + b; - hd + b]
                   [hw; hh - b; - hd + b] [hw; hh - b; hd - b]
                   [1; 0; 0] g in
  (* Left (-X) *)
  let g := addQuad [- hw; - hh + b; - hd + b] [- hw; - hh + b; hd - b]
                   [- hw; hh - b; hd - b] [- hw; hh - b; - hd + b]
                   [- 1; 0; 0] g in
  (* Top (+Y) *)
  let g := addQuad [- hw + b; hh; hd - b] [hw - b; hh; hd - b]
                   [hw - b; hh; - hd + b] [- hw + b; hh; - hd + b]
                   [0; 1; 0] g in
  (* Bottom (-Y) *)
  let g := addQuad [- hw + b; - hh; - hd + b] [hw - b; - hh; - hd + b]
                   [hw - b; - hh; hd - b] [- hw + b; - hh; hd - b]
                   [0; - 1; 0] g in
  (* Front top edge *)
  let g := addQuad [- hw + b; hh - b; hd] [hw - b; hh - b; hd]
                   [hw - b; hh; hd - b] [- hw + b; hh; hd - b]
                   [0; bevelNorm; bevelNorm] g in
  (* Front bottom edge *)
  let g := addQuad [- hw + b; - hh; hd - b] [hw - b; - hh; hd - b]
                   [hw - b; - hh + b; hd] [- hw + b; - hh + b; hd]
                   [0; - bevelNorm; bevelNorm] g in
  (* Front left edge *)
  let g := addQuad [- hw; - hh + b; hd - b] [- hw; hh - b; hd - b]
                   [- hw + b; hh - b; hd] [- hw + b; - hh + b; hd]
                   [- bevelNorm; 0; bevelNorm] g in
  (* Front right edge *)
  let g := addQuad [hw - b; - hh + b; hd] [hw - b; hh - b; hd]
                   [hw; hh - b; hd - b] [hw; - hh + b; hd - b]
                   [bevelNorm; 0; bevelNorm] g in
  (* Back top edge *)
  let g := addQuad [hw - b; hh - b; - hd] [- hw + b; hh - b; - hd]
                   [- hw + b; hh; - hd + b] [hw - b; hh; - hd + b]
                   [0; bevelNorm; - bevelNorm] g in
  (* Back bottom edge *)
  let g := addQuad [hw - b; - hh; - hd + b] [- hw + b; - hh; - hd + b]
                   [- hw + b; - hh + b; - hd] [hw - b; - hh + b; - hd]
                   [0; - bevelNorm; - bevelNorm] g in
  (* Back left edge *)
  let g := addQuad [- hw + b; - hh + b; - hd] [- hw + b; hh - b; - hd]
                   [- hw; hh - b; - hd + b] [- hw; - hh + b; - hd + b]
                   [- bevelNorm; 0; - bevelNorm] g in
  (* Back right edge *)
  let g := addQuad [hw; - hh + b; - hd + b] [hw; hh - b; - hd + b]
                   [hw - b; hh - b; - hd] [hw - b; - hh + b; - hd]
                   [bevelNorm; 0; - bevelNorm] g in
  (* Top left edge *)
  let g := addQuad [- hw; hh - b; - hd + b] [- hw; hh - b; hd - b]
                   [- hw + b; hh; hd - b] [- hw + b; hh; - hd + b]
                   [- bevelNorm; bevelNorm; 0] g in
  (* Top right edge *)
  let g := addQuad [hw - b; hh; - hd + b] [hw - b; hh; hd - b]
                   [hw; hh - b; hd - b] [hw; hh - b; - hd + b]
                   [bevelNorm; bevelNorm; 0] g in
  (* Bottom left edge *)
  let g := addQuad [- hw + b; - hh; - hd + b] [- hw + b; - hh; hd - b]
                   [- hw; - hh + b; hd - b] [- hw; - hh + b; - hd + b]
                   [- bevelNorm; - bevelNorm; 0] g in
  (* Bottom right edge *)
  let g := addQuad [hw; - hh + b; - hd + b] [hw; - hh + b; hd - b]
                   [hw - b; - hh; hd - b] [hw - b; - hh; - hd + b]
                   [bevelNorm; - bevelNorm; 0] g in
  (* Front top right *)
  let g := addTriangle [hw - b; hh - b; hd] [hw; hh - b; hd - b]
                       [hw - b; hh; hd - b]
                       [cornerNorm; cornerNorm; cornerNorm] g in
  (* Front top left *)
  let g := addTriangle [- hw + b; hh; hd - b] [- hw; hh - b; hd - b]
                       [- hw + b; hh - b; hd]
                       [- cornerNorm; cornerNorm; cornerNorm] g in
  (* Front bottom right *)
  let g := addTriangle [hw - b; - hh; hd - b] [hw; - hh + b; hd - b]
                       [hw - b; - hh + b; hd]
                       [cornerNorm; - cornerNorm; cornerNorm] g in
  (* Front bottom left *)
  let g := addTriangle [- hw + b; - hh + b; hd] [- hw; - hh + b; hd - b]
                       [- hw + b; - hh; hd - b]
                       [- cornerNorm; - cornerNorm; cornerNorm] g in
  (* Back top right *)
  let g := addTriangle [hw - b; hh; - hd + b] [hw; hh - b; - hd + b]
                       [hw - b; hh - b; - hd]
                       [cornerNorm; cornerNorm; - cornerNorm] g in
  (* Back top left *)
  let g := addTriangle [- hw + b; hh - b; - hd] [- hw; hh - b; - hd + b]
                       [- hw + b; hh; - hd + b]
                       [- cornerNorm; cornerNorm; - cornerNorm] g in
  (* Back bottom right *)
  let g := addTriangle [hw - b; - hh + b; - hd] [hw; - hh + b; - hd + b]
                       [hw - b; - hh; - hd + b]
                       [cornerNorm; - cornerNorm; - cornerNorm] g in
  (* Back bottom left *)
  let g := addTriangle [- hw + b; - hh; - hd + b] [- hw; - hh + b; - hd + b]
                       [- hw + b; - hh + b; - hd]
                       [- cornerNorm; - cornerNorm; - cornerNorm] g in
  g.

(** The [k]-th item of an attribute of item size 3. *)
Definition item3 (l : list R) (k : nat) : option Vector3 :=
  match l !! (3 * k)%nat, l !! (3 * k + 1)%nat, l !! (3 * k + 2)%nat with
  | Some a, Some b, Some c => Some (mkVector3 a b c)
  | _, _, _ => None
  end.

(** A triangle of the index: its three corners and the normal stored
    for each of them. *)
Record Triangle := mkTriangle {
  corner0 : Vector3; corner1 : Vector3; corner2 : Vector3;
  normal0 : Vector3; normal1 : Vector3; normal2 : Vector3 }.

Definition triangle (g : Buffers) (t : nat) : option Triangle :=
  match indices g !! (3 * t)%nat, indices g !! (3 * t + 1)%nat,
        indices g !! (3 * t + 2)%nat with
  | Some i, Some j, Some k =>
      match item3 (vertices g) i, item3 (vertices g) j,
            item3 (vertices g) k, item3 (normals g) i,
            item3 (normals g) j, item3 (normals g) k with
      | Some a, Some b, Some c, Some na, Some nb, Some nc =>
          Some (mkTriangle a b c na nb nc)
      | _, _, _, _, _, _ => None
      end
  | _, _, _ => None
  end.

Definition sub (a b : Vector3) : Vector3 :=
  mkVector3 (vx a - vx b) (vy a - vy b) (vz a - vz b).

Definition cross (a b : Vector3) : Vector3 :=
  mkVector3 (vy a * vz b - vz a * vy b) (vz a * vx b - vx a * vz b)
            (vx a * vy b - vy a * vx b).

Definition dot (a b : Vector3) : R :=
  vx a * vx b + vy a * vy b + vz a * vz b.

(** The normal of the plane of a triangle by the right-hand rule, of
    length twice its area. *)
Definition faceNormal (t : Triangle) : Vector3 :=
  cross (sub (corner1 t) (corner0 t)) (sub (corner2 t) (corner0 t)).

(** The triangles of the index, in order, each with its number. *)
Definition triangles (g : Buffers) : list (nat * Triangle) :=
  omap (fun t => pair t <$> triangle g t)
       (seq 0 (length (indices g) `div` 3)).

(** The vertices of the position attribute, in order. *)
Definition points (g : Buffers) : list Vector3 :=
  omap (item3 (vertices g)) (seq 0 (length (vertices g) `div` 3)).

(** The normals of the normal attribute, in order. *)
Definition vertexNormals (g : Buffers) : list Vector3 :=
  omap (item3 (normals g)) (seq 0 (length (normals g) `div` 3)).

(** The triangles of the bevels along the four edges parallel to the y
    axis: front left, front right, back left, back right. *)
Definition uprightBevels : list nat := [16; 17; 18; 19; 24; 25; 26; 27]%nat.

Definition upright (t : nat) : bool := existsb (Nat.eqb t) uprightBevels.

(** A point on the surface of the box of half sizes [hw], [hh], [hd]. *)
Definition onBox (hw hh hd : R) (p : Vector3) : Prop :=
  - hw <= vx p <= hw ∧ - hh <= vy p <= hh ∧ - hd <= vz p <= hd ∧
  (vx p = hw ∨ vx p = - hw ∨ vy p = hh ∨ vy p = - hh ∨
   vz p = hd ∨ vz p = - hd).

(** A triangle whose stored normals are one vector [n], at right angles
    to its plane, wound counter-clockwise ([ccw = true]) or clockwise
    around [n]. *)
Definition wound (ccw : bool) (t : Triangle) : Prop :=
  normal1 t = normal0 t ∧ normal2 t = normal0 t ∧
  cross (faceNormal t) (normal0 t) = mkVector3 0 0 0 ∧
  if ccw then 0 < dot (faceNormal t) (normal0 t)
  else dot (faceNormal t) (normal0 t) < 0.

End Geometry.

(** ** The rotations of a cube *)

Module CubeRotation.

Definition det (m : THREE.Matrix3) : R :=
  m11 m * (m22 m * m33 m - m23 m * m32 m)
  - m12 m * (m21 m * m33 m - m23 m * m31 m)
  + m13 m * (m21 m * m32 m - m22 m * m31 m).

(** A rotation matrix that maps the coordinate axes onto coordinate
    axes: every entry is 0, 1 or -1, every row and every column holds
    exactly one entry that is not 0, and the determinant is 1. *)
Definition isCubeRotation (m : THREE.Matrix3) : Prop :=
  Forall (fun e => e = -1 ∨ e = 0 ∨ e = 1)
         [m11 m; m12 m; m13 m; m21 m; m22 m; m23 m; m31 m; m32 m; m33 m] ∧
  m11 m * m11 m + m12 m * m12 m + m13 m * m13 m = 1 ∧
  m21 m * m21 m + m22 m * m22 m + m23 m * m23 m = 1 ∧
  m31 m * m31 m + m32 m * m32 m + m33 m * m33 m = 1 ∧
  m11 m * m11 m + m21 m * m21 m + m31 m * m31 m = 1 ∧
  m12 m * m12 m + m22 m * m22 m + m32 m * m32 m = 1 ∧
  m13 m * m13 m + m23 m * m23 m + m33 m * m33 m = 1 ∧
  det m = 1.

Definition isUnit (q : THREE.Quaternion) : Prop :=
  qx q * qx q + qy q * qy q + qz q * qz q + qw q * qw q = 1.

(** The same test on the integer entries of an exact matrix. *)
Definition isCubeRotationZ (a b c d e f g h i : Z) : bool :=
  (forallb (fun v => (-1 <=? v) && (v <=? 1)) [a; b; c; d; e; f; g; h; i] &&
   (a * a + b * b + c * c =? 1) && (d * d + e * e + f * f =? 1) &&
   (g * g + h * h + i * i =? 1) && (a * a + d * d + g * g =? 1) &&
   (b * b + e * e + h * h =? 1) && (c * c + f * f + i * i =? 1) &&
   (a * (e * i - f * h) - b * (d * i - f * g) + c * (d * h - e * g) =? 1))%Z.

Definition checkMatrix (m : Exact.Matrix3) : bool :=
  match Exact.toZ (Exact.m11 m), Exact.toZ (Exact.m12 m),
        Exact.toZ (Exact.m13 m), Exact.toZ (Exact.m21 m),
        Exact.toZ (Exact.m22 m), Exact.toZ (Exact.m23 m),
        Exact.toZ (Exact.m31 m), Exact.toZ (Exact.m32 m),
        Exact.toZ (Exact.m33 m) with
  | Some a, Some b, Some c, Some d, Some e, Some f, Some g, Some h, Some i =>
      isCubeRotationZ a b c d e f g h i
  | _, _, _, _, _, _, _, _, _ => false
  end.

Definition checkUnit (q : Exact.Quaternion) : bool :=
  Exact.eqb
    (Exact.add (Exact.add (Exact.add (Exact.mul (Exact.qx q) (Exact.qx q))
                                     (Exact.mul (Exact.qy q) (Exact.qy q)))
                          (Exact.mul (Exact.qz q) (Exact.qz q)))
               (Exact.mul (Exact.qw q) (Exact.qw q)))
    (Exact.ofZ 1).

End CubeRotation.

(** ** A drag gesture

    What reaches the page between a [pointerdown] and the [pointerup]
    that follows it: [pointermove] events and render frames, in any
    order. *)
Module Gesture.
Import PageB.

Inductive Input :=
  | Move (clientX clientY : R)
  | Frame (now : R).

(** Variant A's handler of an input. *)
Definition inputA (v : ViewA.View) (i : Input) : ViewA.View :=
  match i with
  | Move x y => ViewA.pointerMove x y v
  | Frame now => ViewA.animate now v
  end.

(** Variant B's handler of an input; its render loop reads no clock. *)
Definition inputB (v : PageB.View) (i : Input) : PageB.View :=
  match i with
  | Move x y => PageB.pointerMove x y v
  | Frame _ => PageB.animate v
  end.

(** Where the pointer is after the inputs, having been at [p]. *)
Definition pointer (p : XY) (inputs : list Input) : XY :=
  fold_left (fun p i => match i with
                        | Move x y => mkXY x y
                        | Frame _ => p
                        end) inputs p.

(** The rotation target [t] dragged from [p0] to [p]: 0.005 radians for
    each pixel, the vertical way about x and the horizontal way about
    y. *)
Definition dragged (t p0 p : XY) : XY :=
  mkXY (px t + (py p - py p0) * 0.005) (py t + (px p - px p0) * 0.005).

End Gesture.

(** ** The page of variant A, intro included

    [VariantA.step] takes the end of the intro as one event.  Here the
    intro runs as the page runs it: [playIntroAnimation] is called by a
    timer set at load and scatters the sub-cubes, and [animateIntro] moves
    them frame by frame; the frame that completes the intro is the
    [IntroDone] of [VariantA.step]. *)

Module PageA.
Import VariantA.

(** The cube, and the intro once [playIntroAnimation] has been called. *)
Record Page := mkPage {
  state : State;
  intro : option IntroA.Intro }.

Definition initialPage : Page := mkPage initialState None.

(** What can happen on the page. *)
Inductive Event :=
| IntroStart (now : R)
| IntroFrame (now : R)
| Click (face : Z) (t0 t1 : R)
| Frame (now : R)
| Timeout
| Render (rx ry : R).

Section Library.

Variable slerpQuaternions : Quaternion -> Quaternion -> R -> Quaternion.
Variable random : nat -> R.

Definition step (p : Page) (e : Event) : Page :=
  match e with
  | IntroStart now =>
      (* [setTimeout(playIntroAnimation, 100)]: the timer fires once *)
      match intro p with
      | Some _ => p
      | None =>
          let st := IntroA.playIntroAnimation random now
                      (smallCubes (state p))
                      (materialPreset (display (state p))) in
          mkPage (withCubes (IntroA.smallCubes st) (state p)) (Some st)
      end
  | IntroFrame now =>
      (* [animateIntro] requests a frame only while it is not done *)
      match intro p with
      | None => p
      | Some st =>
          if IntroA.introComplete st then p
          else
            let st' := IntroA.animateIntro slerpQuaternions now st in
            let s := withCubes (IntroA.smallCubes st') (state p) in
            mkPage (if IntroA.introComplete st'
                    then VariantA.step s IntroDone else s)
                   (Some st')
      end
  | Click face t0 t1 =>
      mkPage (VariantA.step (state p) (VariantA.Click face t0 t1)) (intro p)
  | Frame now =>
      mkPage (VariantA.step (state p) (VariantA.Frame now)) (intro p)
  | Timeout =>
      mkPage (VariantA.step (state p) VariantA.Timeout) (intro p)
  | Render rx ry =>
      mkPage (VariantA.step (state p) (VariantA.Render rx ry)) (intro p)
  end.

Definition run (p : Page) (es : list Event) : Page := fold_left step es p.

(** The pages that can be reached.  Until the intro has completed no
    rotation has started, and the sub-cubes are those built, scattered
    by the intro if it has started; from then on the cube is in one of
    the states [ReachA.reachable] describes. *)
Definition reachable (p : Page) : Prop :=
  let s := state p in
  if introComplete s
  then ReachA.reachable s ∧
       ∃ st, intro p = Some st ∧ IntroA.introComplete st = true
  else isAnimating s = false ∧ animation s = None ∧
       match intro p with
       | None => smallCubes s = buildCubes
       | Some st =>
           (∃ t0, IntroA.inIntro random t0 buildCubes st) ∧
           IntroA.introComplete st = false ∧
           smallCubes s = IntroA.smallCubes st
       end.

End Library.

End PageA.

(** * Properties *)

(** * Lemmas *)

(** ** Numbers *)

Lemma spacing_value : SEGMENT_SIZE + GAP = 101 / 150.
Proof. unfold SEGMENT_SIZE, GAP, CUBE_SIZE, SEGMENTS. lra. Qed.

Lemma spacing_pos : 0 < SEGMENT_SIZE + GAP.
Proof. rewrite spacing_value. lra. Qed.

Lemma round_IZR (n : Z) : Math.round (IZR n) = n.
Proof. unfold Math.round. apply Zfloor_eq. lra. Qed.

Lemma round_slot (n : Z) (p : R) :
  p = (IZR n - 1) * (SEGMENT_SIZE + GAP) ->
  Math.round (p / (SEGMENT_SIZE + GAP) + 1) = n.
Proof.
  intros ->. pose proof spacing_pos.
  replace ((IZR n - 1) * (SEGMENT_SIZE + GAP) / (SEGMENT_SIZE + GAP) + 1)
    with (IZR n) by (field; lra).
  apply round_IZR.
Qed.


Lemma sqrt2_sq : sqrt 2 * sqrt 2 = 2.
Proof. apply sqrt_sqrt. lra. Qed.

Lemma sqrt2_pos : 0 < sqrt 2.
Proof. apply sqrt_lt_R0. lra. Qed.

Lemma inv_sqrt2 : 1 / sqrt 2 = sqrt 2 / 2.
Proof.
  pose proof sqrt2_pos. pose proof sqrt2_sq.
  apply (Rmult_eq_reg_l (sqrt 2)); [|lra].
  field_simplify; [|lra]. nra.
Qed.

Lemma sin_quarter : sin (PI / 4) = sqrt 2 / 2.
Proof. rewrite sin_PI4. apply inv_sqrt2. Qed.

Lemma cos_quarter : cos (PI / 4) = sqrt 2 / 2.
Proof. rewrite cos_PI4. apply inv_sqrt2. Qed.


(** [Exact.toR] is a ring homomorphism. *)
Lemma toR_ofZ (n : Z) : Exact.toR (Exact.ofZ n) = IZR n.
Proof. unfold Exact.toR, Exact.ofZ, Q2R. cbn. lra. Qed.

Lemma toR_add a b : Exact.toR (Exact.add a b) = Exact.toR a + Exact.toR b.
Proof.
  unfold Exact.toR, Exact.add. cbn.
  rewrite !(Qeq_eqR _ _ (Qred_correct _)), !Q2R_plus. lra.
Qed.

Lemma toR_sub a b : Exact.toR (Exact.sub a b) = Exact.toR a - Exact.toR b.
Proof.
  unfold Exact.toR, Exact.sub. cbn.
  rewrite !(Qeq_eqR _ _ (Qred_correct _)), !Q2R_minus. lra.
Qed.

Lemma toR_opp a : Exact.toR (Exact.opp a) = - Exact.toR a.
Proof. unfold Exact.toR, Exact.opp. cbn. rewrite !Q2R_opp. lra. Qed.

Lemma toR_mul a b : Exact.toR (Exact.mul a b) = Exact.toR a * Exact.toR b.
Proof.
  unfold Exact.toR, Exact.mul. cbn.
  rewrite !(Qeq_eqR _ _ (Qred_correct _)), !Q2R_plus, !Q2R_mult.
  replace (Q2R 2) with 2 by (unfold Q2R; cbn; lra).
  generalize (Q2R (Exact.rat a)) (Q2R (Exact.irr a))
             (Q2R (Exact.rat b)) (Q2R (Exact.irr b)).
  intros ra ia rb ib.
  transitivity (ra * rb + ia * ib * (sqrt 2 * sqrt 2)
                + (ra * ib + ia * rb) * sqrt 2); [|ring].
  rewrite sqrt2_sq. ring.
Qed.

Lemma toR_half : Exact.toR Exact.half = sqrt 2 / 2.
Proof. unfold Exact.toR, Exact.half, Q2R. cbn. lra. Qed.

Lemma toR_eqb a b : Exact.eqb a b = true -> Exact.toR a = Exact.toR b.
Proof.
  unfold Exact.eqb. intros [H1 H2]%andb_prop.
  apply Qeq_bool_eq in H1, H2. unfold Exact.toR.
  by rewrite (Qeq_eqR _ _ H1), (Qeq_eqR _ _ H2).
Qed.

Lemma Q2R_inject_Z (n : Z) : Q2R (inject_Z n) = IZR n.
Proof. unfold Q2R, inject_Z. cbn [Qnum Qden]. lra. Qed.

Lemma toR_toZ a n : Exact.toZ a = Some n -> Exact.toR a = IZR n.
Proof.
  unfold Exact.toZ.
  generalize (Qnum (Exact.rat a) / Z.pos (Qden (Exact.rat a)))%Z. intros m.
  destruct (_ && _) eqn:E; [|done].
  intros [= <-]. apply andb_prop in E as [H1 H2].
  apply Qeq_bool_eq in H1, H2. unfold Exact.toR.
  rewrite (Qeq_eqR _ _ H1), (Qeq_eqR _ _ H2), Q2R_inject_Z.
  replace (Q2R 0) with 0 by (unfold Q2R; cbn; lra). lra.
Qed.

Create Rewrite HintDb toR.
#[local] Hint Rewrite toR_ofZ toR_add toR_sub toR_opp toR_mul toR_half : toR.

(** [sin] and [cos] of [k * PI / 4], as the half angle of [k] quarter turns. *)
Lemma cos_half_quarter (k : Z) :
  (-2 <= k <= 2)%Z ->
  cos (IZR k * (Math.PI / 2) / 2) = Exact.toR (Exact.cosQuarter k).
Proof.
  intros Hk. unfold Math.PI.
  assert (k = -2 \/ k = -1 \/ k = 0 \/ k = 1 \/ k = 2)%Z as Hc by lia.
  destruct Hc as [-> | [-> | [-> | [-> | ->]]]];
    unfold Exact.cosQuarter; autorewrite with toR.
  - replace (-2 * (PI / 2) / 2) with (- (PI / 2)) by field.
    rewrite cos_neg, cos_PI2. lra.
  - replace (-1 * (PI / 2) / 2) with (- (PI / 4)) by field.
    rewrite cos_neg, cos_quarter. lra.
  - replace (0 * (PI / 2) / 2) with 0 by field. rewrite cos_0. lra.
  - replace (1 * (PI / 2) / 2) with (PI / 4) by field.
    rewrite cos_quarter. lra.
  - replace (2 * (PI / 2) / 2) with (PI / 2) by field.
    rewrite cos_PI2. lra.
Qed.

Lemma sin_half_quarter (k : Z) :
  (-2 <= k <= 2)%Z ->
  sin (IZR k * (Math.PI / 2) / 2) = Exact.toR (Exact.sinQuarter k).
Proof.
  intros Hk. unfold Math.PI.
  assert (k = -2 \/ k = -1 \/ k = 0 \/ k = 1 \/ k = 2)%Z as Hc by lia.
  destruct Hc as [-> | [-> | [-> | [-> | ->]]]];
    unfold Exact.sinQuarter; autorewrite with toR.
  - replace (-2 * (PI / 2) / 2) with (- (PI / 2)) by field.
    rewrite sin_neg, sin_PI2. lra.
  - replace (-1 * (PI / 2) / 2) with (- (PI / 4)) by field.
    rewrite sin_neg, sin_quarter. lra.
  - replace (0 * (PI / 2) / 2) with 0 by field. rewrite sin_0. lra.
  - replace (1 * (PI / 2) / 2) with (PI / 4) by field.
    rewrite sin_quarter. lra.
  - replace (2 * (PI / 2) / 2) with (PI / 2) by field.
    rewrite sin_PI2. lra.
Qed.

(** The exact formulas agree with the library's. *)
Lemma toQuaternion_multiply p q :
  Exact.toQuaternion (Exact.multiply p q) =
  multiply (Exact.toQuaternion p) (Exact.toQuaternion q).
Proof.
  unfold Exact.toQuaternion, Exact.multiply, multiply. cbn.
  by autorewrite with toR.
Qed.

Lemma toMatrix3_makeRotation q :
  Exact.toMatrix3 (Exact.makeRotationFromQuaternion q) =
  makeRotationFromQuaternion (Exact.toQuaternion q).
Proof.
  unfold Exact.toMatrix3, Exact.makeRotationFromQuaternion,
    makeRotationFromQuaternion, Exact.toQuaternion. cbn.
  by autorewrite with toR.
Qed.

Lemma toQuaternion_setFromEuler kx ky kz :
  (-2 <= kx <= 2)%Z -> (-2 <= ky <= 2)%Z -> (-2 <= kz <= 2)%Z ->
  Exact.toQuaternion (Exact.setFromEuler (kx, ky, kz)) =
  setFromEuler (quarterAngles kx ky kz).
Proof.
  intros Hx Hy Hz.
  unfold Exact.toQuaternion, Exact.setFromEuler, setFromEuler, quarterAngles.
  cbn. autorewrite with toR.
  by rewrite !cos_half_quarter, !sin_half_quarter.
Qed.

Lemma toQuaternion_negate q :
  Exact.toQuaternion (Exact.negate q) = negateQuaternion (Exact.toQuaternion q).
Proof.
  unfold Exact.toQuaternion, Exact.negate, negateQuaternion. cbn.
  by autorewrite with toR.
Qed.

Lemma PI2_pos : 0 < Math.PI / 2.
Proof. unfold Math.PI. pose proof PI_RGT_0. lra. Qed.

Lemma atan2_axis (y x k : Z) :
  Exact.atan2 y x = Some k ->
  Math.atan2 (IZR y) (IZR x) = IZR k * (Math.PI / 2).
Proof.
  unfold Exact.atan2, Math.atan2, Math.PI.
  destruct y as [|[]|[]], x as [|[]|[]]; intros [= <-];
    repeat (destruct (Rlt_dec _ _) as [?|?] || destruct (Rle_dec _ _) as [?|?]);
    try lra.
  - replace (0 / 1) with 0 by field. rewrite atan_0. lra.
  - replace (0 / -1) with 0 by field. rewrite atan_0. lra.
Qed.

Lemma asin_axis (a : Z) :
  (-1 <= a <= 1)%Z ->
  asin (Math.clamp (IZR a) (-1) 1) = IZR a * (Math.PI / 2).
Proof.
  intros Ha. unfold Math.clamp, Math.PI.
  assert (a = -1 \/ a = 0 \/ a = 1)%Z as [-> | [-> | ->]] by lia.
  - rewrite Rmin_right, Rmax_left by lra.
    replace (IZR (-1)) with (Ropp 1) by lra.
    rewrite asin_opp, asin_1. lra.
  - rewrite Rmin_right, Rmax_right by lra. rewrite asin_0. lra.
  - rewrite Rmin_left, Rmax_right by lra. rewrite asin_1. lra.
Qed.

Lemma gimbal_test (a : Z) :
  (-1 <= a <= 1)%Z ->
  Math.ltb (Math.abs (IZR a)) 0.9999999 = (a =? 0)%Z.
Proof.
  intros Ha. unfold Math.ltb, Math.abs.
  assert (a = -1 \/ a = 0 \/ a = 1)%Z as [-> | [-> | ->]] by lia; cbn.
  - rewrite Rabs_left by lra. destruct (Rlt_dec _ _); [lra|done].
  - rewrite Rabs_R0. destruct (Rlt_dec _ _); [done|lra].
  - rewrite Rabs_right by lra. destruct (Rlt_dec _ _); [lra|done].
Qed.

Lemma atan2_range (y x k : Z) : Exact.atan2 y x = Some k -> (-2 <= k <= 2)%Z.
Proof.
  unfold Exact.atan2.
  destruct y as [|[]|[]], x as [|[]|[]]; intros [= <-]; lia.
Qed.

Lemma setFromRotationMatrix_exact m kx ky kz :
  Exact.setFromRotationMatrix m = Some (kx, ky, kz) ->
  setFromRotationMatrix (Exact.toMatrix3 m) = quarterAngles kx ky kz
  ∧ (-2 <= kx <= 2)%Z ∧ (-2 <= ky <= 2)%Z ∧ (-2 <= kz <= 2)%Z.
Proof.
  unfold Exact.setFromRotationMatrix, setFromRotationMatrix, quarterAngles.
  intros H. cbn [Exact.toMatrix3 m11 m12 m13 m21 m22 m23 m31 m32 m33].
  destruct (Exact.toZ (Exact.m13 m)) as [a13|] eqn:E13; [|done].
  cbn in H. rewrite (toR_toZ _ _ E13).
  destruct (Z.eqb_spec a13 0) as [->|Hne].
  - rewrite gimbal_test by lia. rewrite asin_axis by lia. cbn.
    destruct (Exact.toZ (Exact.m23 m)) as [a23|] eqn:E23; [|done].
    destruct (Exact.toZ (Exact.m33 m)) as [a33|] eqn:E33; [|done].
    destruct (Exact.toZ (Exact.m12 m)) as [a12|] eqn:E12; [|done].
    destruct (Exact.toZ (Exact.m11 m)) as [a11|] eqn:E11; [|done].
    cbn in H.
    destruct (Exact.atan2 (- a23) a33) as [k1|] eqn:K1; [|done].
    destruct (Exact.atan2 (- a12) a11) as [k2|] eqn:K2; [|done].
    cbn in H. injection H as <- <- <-.
    rewrite (toR_toZ _ _ E23), (toR_toZ _ _ E33), (toR_toZ _ _ E12),
      (toR_toZ _ _ E11), <- !opp_IZR.
    rewrite (atan2_axis _ _ _ K1), (atan2_axis _ _ _ K2).
    apply atan2_range in K1, K2. repeat split; lia.
  - destruct ((a13 =? 1)%Z || (a13 =? -1)%Z) eqn:E1; [|done].
    assert (-1 <= a13 <= 1)%Z by lia.
    rewrite gimbal_test by lia. rewrite asin_axis by lia.
    destruct (Z.eqb_spec a13 0) as [?|_]; [done|].
    destruct (Exact.toZ (Exact.m32 m)) as [a32|] eqn:E32; [|done].
    destruct (Exact.toZ (Exact.m22 m)) as [a22|] eqn:E22; [|done].
    cbn in H.
    destruct (Exact.atan2 a32 a22) as [k1|] eqn:K1; [|done].
    cbn in H. injection H as <- <- <-.
    rewrite (toR_toZ _ _ E32), (toR_toZ _ _ E22).
    rewrite (atan2_axis _ _ _ K1).
    apply atan2_range in K1. repeat split; try lia. f_equal; lra.
Qed.

Lemma round_quarter (k : Z) :
  Math.round (IZR k * (Math.PI / 2) / (Math.PI / 2)) = k.
Proof.
  pose proof PI2_pos.
  replace (IZR k * (Math.PI / 2) / (Math.PI / 2)) with (IZR k) by (field; lra).
  apply round_IZR.
Qed.

Lemma snapQuaternion_exact e e' :
  Exact.snapQuaternion e = Some e' ->
  VariantA.snapQuaternion (Exact.toQuaternion e) = Exact.toQuaternion e'.
Proof.
  unfold Exact.snapQuaternion, Exact.snapAngles, VariantA.snapQuaternion,
    setFromQuaternion.
  destruct (Exact.setFromRotationMatrix _) as [[[kx ky] kz]|] eqn:E; [|done].
  intros [= <-].
  rewrite <- toMatrix3_makeRotation.
  apply setFromRotationMatrix_exact in E as (-> & Hx & Hy & Hz).
  unfold quarterAngles at 1 2 3. cbn [ex ey ez].
  rewrite !round_quarter.
  symmetry. by apply (toQuaternion_setFromEuler kx ky kz).
Qed.

(** ** The last frame of a rotation *)

Lemma setFromAxisAngle_exact a dir :
  dir = 1%Z ∨ dir = (-1)%Z ->
  setFromAxisAngle (axisVector a) (Math.PI / 2 * IZR dir) =
  Exact.toQuaternion (Exact.setFromAxisAngle a dir).
Proof.
  intros Hd. unfold setFromAxisAngle, Exact.toQuaternion.
  replace (Math.PI / 2 * IZR dir / 2) with (IZR dir * (Math.PI / 2) / 2) by lra.
  rewrite cos_half_quarter, sin_half_quarter by lia.
  destruct a; cbn; autorewrite with toR; f_equal; lra.
Qed.

Lemma applyQuaternion_quarter a dir p :
  dir = 1%Z ∨ dir = (-1)%Z ->
  applyQuaternion p (setFromAxisAngle (axisVector a) (Math.PI / 2 * IZR dir))
  = quarterTurnVector a dir p.
Proof.
  intros Hd. rewrite setFromAxisAngle_exact by done.
  assert (2 * (sqrt 2 / 2 * (sqrt 2 / 2)) = 1) as Hs
    by (pose proof sqrt2_sq; lra).
  destruct p as [px py pz].
  destruct Hd as [-> | ->], a;
    unfold applyQuaternion, quarterTurnVector, Exact.toQuaternion,
      Exact.setFromAxisAngle, Exact.axisVector, Exact.sinQuarter,
      Exact.cosQuarter;
    cbn [qx qy qz qw vx vy vz Exact.qx Exact.qy Exact.qz Exact.qw];
    autorewrite with toR; f_equal;
    revert Hs; generalize (sqrt 2 / 2); intros h Hh; nsatz.
Qed.

(** ** Loops over references *)

Section Loops.
Context {A B : Type}.
Implicit Types (arr : list A) (refs : list nat).

Lemma forEach_length (f : A -> A) refs arr :
  length (forEach f refs arr) = length arr.
Proof.
  revert arr. induction refs as [|i refs IH]; intros arr; [done|].
  change (forEach f (i :: refs) arr) with (forEach f refs (alter f i arr)).
  rewrite IH. apply length_alter.
Qed.

Lemma forEach_lookup_notin (f : A -> A) refs arr j :
  j ∉ refs -> forEach f refs arr !! j = arr !! j.
Proof.
  revert arr. induction refs as [|i refs IH]; intros arr Hj; [done|].
  apply not_elem_of_cons in Hj as [Hne Hj].
  change (forEach f (i :: refs) arr) with (forEach f refs (alter f i arr)).
  rewrite IH by done. by apply list_lookup_alter_ne.
Qed.

Lemma forEach_lookup_in (f : A -> A) refs arr j :
  NoDup refs -> j ∈ refs -> forEach f refs arr !! j = f <$> arr !! j.
Proof.
  revert arr. induction refs as [|i refs IH]; intros arr Hnd Hj.
  - by apply elem_of_nil in Hj.
  - apply NoDup_cons in Hnd as [Hi Hnd].
    change (forEach f (i :: refs) arr) with (forEach f refs (alter f i arr)).
    apply elem_of_cons in Hj as [-> | Hj].
    + rewrite forEach_lookup_notin by done. apply list_lookup_alter_eq.
    + rewrite IH by done. f_equal. apply list_lookup_alter_ne.
      intros ->. done.
Qed.

Lemma forEachIndexed_length (f : B -> A -> A) refs (vals : list B) arr :
  length (forEachIndexed f refs vals arr) = length arr.
Proof.
  unfold forEachIndexed. generalize (zip refs vals). intros l.
  revert arr. induction l as [|iv l IH]; intros arr; [done|].
  cbn. rewrite IH. apply length_alter.
Qed.

Lemma forEachIndexed_lookup_notin (f : B -> A -> A) refs (vals : list B)
    arr j :
  j ∉ refs -> forEachIndexed f refs vals arr !! j = arr !! j.
Proof.
  unfold forEachIndexed. revert vals arr.
  induction refs as [|i refs IH]; intros vals arr Hj; [done|].
  apply not_elem_of_cons in Hj as [Hne Hj].
  destruct vals as [|v vals]; [done|].
  change (fold_left _ (zip (i :: refs) (v :: vals)) arr)
    with (fold_left (fun acc iv => alter (f (snd iv)) (fst iv) acc)
            (zip refs vals) (alter (f v) i arr)).
  rewrite IH by done. by apply list_lookup_alter_ne.
Qed.

Lemma forEachIndexed_lookup_in (f : B -> A -> A) refs (vals : list B)
    arr k j v :
  NoDup refs -> refs !! k = Some j -> vals !! k = Some v ->
  forEachIndexed f refs vals arr !! j = f v <$> arr !! j.
Proof.
  revert vals arr k.
  induction refs as [|i refs IH]; intros vals arr k Hnd Hk Hv; [done|].
  apply NoDup_cons in Hnd as [Hi Hnd].
  destruct vals as [|v' vals]; [by destruct k|].
  destruct k as [|k]; cbn in Hk, Hv.
  - injection Hk as ->. injection Hv as ->.
    change (forEachIndexed f (j :: refs) (v :: vals) arr)
      with (forEachIndexed f refs vals (alter (f v) j arr)).
    rewrite forEachIndexed_lookup_notin by done.
    apply list_lookup_alter_eq.
  - change (forEachIndexed f (i :: refs) (v' :: vals) arr)
      with (forEachIndexed f refs vals (alter (f v') i arr)).
    rewrite (IH _ _ k) by done. f_equal. apply list_lookup_alter_ne.
    intros ->. apply Hi. by eapply list_elem_of_lookup_2.
Qed.

Lemma filterRefs_NoDup (pred : A -> bool) arr : NoDup (filterRefs pred arr).
Proof. apply NoDup_filter, NoDup_seq. Qed.

Lemma elem_of_filterRefs (pred : A -> bool) arr j :
  j ∈ filterRefs pred arr ↔ ∃ c, arr !! j = Some c ∧ pred c = true.
Proof.
  unfold filterRefs. rewrite list_elem_of_filter, elem_of_seq.
  split.
  - intros [Hp _]. destruct (arr !! j) as [c|]; [|done].
    exists c. split; [done|]. by apply Is_true_eq_true.
  - intros (c & Hc & Hp). rewrite Hc. cbn. split; [by rewrite Hp|].
    apply lookup_lt_Some in Hc. lia.
Qed.

Lemma mapRefs_lookup (g : A -> B) refs arr k :
  (∀ i, i ∈ refs -> is_Some (arr !! i)) ->
  mapRefs g refs arr !! k = refs !! k ≫= (fun i => g <$> arr !! i).
Proof.
  unfold mapRefs. revert k.
  induction refs as [|i refs IH]; intros k Hall; [done|].
  destruct (Hall i) as [c Hc]; [by left|]. cbn. rewrite Hc. cbn.
  destruct k as [|k]; cbn; [by rewrite Hc|].
  apply IH. intros i' Hi'. apply Hall. by right.
Qed.

End Loops.

(** ** Variant A: a rotation in flight and its completion *)

Section CompletionA.
Import VariantA SpecA.

Lemma sameButPose_refl a i cubes : sameButPose a i cubes cubes.
Proof.
  intros j. destruct (cubes !! j) as [c|] eqn:E; [|done]. by exists c.
Qed.

Lemma sameButPose_posed q a i cubes :
  sameButPose a i (posed q a i cubes) cubes.
Proof.
  intros j. unfold posed. rewrite list_lookup_fmap.
  destruct (cubes !! j) as [c|] eqn:E; [|done]. cbn.
  eexists. split; [done|]. by destruct (inSlice a i c).
Qed.

Lemma originals_lookup a i (cubes : list Cube) k j c0 :
  filterRefs (inSlice a i) cubes !! k = Some j -> cubes !! j = Some c0 ->
  zip (mapRefs position (filterRefs (inSlice a i) cubes) cubes)
      (mapRefs quaternion (filterRefs (inSlice a i) cubes) cubes) !! k
  = Some (position c0, quaternion c0).
Proof.
  intros Hk Hj.
  assert (∀ i0, i0 ∈ filterRefs (inSlice a i) cubes -> is_Some (cubes !! i0))
    as Hall.
  { intros i0 (c & Hc & _)%elem_of_filterRefs. by exists c. }
  rewrite lookup_zip_with, !mapRefs_lookup by done.
  rewrite Hk. cbn. by rewrite Hj.
Qed.

(** Each frame poses the slice from the stored originals, whatever the
    frames before it did. *)
Lemma pose_frame q a i arr cubes :
  sameButPose a i arr cubes ->
  forEachIndexed (poseCube q) (filterRefs (inSlice a i) cubes)
    (zip (mapRefs position (filterRefs (inSlice a i) cubes) cubes)
         (mapRefs quaternion (filterRefs (inSlice a i) cubes) cubes)) arr
  = posed q a i cubes.
Proof.
  intros Hs. apply list_eq. intros j. specialize (Hs j).
  unfold posed. rewrite list_lookup_fmap.
  destruct (cubes !! j) as [c0|] eqn:E.
  - destruct Hs as (c & Hc & Hu & Hd & Hout). cbn.
    destruct (inSlice a i c0) eqn:Hin.
    + assert (j ∈ filterRefs (inSlice a i) cubes) as Hj
        by (apply elem_of_filterRefs; eauto).
      apply list_elem_of_lookup_1 in Hj as [k Hk].
      rewrite (forEachIndexed_lookup_in _ _ _ _ k j
                 (position c0, quaternion c0));
        [|apply filterRefs_NoDup|done|by apply (originals_lookup _ _ _ k j)].
      rewrite Hc. cbn. unfold poseCube. by rewrite Hu, Hd.
    + rewrite forEachIndexed_lookup_notin.
      * rewrite Hc. f_equal. by apply Hout.
      * intros (c' & Hc' & Hp)%elem_of_filterRefs. congruence.
  - cbn. rewrite forEachIndexed_lookup_notin; [done|].
    intros (c' & Hc' & Hp)%elem_of_filterRefs. congruence.
Qed.

Lemma snap_frame q a i cubes :
  forEach snapCube (filterRefs (inSlice a i) cubes) (posed q a i cubes)
  = (fun c => if inSlice a i c
              then snapCube (poseCube q (position c, quaternion c) c)
              else c) <$> cubes.
Proof.
  apply list_eq. intros j. unfold posed. rewrite list_lookup_fmap.
  destruct (cubes !! j) as [c0|] eqn:E; cbn.
  - destruct (inSlice a i c0) eqn:Hin.
    + assert (j ∈ filterRefs (inSlice a i) cubes) as Hj
        by (apply elem_of_filterRefs; eauto).
      rewrite forEach_lookup_in by (done || apply filterRefs_NoDup).
      rewrite list_lookup_fmap, E. cbn. by rewrite Hin.
    + rewrite forEach_lookup_notin.
      * rewrite list_lookup_fmap, E. cbn. by rewrite Hin.
      * intros (c' & Hc' & Hp)%elem_of_filterRefs. congruence.
  - rewrite forEach_lookup_notin.
    + by rewrite list_lookup_fmap, E.
    + intros (c' & Hc' & Hp)%elem_of_filterRefs. congruence.
Qed.

Lemma last_progress (elapsed : R) :
  Math.ltb (Math.min (elapsed / duration) 1) 1 = false ->
  1 - Math.pow (1 - Math.min (elapsed / duration) 1) 3 = 1.
Proof.
  unfold Math.ltb, Math.min, Math.pow.
  destruct (Rlt_dec _ _) as [|Hn]; [done|]. intros _.
  pose proof (Rmin_r (elapsed / duration) 1).
  replace (Rmin (elapsed / duration) 1) with 1 by lra. lra.
Qed.

Lemma last_frame now t0 :
  duration <= now - t0 ->
  Math.ltb (Math.min ((now - t0) / duration) 1) 1 = false.
Proof.
  intros Hnow. unfold Math.ltb, Math.min, duration in *.
  destruct (Rlt_dec _ _) as [Hlt|]; [|done].
  rewrite Rmin_right in Hlt by lra. lra.
Qed.

(** A frame of a rotation in flight either poses the slice again or
    snaps it and resolves the promise; the clock decides which. *)
Lemma animateSlice_frame now s a i dir k t0 cubes0 :
  animation s = Some (newAnimation a i dir k t0 cubes0) ->
  sameButPose a i (smallCubes s) cubes0 ->
  animateSlice now s
  = if Math.ltb (Math.min ((now - t0) / duration) 1) 1
    then withCubes
           (posed (setFromAxisAngle (axisVector a)
                     (Math.PI / 2 * IZR dir *
                      (1 - Math.pow
                             (1 - Math.min ((now - t0) / duration) 1) 3)))
                  a i cubes0) s
    else resolve k (finish (turnSlice a i dir cubes0) s).
Proof.
  intros Ha Hs. unfold animateSlice. rewrite Ha.
  cbn [newAnimation start targetAngle rotationAxis sliceCubes
       originalPositions originalQuaternions awaiting].
  rewrite pose_frame by done.
  destruct (Math.ltb _ 1) eqn:Hp; [done|].
  rewrite (last_progress _ Hp), Rmult_1_r, snap_frame. done.
Qed.

Lemma rotateSlice_begin a i dir rec k t0 t1 s :
  isAnimating s = false ->
  rotateSlice a i dir rec k t0 t1 s
  = animateSlice t1 (begin a i dir rec k t0 s).
Proof. intros Hs. unfold rotateSlice. by rewrite Hs. Qed.

Lemma resolve_fields k s :
  animation (resolve k s) = animation s ∧
  isAnimating (resolve k s) = isAnimating s ∧
  smallCubes (resolve k s) = smallCubes s ∧
  moveHistory (resolve k s) = moveHistory s ∧
  isSolved (resolve k s) = isSolved s ∧
  introComplete (resolve k s) = introComplete s.
Proof.
  destruct k as [face|]; [|done]. unfold resolve, navigateResume.
  destruct (applyMaterialPreset _ _) as [s2|] eqn:E; [|done].
  unfold applyMaterialPreset in E.
  destruct (_ && _); [done|]. by injection E as <-.
Qed.

Lemma rotateSlice_outcome a i dir rec k t0 t1 s :
  isAnimating s = false ->
  rotateSlice a i dir rec k t0 t1 s = completed a i dir rec k s ∨
  ∃ q, rotateSlice a i dir rec k t0 t1 s = inflight q a i dir rec k t0 s.
Proof.
  intros Hs. rewrite rotateSlice_begin by done.
  rewrite (animateSlice_frame t1 _ a i dir k t0 (smallCubes s));
    [|done|apply sameButPose_refl].
  destruct (Math.ltb _ 1); eauto.
Qed.

Lemma animateSlice_inflight now q a i dir rec k t0 s :
  animateSlice now (inflight q a i dir rec k t0 s)
    = completed a i dir rec k s ∨
  ∃ q', animateSlice now (inflight q a i dir rec k t0 s)
        = inflight q' a i dir rec k t0 s.
Proof.
  rewrite (animateSlice_frame now _ a i dir k t0 (smallCubes s));
    [|done|apply sameButPose_posed].
  destruct (Math.ltb _ 1); eauto.
Qed.

Lemma animateSlice_completed now a i dir rec k s :
  animateSlice now (completed a i dir rec k s) = completed a i dir rec k s.
Proof.
  unfold animateSlice, completed.
  by rewrite (proj1 (resolve_fields _ _)).
Qed.

Lemma frames_completed a i dir rec k s frames :
  fold_left (fun st now => animateSlice now st) frames
            (completed a i dir rec k s) = completed a i dir rec k s.
Proof.
  induction frames as [|now l IH]; [done|].
  cbn. by rewrite animateSlice_completed.
Qed.

Lemma frames_outcome a i dir rec k t0 s frames st :
  (st = completed a i dir rec k s ∨ ∃ q, st = inflight q a i dir rec k t0 s) ->
  fold_left (fun st now => animateSlice now st) frames st
    = completed a i dir rec k s ∨
  ∃ q, fold_left (fun st now => animateSlice now st) frames st
       = inflight q a i dir rec k t0 s.
Proof.
  revert st. induction frames as [|now frames IH]; intros st Hst; [done|].
  cbn. apply IH. destruct Hst as [-> | [q ->]].
  - left. apply animateSlice_completed.
  - apply animateSlice_inflight.
Qed.

(** A call that runs to completion ends in [completed], whatever frames
    were drawn on the way. *)
Lemma rotateSlice_completed a i dir rec k tm s :
  isAnimating s = false -> completes duration tm ->
  fold_left (fun st now => animateSlice now st) (frames tm)
            (rotateSlice a i dir rec k (t0 tm) (t1 tm) s)
  = completed a i dir rec k s.
Proof.
  intros Hs Hex.
  apply Exists_cons in Hex as [Hnow | Hex].
  - rewrite rotateSlice_begin by done.
    rewrite (animateSlice_frame _ _ a i dir k (t0 tm) (smallCubes s));
      [|done|apply sameButPose_refl].
    rewrite last_frame by done.
    exact (frames_completed a i dir rec k s (frames tm)).
  - pose proof (rotateSlice_outcome a i dir rec k (t0 tm) (t1 tm) s Hs)
      as Hst.
    revert Hst. generalize (rotateSlice a i dir rec k (t0 tm) (t1 tm) s).
    induction Hex as [now l Hnow | now l Hex IH]; intros st Hst; cbn.
    + assert (animateSlice now st = completed a i dir rec k s) as ->.
      { destruct Hst as [-> | [q ->]]; [apply animateSlice_completed|].
        rewrite (animateSlice_frame _ _ a i dir k (t0 tm) (smallCubes s));
          [|done|apply sameButPose_posed].
        by rewrite last_frame. }
      apply frames_completed.
    + apply IH. destruct Hst as [-> | [q ->]].
      * left. apply animateSlice_completed.
      * apply animateSlice_inflight.
Qed.

Lemma rotation_completed a i dir rec tm s :
  isAnimating s = false -> completes duration tm ->
  rotationRun a i dir rec tm s = completed a i dir rec None s.
Proof. apply rotateSlice_completed. Qed.

(** Conversely, a rotation none of whose frames reaches the duration is
    still in flight. *)
Lemma rotation_inflight a i dir rec tm s :
  isAnimating s = false -> ¬ completes duration tm ->
  ∃ q, rotationRun a i dir rec tm s = inflight q a i dir rec None (t0 tm) s.
Proof.
  intros Hs Hex. unfold rotationRun, completes in *.
  apply not_Exists_Forall in Hex; [|intros now; apply Rle_dec].
  apply Forall_cons in Hex as [Hnow Hex].
  assert (∀ now, ¬ duration <= now - t0 tm ->
            Math.ltb (Math.min ((now - t0 tm) / duration) 1) 1 = true)
    as Hearly.
  { intros now Hn. unfold Math.ltb, Math.min, duration in *.
    destruct (Rlt_dec _ _) as [|Hge]; [done|]. exfalso.
    apply Hge. rewrite Rmin_left by lra. lra. }
  assert (∃ q, rotateSlice a i dir rec None (t0 tm) (t1 tm) s
               = inflight q a i dir rec None (t0 tm) s) as [q ->].
  { rewrite rotateSlice_begin by done.
    rewrite (animateSlice_frame _ _ a i dir None (t0 tm) (smallCubes s));
      [|done|apply sameButPose_refl].
    rewrite Hearly by done. eauto. }
  revert q. induction Hex as [|now l Hn Hex IH]; intros q; [by eauto|].
  cbn [fold_left].
  rewrite (animateSlice_frame _ _ a i dir None (t0 tm) (smallCubes s));
    [|done|apply sameButPose_posed].
  rewrite Hearly by done. apply IH.
Qed.
End CompletionA.

(** ** Grid slots under a completed turn *)

Lemma round_eq (e : R) (n : Z) : e = IZR n -> Math.round e = n.
Proof. intros ->. apply round_IZR. Qed.

Lemma spacing_neq : SEGMENT_SIZE + GAP ≠ 0.
Proof. pose proof spacing_pos. lra. Qed.

Lemma perm_by_decide (l k : list UserData) :
  bool_decide (NoDup l) && bool_decide (NoDup k) &&
  forallb (fun u => bool_decide (u ∈ k)) l &&
  forallb (fun u => bool_decide (u ∈ l)) k = true ->
  l ≡ₚ k.
Proof.
  intros [[[H1 H2]%andb_prop H3]%andb_prop H4]%andb_prop.
  apply bool_decide_eq_true in H1, H2.
  rewrite forallb_forall in H3, H4.
  apply NoDup_Permutation; [done..|].
  intros u. split; intros Hu.
  - apply list_elem_of_In, H3 in Hu. by apply bool_decide_eq_true in Hu.
  - apply list_elem_of_In, H4 in Hu. by apply bool_decide_eq_true in Hu.
Qed.

Lemma shell_turnSlot a i dir :
  (0 <= i <= 2)%Z -> dir = 1%Z ∨ dir = (-1)%Z ->
  turnSlot a i dir <$> shell ≡ₚ shell.
Proof.
  intros Hi Hd.
  assert (i = 0 ∨ i = 1 ∨ i = 2)%Z as Hi' by lia.
  destruct Hd as [-> | ->], Hi' as [-> | [-> | ->]], a;
    apply perm_by_decide; vm_compute; reflexivity.
Qed.

Lemma shell_slice_turn a i dir :
  (0 <= i <= 2)%Z -> dir = 1%Z ∨ dir = (-1)%Z ->
  quarterTurn a dir <$> filter (fun u => coordinate a u = i) shell
  ≡ₚ filter (fun u => coordinate a u = i) shell.
Proof.
  intros Hi Hd.
  assert (i = 0 ∨ i = 1 ∨ i = 2)%Z as Hi' by lia.
  destruct Hd as [-> | ->], Hi' as [-> | [-> | ->]], a;
    apply perm_by_decide; vm_compute; reflexivity.
Qed.

Lemma quarterTurn_coordinate a dir u :
  coordinate a (quarterTurn a dir u) = coordinate a u.
Proof. by destruct a. Qed.

Lemma filter_turnSlot a i dir (l : list UserData) :
  filter (fun u => coordinate a u = i) (turnSlot a i dir <$> l)
  = quarterTurn a dir <$> filter (fun u => coordinate a u = i) l.
Proof.
  induction l as [|u l IH]; [done|].
  rewrite fmap_cons.
  destruct (decide (coordinate a u = i)) as [Hu|Hu].
  - assert (turnSlot a i dir u = quarterTurn a dir u) as ->
      by (unfold turnSlot; by rewrite decide_True).
    rewrite !filter_cons_True, IH; [done..|].
    by rewrite quarterTurn_coordinate.
  - assert (turnSlot a i dir u = u) as ->
      by (unfold turnSlot; by rewrite decide_False).
    by rewrite !filter_cons_False, IH.
Qed.

Lemma shell_inRange u : u ∈ shell -> inRange u.
Proof.
  intros Hu. assert (Forall inRange shell) as H.
  { unfold inRange. repeat (constructor; [cbn; lia|]). constructor. }
  by eapply Forall_forall in H.
Qed.

Lemma shell_NoDup : NoDup shell.
Proof. apply (bool_decide_eq_true_1 (NoDup shell)). vm_compute. reflexivity. Qed.

Section GridA.
Import VariantA SpecA.

Lemma offset_value : offset = 1.
Proof. unfold offset, SEGMENTS. lra. Qed.

Lemma inSlice_coordinate a i c :
  inSlice a i c = bool_decide (coordinate a (userData c) = i).
Proof.
  unfold inSlice, coordinate.
  destruct a;
    (destruct (Z.eqb (_ (userData c)) i) eqn:E;
     [apply Z.eqb_eq in E; by rewrite bool_decide_eq_true_2
     |apply Z.eqb_neq in E; by rewrite bool_decide_eq_false_2]).
Qed.

Lemma turnCube_userData a dir c :
  dir = 1%Z ∨ dir = (-1)%Z -> onGrid c ->
  userData (turnCube a dir c) = quarterTurn a dir (userData c).
Proof.
  intros Hd Hc. unfold turnCube, snapCube, finalQuaternion, poseCube.
  cbn [userData position fst].
  rewrite (applyQuaternion_quarter a dir (position c) Hd), Hc.
  pose proof spacing_neq. rewrite offset_value.
  destruct (userData c) as [ux uy uz].
  unfold quarterTurnVector, quarterTurn, gridPosition. rewrite offset_value.
  destruct a; cbn [vx vy vz x y z]; f_equal; apply round_eq;
    repeat (rewrite plus_IZR || rewrite minus_IZR || rewrite mult_IZR).
  all: field; done.
Qed.

Lemma turnCube_onGrid a dir c : onGrid (turnCube a dir c).
Proof. done. Qed.

Lemma turnSlice_userData a i dir cubes :
  dir = 1%Z ∨ dir = (-1)%Z -> Forall onGrid cubes ->
  userData <$> turnSlice a i dir cubes
  = turnSlot a i dir <$> (userData <$> cubes).
Proof.
  intros Hd Hg. unfold turnSlice. rewrite <- !list_fmap_compose.
  apply Forall_fmap_ext_1. eapply Forall_impl; [exact Hg|].
  intros c Hc. cbn. rewrite inSlice_coordinate. unfold turnSlot.
  destruct (decide _) as [H|H].
  - rewrite bool_decide_eq_true_2 by done. by apply turnCube_userData.
  - by rewrite bool_decide_eq_false_2.
Qed.

Lemma turnSlice_onGrid a i dir cubes :
  Forall onGrid cubes -> Forall onGrid (turnSlice a i dir cubes).
Proof.
  intros Hg. unfold turnSlice. apply Forall_fmap.
  eapply Forall_impl; [exact Hg|]. intros c Hc. cbn.
  destruct (inSlice a i c); [apply turnCube_onGrid|done].
Qed.
End GridA.


(** ** Variant B: a rotation in flight and its completion *)

Section CompletionB.
Import VariantB SpecB.

Lemma setAxis_setAxis a v w g : setAxis a w (setAxis a v g) = setAxis a w g.
Proof. by destruct a. Qed.

Lemma moved_frame a i cubes :
  forEach toRotationGroup (filterRefs (inSlice a i) cubes) cubes
  = moved a i cubes.
Proof.
  apply list_eq. intros j. unfold moved. rewrite list_lookup_fmap.
  destruct (cubes !! j) as [c0|] eqn:E; cbn.
  - destruct (inSlice a i c0) eqn:Hin.
    + assert (j ∈ filterRefs (inSlice a i) cubes) as Hj
        by (apply elem_of_filterRefs; eauto).
      rewrite forEach_lookup_in by (done || apply filterRefs_NoDup).
      by rewrite E.
    + rewrite forEach_lookup_notin; [done|].
      intros (c' & Hc' & Hp)%elem_of_filterRefs. congruence.
  - rewrite forEach_lookup_notin; [done|].
    intros (c' & Hc' & Hp)%elem_of_filterRefs. congruence.
Qed.

Lemma settle_frame g a i cubes :
  forEach (settleCube g) (filterRefs (inSlice a i) cubes) (moved a i cubes)
  = (fun c => if inSlice a i c then settleCube g c else c) <$> cubes.
Proof.
  apply list_eq. intros j. unfold moved. rewrite list_lookup_fmap.
  destruct (cubes !! j) as [c0|] eqn:E; cbn.
  - destruct (inSlice a i c0) eqn:Hin.
    + assert (j ∈ filterRefs (inSlice a i) cubes) as Hj
        by (apply elem_of_filterRefs; eauto).
      rewrite forEach_lookup_in by (done || apply filterRefs_NoDup).
      rewrite list_lookup_fmap, E. cbn. by rewrite Hin.
    + rewrite forEach_lookup_notin.
      * rewrite list_lookup_fmap, E. cbn. by rewrite Hin.
      * intros (c' & Hc' & Hp)%elem_of_filterRefs. congruence.
  - rewrite forEach_lookup_notin.
    + by rewrite list_lookup_fmap, E.
    + intros (c' & Hc' & Hp)%elem_of_filterRefs. congruence.
Qed.

Lemma last_progressB (elapsed : R) :
  Math.ltb (Math.min (elapsed / duration) 1) 1 = false ->
  eased (Math.min (elapsed / duration) 1) = 1.
Proof.
  unfold eased, Math.ltb, Math.min, Math.pow.
  destruct (Rlt_dec _ 1) as [|Hn]; [done|]. intros _.
  pose proof (Rmin_r (elapsed / duration) 1).
  replace (Rmin (elapsed / duration) 1) with 1 by lra.
  destruct (Rlt_dec _ _); lra.
Qed.

Lemma animateSliceB_frame now a i dir t0 s g :
  (∀ w, setAxis a w g = setAxis a w (rotationGroupRotation s)) ->
  animateSlice now
    (mkState (moved a i (smallCubes s)) g true
             (Some (newAnimation a i dir t0 s)))
  = if Math.ltb (Math.min ((now - t0) / duration) 1) 1
    then inflight (Math.PI / 2 * IZR dir *
                   eased (Math.min ((now - t0) / duration) 1))
                  a i dir t0 s
    else completed a i dir s.
Proof.
  intros Hg. unfold animateSlice.
  cbn [animation newAnimation start targetRotation animAxis sliceCubes
       smallCubes rotationGroupRotation isAnimating].
  fold (eased (Math.min ((now - t0) / duration) 1)).
  assert (∀ w, match a with
               | AxisX => mkEuler w (ey g) (ez g)
               | AxisY => mkEuler (ex g) w (ez g)
               | AxisZ => mkEuler (ex g) (ey g) w
               end = setAxis a w (rotationGroupRotation s)) as ->
    by (intros w; by rewrite <- Hg).
  destruct (Math.ltb _ 1) eqn:Hp; [done|].
  rewrite (last_progressB _ Hp), Rmult_1_r, settle_frame. done.
Qed.

Lemma rotateSliceB_outcome a i dir t0 t1 s :
  isAnimating s = false ->
  rotateSlice a i dir t0 t1 s = completed a i dir s ∨
  ∃ v, rotateSlice a i dir t0 t1 s = inflight v a i dir t0 s.
Proof.
  intros Hs. unfold rotateSlice. rewrite Hs, moved_frame.
  pose proof (animateSliceB_frame t1 a i dir t0 s (rotationGroupRotation s))
    as H.
  unfold newAnimation in H. rewrite H by done.
  destruct (Math.ltb _ 1); eauto.
Qed.

Lemma animateSliceB_inflight now v a i dir t0 s :
  animateSlice now (inflight v a i dir t0 s) = completed a i dir s ∨
  ∃ v', animateSlice now (inflight v a i dir t0 s) = inflight v' a i dir t0 s.
Proof.
  unfold inflight.
  rewrite animateSliceB_frame by (intros w; apply setAxis_setAxis).
  destruct (Math.ltb _ 1); eauto.
Qed.

Lemma framesB_outcome a i dir t0 s frames st :
  (st = completed a i dir s ∨ ∃ v, st = inflight v a i dir t0 s) ->
  fold_left (fun st now => animateSlice now st) frames st
    = completed a i dir s ∨
  ∃ v, fold_left (fun st now => animateSlice now st) frames st
       = inflight v a i dir t0 s.
Proof.
  revert st. induction frames as [|now frames IH]; intros st Hst; [done|].
  cbn. apply IH. destruct Hst as [-> | [v ->]].
  - by left.
  - apply animateSliceB_inflight.
Qed.

Lemma rotationB_completed a i dir tm s :
  isAnimating s = false ->
  isAnimating (rotationRun a i dir tm s) = false ->
  rotationRun a i dir tm s = completed a i dir s.
Proof.
  intros Hs Hdone. unfold rotationRun in *.
  destruct (framesB_outcome a i dir (t0 tm) s (frames tm) _
              (rotateSliceB_outcome a i dir (t0 tm) (t1 tm) s Hs))
    as [H | [v H]]; [done|].
  rewrite H in Hdone. done.
Qed.

Lemma framesB_completed a i dir s frames :
  fold_left (fun st now => animateSlice now st) frames (completed a i dir s)
  = completed a i dir s.
Proof. induction frames as [|now l IH]; [done|]. by cbn. Qed.

Lemma lastB_frame now t0 :
  duration <= now - t0 ->
  Math.ltb (Math.min ((now - t0) / duration) 1) 1 = false.
Proof.
  intros Hnow. unfold Math.ltb, Math.min, duration in *.
  destruct (Rlt_dec _ _) as [Hlt|]; [|done].
  rewrite Rmin_right in Hlt by lra. lra.
Qed.

Lemma rotationB_completes a i dir tm s :
  isAnimating s = false ->
  Exists (fun now => duration <= now - t0 tm) (t1 tm :: frames tm) ->
  isAnimating (rotationRun a i dir tm s) = false.
Proof.
  intros Hs Hex. unfold rotationRun.
  apply Exists_cons in Hex as [Hnow | Hex].
  - assert (rotateSlice a i dir (t0 tm) (t1 tm) s = completed a i dir s)
      as ->.
    { unfold rotateSlice. rewrite Hs, moved_frame.
      pose proof (animateSliceB_frame (t1 tm) a i dir (t0 tm) s
                    (rotationGroupRotation s)) as H.
      unfold newAnimation in H. rewrite H by done.
      by rewrite lastB_frame. }
    by rewrite framesB_completed.
  - pose proof (rotateSliceB_outcome a i dir (t0 tm) (t1 tm) s Hs) as Hst.
    revert Hst. generalize (rotateSlice a i dir (t0 tm) (t1 tm) s).
    induction Hex as [now l Hnow | now l Hex IH]; intros st Hst; cbn.
    + assert (animateSlice now st = completed a i dir s) as ->.
      { destruct Hst as [-> | [v ->]]; [done|].
        unfold inflight.
        rewrite animateSliceB_frame by (intros w; apply setAxis_setAxis).
        by rewrite lastB_frame. }
      by rewrite framesB_completed.
    + apply IH. destruct Hst as [-> | [v ->]].
      * by left.
      * apply animateSliceB_inflight.
Qed.
End CompletionB.

Section GridB.
Import VariantB SpecB.

Lemma offsetB_value : offset = 1.
Proof. unfold offset, SEGMENTS. lra. Qed.

Lemma inSliceB_coordinate a i c :
  inSlice a i c = bool_decide (coordinate a (userData c) = i).
Proof.
  unfold inSlice, coordinate.
  destruct a;
    (destruct (Z.eqb (_ (userData c)) i) eqn:E;
     [apply Z.eqb_eq in E; by rewrite bool_decide_eq_true_2
     |apply Z.eqb_neq in E; by rewrite bool_decide_eq_false_2]).
Qed.

Lemma setFromEuler_axis a v :
  setFromEuler (setAxis a v (mkEuler 0 0 0))
  = setFromAxisAngle (axisVector a) v.
Proof.
  unfold setFromEuler, setFromAxisAngle.
  destruct a; cbn; replace (0 / 2) with 0 by lra;
    rewrite sin_0, cos_0; f_equal; repeat case_decide; try done; ring.
Qed.

Lemma quarterTurnVector_grid a dir u :
  dir = 1%Z ∨ dir = (-1)%Z ->
  quarterTurnVector a dir (gridPosition (x u) (y u) (z u))
  = gridPosition (x (quarterTurn a dir u)) (y (quarterTurn a dir u))
                 (z (quarterTurn a dir u)).
Proof.
  intros Hd. destruct u as [ux uy uz].
  unfold quarterTurnVector, quarterTurn, gridPosition.
  rewrite offsetB_value.
  destruct a; cbn [vx vy vz x y z]; f_equal;
    repeat (rewrite plus_IZR || rewrite minus_IZR || rewrite mult_IZR);
    destruct Hd as [-> | ->]; lra.
Qed.

Lemma round_gridPosition gx gy gz :
  Math.round (vx (gridPosition gx gy gz) / (SEGMENT_SIZE + GAP) + 1) = gx ∧
  Math.round (vy (gridPosition gx gy gz) / (SEGMENT_SIZE + GAP) + 1) = gy ∧
  Math.round (vz (gridPosition gx gy gz) / (SEGMENT_SIZE + GAP) + 1) = gz.
Proof.
  pose proof spacing_neq. unfold gridPosition. rewrite offsetB_value.
  cbn [vx vy vz]. repeat split; apply round_eq; by field.
Qed.

Lemma settleCube_spec a dir c :
  dir = 1%Z ∨ dir = (-1)%Z -> onGrid c ->
  userData (settleCube (setAxis a (Math.PI / 2 * IZR dir) (mkEuler 0 0 0)) c)
    = quarterTurn a dir (userData c) ∧
  onGrid (settleCube (setAxis a (Math.PI / 2 * IZR dir) (mkEuler 0 0 0)) c).
Proof.
  intros Hd Hc. unfold onGrid, settleCube, applyEuler.
  cbn [userData position].
  rewrite setFromEuler_axis, (applyQuaternion_quarter a dir _ Hd), Hc.
  rewrite quarterTurnVector_grid by done.
  destruct (quarterTurn a dir (userData c)) as [gx gy gz].
  cbn [x y z].
  destruct (round_gridPosition gx gy gz) as (-> & -> & ->). done.
Qed.

Lemma settleSlice_userData a i dir cubes :
  dir = 1%Z ∨ dir = (-1)%Z -> Forall onGrid cubes ->
  userData <$> settleSlice a i dir (mkEuler 0 0 0) cubes
  = turnSlot a i dir <$> (userData <$> cubes).
Proof.
  intros Hd Hg. unfold settleSlice. rewrite <- !list_fmap_compose.
  apply Forall_fmap_ext_1. eapply Forall_impl; [exact Hg|].
  intros c Hc. cbn. rewrite inSliceB_coordinate. unfold turnSlot.
  destruct (decide _) as [H|H].
  - rewrite bool_decide_eq_true_2 by done. by apply settleCube_spec.
  - by rewrite bool_decide_eq_false_2.
Qed.

Lemma settleSlice_onGrid a i dir cubes :
  dir = 1%Z ∨ dir = (-1)%Z -> Forall onGrid cubes ->
  Forall onGrid (settleSlice a i dir (mkEuler 0 0 0) cubes).
Proof.
  intros Hd Hg. unfold settleSlice. apply Forall_fmap.
  eapply Forall_impl; [exact Hg|]. intros c Hc. cbn.
  destruct (inSlice a i c); [by apply settleCube_spec|done].
Qed.
End GridB.

(** ** Slots after a completed rotation *)

Lemma turnSlot_shell_perm a i dir (l : list UserData) :
  (0 <= i <= 2)%Z -> dir = 1%Z ∨ dir = (-1)%Z -> l ≡ₚ shell ->
  turnSlot a i dir <$> l ≡ₚ l ∧
  filter (fun u => coordinate a u = i) (turnSlot a i dir <$> l)
    ≡ₚ filter (fun u => coordinate a u = i) l.
Proof.
  intros Hi Hd Hl. split.
  - rewrite Hl at 1. rewrite shell_turnSlot by done. done.
  - rewrite filter_turnSlot, Hl. by apply shell_slice_turn.
Qed.

Lemma perm_shell_facts (l : list UserData) :
  l ≡ₚ shell -> NoDup l ∧ Forall inRange l ∧ length l = 26%nat.
Proof.
  intros Hl. split; [|split].
  - rewrite Hl. apply shell_NoDup.
  - rewrite Hl. apply Forall_forall. apply shell_inRange.
  - by rewrite Hl.
Qed.

Section SlotsA.
Import VariantA SpecA.

Lemma completed_cubes a i dir rec k s :
  smallCubes (completed a i dir rec k s) = turnSlice a i dir (smallCubes s) ∧
  isAnimating (completed a i dir rec k s) = false ∧
  animation (completed a i dir rec k s) = None.
Proof.
  unfold completed.
  destruct (resolve_fields k
              (finish (turnSlice a i dir (smallCubes s))
                      (recordMoveIn a i dir rec s)))
    as (-> & -> & -> & _). done.
Qed.

Lemma turnSlice_lookup a i dir cubes j c :
  cubes !! j = Some c ->
  turnSlice a i dir cubes !! j
  = Some (if inSlice a i c then turnCube a dir c else c).
Proof. intros Hj. unfold turnSlice. by rewrite list_lookup_fmap, Hj. Qed.

(** A completed rotation from a rest state: the slots of the slice are
    permuted among themselves by a quarter turn, every other sub-cube is
    left as it was, and the result is a rest state again. *)
Lemma completed_atRest a i dir rec k s :
  atRest s -> (0 <= i <= 2)%Z -> dir = 1%Z ∨ dir = (-1)%Z ->
  let s' := completed a i dir rec k s in
  atRest s' ∧
  sliceCoordinates a i s' ≡ₚ sliceCoordinates a i s ∧
  userData <$> smallCubes s' ≡ₚ userData <$> smallCubes s ∧
  (∀ j c, smallCubes s !! j = Some c ->
     coordinate a (userData c) ≠ i -> smallCubes s' !! j = Some c) ∧
  (∀ j c, smallCubes s !! j = Some c ->
     coordinate a (userData c) = i ->
     ∃ c', smallCubes s' !! j = Some c' ∧
           userData c' = quarterTurn a dir (userData c)).
Proof.
  intros (Hanim & Hnone & Hperm & Hgrid) Hi Hd s'.
  destruct (completed_cubes a i dir rec k s) as (Hc & Hf & Hn).
  fold s' in Hc, Hf, Hn.
  assert (userData <$> smallCubes s'
          = turnSlot a i dir <$> (userData <$> smallCubes s)) as Hu
    by (rewrite Hc; by apply turnSlice_userData).
  destruct (turnSlot_shell_perm a i dir _ Hi Hd Hperm) as [Hp1 Hp2].
  repeat split.
  - done.
  - done.
  - by rewrite Hu, Hp1.
  - rewrite Hc. by apply turnSlice_onGrid.
  - unfold sliceCoordinates. by rewrite Hu.
  - by rewrite Hu.
  - intros j c Hj Hne. rewrite Hc, (turnSlice_lookup _ _ _ _ _ _ Hj).
    rewrite inSlice_coordinate. by rewrite bool_decide_eq_false_2.
  - intros j c Hj He. rewrite Hc, (turnSlice_lookup _ _ _ _ _ _ Hj).
    rewrite inSlice_coordinate, bool_decide_eq_true_2 by done.
    eexists. split; [done|]. apply turnCube_userData; [done|].
    eapply Forall_lookup_1 in Hgrid; done.
Qed.
End SlotsA.

Section SlotsB.
Import VariantB SpecB.

Lemma rotationB_done a i dir tm s :
  isAnimating s = false -> completes duration tm ->
  rotationRun a i dir tm s = completed a i dir s.
Proof.
  intros Hs Hc. apply rotationB_completed; [done|].
  by apply rotationB_completes.
Qed.

Lemma settleSlice_lookup a i dir g cubes j c :
  cubes !! j = Some c ->
  settleSlice a i dir g cubes !! j
  = Some (if inSlice a i c
          then settleCube (setAxis a (Math.PI / 2 * IZR dir) g) c else c).
Proof. intros Hj. unfold settleSlice. by rewrite list_lookup_fmap, Hj. Qed.

Lemma completedB_atRest a i dir s :
  atRest s -> (0 <= i <= 2)%Z -> dir = 1%Z ∨ dir = (-1)%Z ->
  let s' := completed a i dir s in
  atRest s' ∧
  sliceCoordinates a i s' ≡ₚ sliceCoordinates a i s ∧
  userData <$> smallCubes s' ≡ₚ userData <$> smallCubes s ∧
  (∀ j c, smallCubes s !! j = Some c ->
     coordinate a (userData c) ≠ i -> smallCubes s' !! j = Some c) ∧
  (∀ j c, smallCubes s !! j = Some c ->
     coordinate a (userData c) = i ->
     ∃ c', smallCubes s' !! j = Some c' ∧
           userData c' = quarterTurn a dir (userData c)).
Proof.
  intros (Hanim & Hnone & Hg0 & Hperm & Hgrid) Hi Hd s'.
  assert (smallCubes s'
          = settleSlice a i dir (mkEuler 0 0 0) (smallCubes s)) as Hc
    by (unfold s', completed; cbn; by rewrite Hg0).
  assert (userData <$> smallCubes s'
          = turnSlot a i dir <$> (userData <$> smallCubes s)) as Hu
    by (rewrite Hc; by apply settleSlice_userData).
  destruct (turnSlot_shell_perm a i dir _ Hi Hd Hperm) as [Hp1 Hp2].
  repeat split.
  - by rewrite Hu, Hp1.
  - rewrite Hc. by apply settleSlice_onGrid.
  - unfold sliceCoordinates. by rewrite Hu.
  - by rewrite Hu.
  - intros j c Hj Hne. rewrite Hc, (settleSlice_lookup _ _ _ _ _ _ _ Hj).
    rewrite inSliceB_coordinate. by rewrite bool_decide_eq_false_2.
  - intros j c Hj He. rewrite Hc, (settleSlice_lookup _ _ _ _ _ _ _ Hj).
    rewrite inSliceB_coordinate, bool_decide_eq_true_2 by done.
    eexists. split; [done|]. apply settleCube_spec; [done|].
    eapply Forall_lookup_1 in Hgrid; done.
Qed.
End SlotsB.

(** ** The states right after construction *)

Section InitialA.
Import VariantA SpecA.

Lemma buildCube_spec gx gy gz c :
  buildCube gx gy gz = Some c ->
  userData c = mkUserData gx gy gz ∧ onGrid c ∧
  quaternion c = identityQuaternion.
Proof.
  unfold buildCube. destruct (negb _); [done|]. by intros [= <-].
Qed.

Lemma buildCubes_userData : userData <$> buildCubes = shell.
Proof. unfold buildCubes, shell. reflexivity. Qed.

Lemma buildCubes_onGrid : Forall onGrid buildCubes.
Proof.
  unfold buildCubes. apply Forall_forall. intros c Hc.
  apply list_elem_of_bind in Hc as (gx & Hc & _).
  apply list_elem_of_bind in Hc as (gy & Hc & _).
  apply list_elem_of_bind in Hc as (gz & Hc & _).
  destruct (buildCube gx gy gz) as [c'|] eqn:E.
  - apply list_elem_of_singleton in Hc as ->.
    by apply buildCube_spec in E as (_ & ? & _).
  - by apply elem_of_nil in Hc.
Qed.

Lemma initialState_atRest : atRest initialState.
Proof.
  repeat split; cbn.
  - by rewrite buildCubes_userData.
  - apply buildCubes_onGrid.
Qed.
End InitialA.

(** ** Orientations *)

Lemma makeRotation_negate q :
  makeRotationFromQuaternion (negateQuaternion q) = makeRotationFromQuaternion q.
Proof.
  unfold makeRotationFromQuaternion, negateQuaternion. cbn.
  f_equal; ring.
Qed.

Lemma sameOrientation_negate q : sameOrientation (negateQuaternion q) q.
Proof. apply makeRotation_negate. Qed.

Lemma matrix_eqb_sound m m' :
  Exact.matrix_eqb m m' = true -> Exact.toMatrix3 m = Exact.toMatrix3 m'.
Proof.
  unfold Exact.matrix_eqb, Exact.toMatrix3. intros H.
  do 8 (apply andb_prop in H as [H ?]).
  f_equal; by apply toR_eqb.
Qed.

Lemma eulerTriples_complete kx ky kz :
  (-2 <= kx <= 2)%Z -> (-2 <= ky <= 2)%Z -> (-2 <= kz <= 2)%Z ->
  (kx, ky, kz) ∈ Exact.eulerTriples.
Proof.
  intros Hx Hy Hz. unfold Exact.eulerTriples.
  assert (∀ k, (-2 <= k <= 2)%Z -> k ∈ Exact.quarterRange) as Hr.
  { intros k Hk. unfold Exact.quarterRange.
    assert (k = -2 ∨ k = -1 ∨ k = 0 ∨ k = 1 ∨ k = 2)%Z
      as [-> | [-> | [-> | [-> | ->]]]] by lia;
      repeat (first [by left | right]). }
  apply list_elem_of_bind. exists kx. split; [|by apply Hr].
  apply list_elem_of_bind. exists ky. split; [|by apply Hr].
  apply list_elem_of_bind. exists kz. split; [|by apply Hr].
  by left.
Qed.

Lemma axisAligned_lattice q :
  axisAligned q -> ∃ e, e ∈ Exact.lattice ∧ q = Exact.toQuaternion e.
Proof.
  intros (kx & ky & kz & Hx & Hy & Hz & Hq).
  pose proof (eulerTriples_complete kx ky kz Hx Hy Hz) as Hk.
  destruct Hq as [-> | ->].
  - exists (Exact.setFromEuler (kx, ky, kz)). split.
    + apply list_elem_of_bind. eexists. split; [|exact Hk]. by left.
    + by rewrite toQuaternion_setFromEuler.
  - exists (Exact.negate (Exact.setFromEuler (kx, ky, kz))). split.
    + apply list_elem_of_bind. eexists. split; [|exact Hk]. right. by left.
    + by rewrite toQuaternion_negate, toQuaternion_setFromEuler.
Qed.

(** Snapping an exact orientation lands on quarter angles. *)
Lemma snapQuaternion_exact_aligned e e' :
  Exact.snapQuaternion e = Some e' -> axisAligned (Exact.toQuaternion e').
Proof.
  unfold Exact.snapQuaternion, Exact.snapAngles.
  destruct (Exact.setFromRotationMatrix _) as [[[kx ky] kz]|] eqn:E; [|done].
  intros [= <-].
  apply setFromRotationMatrix_exact in E as (_ & Hx & Hy & Hz).
  exists kx, ky, kz. repeat split; try lia. left.
  by apply toQuaternion_setFromEuler.
Qed.

Section TurnsA.
Import VariantA SpecA.

Lemma turn_unfold a dir q :
  Exact.turn a dir q
  = Exact.snapQuaternion (Exact.multiply (Exact.setFromAxisAngle a dir) q).
Proof. reflexivity. Qed.

(** One completed turn of an orientation, computed exactly. *)
Lemma turn_exact a dir e e' :
  dir = 1%Z ∨ dir = (-1)%Z ->
  Exact.turn a dir e = Some e' ->
  snapQuaternion (multiply (finalQuaternion a dir) (Exact.toQuaternion e))
  = Exact.toQuaternion e'.
Proof.
  intros Hd He. rewrite turn_unfold in He.
  rewrite <- (snapQuaternion_exact _ _ He).
  rewrite toQuaternion_multiply. do 2 f_equal.
  by apply setFromAxisAngle_exact.
Qed.

Lemma quarterMoves_complete a dir :
  dir = 1%Z ∨ dir = (-1)%Z -> (a, dir) ∈ Exact.quarterMoves.
Proof.
  intros [-> | ->]; destruct a; unfold Exact.quarterMoves;
    repeat (first [by left | right]).
Qed.

Lemma lattice_turnDefined :
  forallb (fun e =>
    forallb (fun m => Exact.defined (Exact.turn (fst m) (snd m) e))
            Exact.quarterMoves) Exact.lattice = true.
Proof. vm_compute. reflexivity. Qed.

Lemma lattice_turn4Returns :
  forallb (fun e =>
    forallb (fun m => Exact.returns (Exact.turn4 (fst m) (snd m) e) e)
            Exact.quarterMoves) Exact.lattice = true.
Proof. vm_compute. reflexivity. Qed.

Lemma eulerTriples_snapKeeps :
  forallb (fun k => Exact.returns
                      (Exact.snapQuaternion (Exact.setFromEuler k))
                      (Exact.setFromEuler k))
          Exact.eulerTriples = true.
Proof. vm_compute. reflexivity. Qed.

Lemma lattice_check (chk : Axis -> Z -> Exact.Quaternion -> bool) e a dir :
  forallb (fun e => forallb (fun m => chk (fst m) (snd m) e)
                            Exact.quarterMoves) Exact.lattice = true ->
  e ∈ Exact.lattice -> dir = 1%Z ∨ dir = (-1)%Z -> chk a dir e = true.
Proof.
  intros H He Hd. rewrite forallb_forall in H.
  apply list_elem_of_In, H in He. rewrite forallb_forall in He.
  apply (He (a, dir)), list_elem_of_In. by apply quarterMoves_complete.
Qed.

Lemma defined_spec o : Exact.defined o = true -> ∃ q, o = Some q.
Proof. destruct o; [eauto|done]. Qed.

Lemma returns_spec o q :
  Exact.returns o q = true ->
  ∃ q', o = Some q' ∧
        sameOrientation (Exact.toQuaternion q') (Exact.toQuaternion q).
Proof.
  destruct o as [q'|]; [|done]. cbn. intros H. exists q'. split; [done|].
  unfold sameOrientation. rewrite <- !toMatrix3_makeRotation.
  by apply matrix_eqb_sound.
Qed.

(** A completed turn keeps an axis-aligned orientation axis-aligned. *)
Lemma turn_aligned a dir q :
  dir = 1%Z ∨ dir = (-1)%Z -> axisAligned q ->
  axisAligned (turnOrientation a dir q).
Proof.
  intros Hd (e & He & ->)%axisAligned_lattice.
  destruct (defined_spec _
              (lattice_check (fun a dir e => Exact.defined (Exact.turn a dir e))
                 e a dir lattice_turnDefined He Hd)) as [e' E].
  unfold turnOrientation. rewrite (turn_exact a dir e e') by done.
  rewrite turn_unfold in E. by eapply snapQuaternion_exact_aligned.
Qed.

Lemma turn4_unfold a dir q :
  Exact.turn4 a dir q
  = Exact.turn a dir q ≫= fun q1 =>
    Exact.turn a dir q1 ≫= fun q2 =>
    Exact.turn a dir q2 ≫= fun q3 => Exact.turn a dir q3.
Proof. reflexivity. Qed.

(** Four completed turns about one axis in one direction bring an
    axis-aligned orientation back. *)
Lemma turn4_orientation a dir q :
  dir = 1%Z ∨ dir = (-1)%Z -> axisAligned q ->
  sameOrientation
    (turnOrientation a dir (turnOrientation a dir
       (turnOrientation a dir (turnOrientation a dir q)))) q.
Proof.
  intros Hd (e & He & ->)%axisAligned_lattice.
  destruct (returns_spec _ _
              (lattice_check
                 (fun a dir e => Exact.returns (Exact.turn4 a dir e) e)
                 e a dir lattice_turn4Returns He Hd)) as (e4 & E & H4).
  rewrite turn4_unfold in E.
  apply bind_Some in E as (e1 & E1 & E).
  apply bind_Some in E as (e2 & E2 & E).
  apply bind_Some in E as (e3 & E3 & E4).
  unfold turnOrientation.
  by rewrite (turn_exact a dir e e1), (turn_exact a dir e1 e2),
    (turn_exact a dir e2 e3), (turn_exact a dir e3 e4).
Qed.

(** Snapping is exact on quarter angles. *)
Lemma snapQuaternion_quarterAngles kx ky kz :
  (-2 <= kx <= 2)%Z -> (-2 <= ky <= 2)%Z -> (-2 <= kz <= 2)%Z ->
  sameOrientation (snapQuaternion (setFromEuler (quarterAngles kx ky kz)))
                  (setFromEuler (quarterAngles kx ky kz)).
Proof.
  intros Hx Hy Hz.
  pose proof eulerTriples_snapKeeps as H. rewrite forallb_forall in H.
  pose proof (eulerTriples_complete kx ky kz Hx Hy Hz) as Hk.
  apply list_elem_of_In, H, returns_spec in Hk as (e' & E & Hs).
  rewrite <- toQuaternion_setFromEuler by done.
  by rewrite (snapQuaternion_exact _ _ E).
Qed.
End TurnsA.

(** ** Snapping an arbitrary transform *)

Lemma atan2_bound (y x : R) : - Math.PI < Math.atan2 y x <= Math.PI.
Proof.
  unfold Math.atan2, Math.PI. pose proof PI_RGT_0 as Hpi.
  pose proof (atan_bound (y / x)) as Hb.
  destruct (Rlt_dec 0 x) as [Hx|Hx]; [lra|].
  destruct (Rlt_dec x 0) as [Hx'|Hx'].
  - destruct (Rle_dec 0 y) as [Hy|Hy].
    + assert (y / x <= 0) as Hq.
      { unfold Rdiv. assert (/ x < 0) by (by apply Rinv_lt_0_compat). nra. }
      assert (atan (y / x) <= 0).
      { destruct Hq as [Hq|Hq].
        - apply atan_increasing in Hq. rewrite atan_0 in Hq. lra.
        - rewrite Hq, atan_0. lra. }
      lra.
    + assert (0 < y / x) as Hq.
      { unfold Rdiv. assert (/ x < 0) by (by apply Rinv_lt_0_compat). nra. }
      apply atan_increasing in Hq. rewrite atan_0 in Hq. lra.
  - destruct (Rlt_dec 0 y); [lra|]. destruct (Rlt_dec y 0); lra.
Qed.

Lemma round_quarters (angle : R) :
  - Math.PI <= angle <= Math.PI ->
  (-2 <= Math.round (angle / (Math.PI / 2)) <= 2)%Z.
Proof.
  intros Ha. pose proof PI2_pos as Hp. unfold Math.round.
  assert (-2 <= angle / (Math.PI / 2) <= 2) as Hv.
  { set (h := Math.PI / 2) in *.
    assert (Math.PI = 2 * h) as Hph by (unfold h; lra).
    rewrite Hph in Ha. clearbody h.
    assert (0 < / h) as Hi by (by apply Rinv_0_lt_compat).
    assert (h * / h = 1) as Hr by (apply Rinv_r; lra).
    unfold Rdiv. nra. }
  pose proof (Zfloor_bound (angle / (Math.PI / 2) + / 2)) as [H1 H2].
  split.
  - apply Zfloor_lub. lra.
  - apply Z.lt_succ_r, lt_IZR. rewrite succ_IZR. lra.
Qed.

Section SnapA.
Import VariantA SpecA.

Lemma setFromRotationMatrix_bound m :
  let e := setFromRotationMatrix m in
  - Math.PI <= ex e <= Math.PI ∧ - Math.PI <= ey e <= Math.PI ∧
  - Math.PI <= ez e <= Math.PI.
Proof.
  unfold setFromRotationMatrix.
  pose proof (asin_bound (Math.clamp (m13 m) (-1) 1)) as Hy.
  pose proof PI_RGT_0 as Hpi. fold Math.PI in Hpi. unfold Math.PI in Hy.
  destruct (Math.ltb _ _); cbn [ex ey ez];
    repeat match goal with
           | |- context [Math.atan2 ?y ?x] =>
               pose proof (atan2_bound y x); generalize dependent (Math.atan2 y x); intros
           end; unfold Math.PI in *; lra.
Qed.

(** Whatever goes in, [snapQuaternion] returns the quaternion of three
    quarter angles. *)
Lemma snapQuaternion_angles q :
  ∃ kx ky kz : Z,
    (-2 <= kx <= 2)%Z ∧ (-2 <= ky <= 2)%Z ∧ (-2 <= kz <= 2)%Z ∧
    snapQuaternion q = setFromEuler (quarterAngles kx ky kz).
Proof.
  unfold snapQuaternion, setFromQuaternion.
  destruct (setFromRotationMatrix_bound (makeRotationFromQuaternion q))
    as (Hx & Hy & Hz).
  eexists _, _, _. split; [|split; [|split]]; [..|reflexivity];
    by apply round_quarters.
Qed.

Lemma snapQuaternion_aligned q : axisAligned (snapQuaternion q).
Proof.
  destruct (snapQuaternion_angles q) as (kx & ky & kz & ? & ? & ? & ->).
  exists kx, ky, kz. eauto.
Qed.

Lemma snapQuaternion_idempotent q :
  sameOrientation (snapQuaternion (snapQuaternion q)) (snapQuaternion q).
Proof.
  destruct (snapQuaternion_angles q) as (kx & ky & kz & ? & ? & ? & ->).
  by apply snapQuaternion_quarterAngles.
Qed.

Lemma round_gridPositionA gx gy gz :
  Math.round (vx (gridPosition gx gy gz) / (SEGMENT_SIZE + GAP) + offset) = gx ∧
  Math.round (vy (gridPosition gx gy gz) / (SEGMENT_SIZE + GAP) + offset) = gy ∧
  Math.round (vz (gridPosition gx gy gz) / (SEGMENT_SIZE + GAP) + offset) = gz.
Proof.
  pose proof spacing_neq. unfold gridPosition. rewrite offset_value.
  cbn [vx vy vz]. repeat split; apply round_eq; by field.
Qed.

Lemma snapCube_onGrid c :
  onGrid c ->
  userData (snapCube c) = userData c ∧ position (snapCube c) = position c.
Proof.
  intros Hc. unfold snapCube. cbn [userData position]. rewrite Hc.
  destruct (round_gridPositionA (x (userData c)) (y (userData c))
              (z (userData c))) as (-> & -> & ->).
  split; [by destruct (userData c)|done].
Qed.

Lemma snapCube_idempotent c :
  userData (snapCube (snapCube c)) = userData (snapCube c) ∧
  position (snapCube (snapCube c)) = position (snapCube c) ∧
  sameOrientation (quaternion (snapCube (snapCube c)))
                  (quaternion (snapCube c)) ∧
  dots (snapCube (snapCube c)) = dots (snapCube c).
Proof.
  destruct (snapCube_onGrid (snapCube c)) as [Hu Hp]; [done|].
  repeat split; [done..|]. apply snapQuaternion_idempotent.
Qed.
End SnapA.

(** ** The solved detector *)

Section SolvedA.
Import VariantA SpecA.

Lemma group_cons f p c wd :
  group f ((p, c) :: wd)
  = if decide (classify p = Some f) then c :: group f wd else group f wd.
Proof.
  unfold group. rewrite filter_cons. cbn [fst].
  by destruct (decide (classify p = Some f)).
Qed.

(** Filing one dot appends its color to the group of its class and to
    no other. *)
Lemma pushDot_groups p c fd f :
  let fd' := pushDot p c fd in
  let pick (fd : FaceDots) :=
    match f with
    | PosX => posX fd | NegX => negX fd | PosY => posY fd
    | NegY => negY fd | PosZ => posZ fd | NegZ => negZ fd
    end in
  pick fd' = if decide (classify p = Some f) then pick fd ++ [c] else pick fd.
Proof.
  unfold pushDot, classify, allFaces. cbn [find beyond].
  destruct (Math.gtb (vx p) threshold);
    [by destruct f; cbn; case_decide|].
  destruct (Math.ltb (vx p) (- threshold));
    [by destruct f; cbn; case_decide|].
  destruct (Math.gtb (vy p) threshold);
    [by destruct f; cbn; case_decide|].
  destruct (Math.ltb (vy p) (- threshold));
    [by destruct f; cbn; case_decide|].
  destruct (Math.gtb (vz p) threshold);
    [by destruct f; cbn; case_decide|].
  destruct (Math.ltb (vz p) (- threshold));
    by destruct f; cbn; case_decide.
Qed.

Lemma fold_pushDot wd fd f :
  let pick (fd : FaceDots) :=
    match f with
    | PosX => posX fd | NegX => negX fd | PosY => posY fd
    | NegY => negY fd | PosZ => posZ fd | NegZ => negZ fd
    end in
  pick (fold_left (fun fd d => pushDot (fst d) (snd d) fd) wd fd)
  = pick fd ++ group f wd.
Proof.
  intros pick. revert fd.
  induction wd as [|[p c] wd IH]; intros fd.
  - cbn. by rewrite app_nil_r.
  - cbn [fold_left fst snd]. rewrite IH, group_cons.
    pose proof (pushDot_groups p c fd f) as H. cbn zeta in H.
    fold pick in H. rewrite H.
    destruct (decide _); [by rewrite <- app_assoc|done].
Qed.

(** The six lists the detector builds are the six classes. *)
Lemma collectDots_groups wd :
  entries (collectDots wd) = (fun f => group f wd) <$> allFaces.
Proof.
  unfold entries, collectDots, allFaces. cbn [fmap list_fmap].
  pose proof (fun f => fold_pushDot wd (mkFaceDots [] [] [] [] [] []) f) as H.
  cbn zeta in H.
  by rewrite (H PosX), (H NegX), (H PosY), (H NegY), (H PosZ), (H NegZ).
Qed.

Lemma faceOk_spec colors :
  faceOk colors = true ↔ length colors = 9%nat ∧ uniform colors.
Proof.
  unfold faceOk, uniform.
  destruct (Nat.eqb_spec (length colors) 9) as [Hl|Hl]; cbn.
  - destruct colors as [|c0 colors]; [done|].
    rewrite forallb_forall. split.
    + intros H. split; [done|]. intros c c' Hc Hc'.
      apply list_elem_of_In, H, Z.eqb_eq in Hc.
      apply list_elem_of_In, H, Z.eqb_eq in Hc'. congruence.
    + intros [_ H] c Hc. apply Z.eqb_eq, H; [by apply list_elem_of_In|by left].
  - split; [done|]. by intros [? _].
Qed.

Lemma checkDots_spec wd :
  checkDots wd = true ↔
  ∀ f, length (group f wd) = 9%nat ∧ uniform (group f wd).
Proof.
  unfold checkDots. rewrite collectDots_groups, forallb_forall. split.
  - intros H f. apply faceOk_spec, H, list_elem_of_In.
    apply (list_elem_of_fmap_2 (fun f => group f wd)).
    unfold allFaces. destruct f; repeat (first [by left | right]).
  - intros H l (f & -> & _)%list_elem_of_In%list_elem_of_fmap.
    by apply faceOk_spec.
Qed.

(** ** The solved toggle *)

Lemma checkForSolve_unarmed s :
  hasBeenMixed s = false ->
  checkForSolve s = (false, withHasBeenMixed true s).
Proof. intros H. unfold checkForSolve, checkForSolveWith. by rewrite H. Qed.

Lemma checkForSolve_fires s :
  hasBeenMixed s = true -> checkIfSolved s = true ->
  checkForSolve s
  = (true,
     withHasBeenMixed false
       (withDisplay
          (mkDisplay (negb (isDarkMode (display s)))
                     (negb (isDarkMode (display s)))
                     (negb (isDarkMode (display s)))
                     (negb (isDarkMode (display s)))
                     (if negb (isDarkMode (display s)) then Some (-1)%Z
                      else materialPreset (display s))) s)).
Proof.
  intros H Hs. unfold checkForSolve, checkForSolveWith. by rewrite H, Hs.
Qed.

Lemma checkForSolve_unsolved s :
  hasBeenMixed s = true -> checkIfSolved s = false ->
  checkForSolve s = (false, s).
Proof.
  intros H Hs. unfold checkForSolve, checkForSolveWith. by rewrite H, Hs.
Qed.
End SolvedA.

(** ** The cube as built is solved *)

Section BuiltSolved.
Import VariantA SpecA.

Lemma group_app f wd1 wd2 : group f (wd1 ++ wd2) = group f wd1 ++ group f wd2.
Proof. unfold group. by rewrite filter_app, fmap_app. Qed.

Lemma group_dotsInPlace f g cube :
  dotsInPlace g cube ->
  group f ((fun d => (getWorldPosition g cube d, colorHex d)) <$> dots cube)
  = colorHex <$> filter (fun d => faceOf (faceIndex d) = f) (dots cube).
Proof.
  unfold dotsInPlace. induction 1 as [|d ds Hd Hds IH]; [done|].
  rewrite fmap_cons, group_cons, IH, Hd, filter_cons.
  destruct (decide (faceOf (faceIndex d) = f)) as [Hf|Hf].
  - by rewrite decide_True by congruence.
  - by rewrite decide_False by congruence.
Qed.

Lemma group_worldDots f g cubes :
  Forall (dotsInPlace g) cubes ->
  group f (worldDots g cubes) = createdFor f cubes.
Proof.
  unfold worldDots, createdFor. induction 1 as [|c cs Hc Hcs IH]; [done|].
  cbn [mbind list_bind]. rewrite group_app, IH.
  by rewrite group_dotsInPlace.
Qed.

Lemma getWorldPosition_rest cube dot :
  quaternion cube = identityQuaternion ->
  getWorldPosition (mkEuler 0 0 0) cube dot
  = add (position cube) (dotPosition dot).
Proof.
  intros Hq. unfold getWorldPosition, setFromEuler. rewrite Hq.
  cbn [ex ey ez]. replace (0 / 2) with 0 by lra. rewrite sin_0, cos_0.
  unfold makeRotationFromQuaternion, applyMatrix3, add, identityQuaternion.
  cbn. f_equal; ring.
Qed.

Lemma segmentRange_bounds g : g ∈ segmentRange -> (0 <= g <= 2)%Z.
Proof.
  unfold segmentRange. cbn. intros H.
  repeat (apply elem_of_cons in H as [-> | H]; [lia|]).
  by apply elem_of_nil in H.
Qed.

Lemma buildCube_dotsInPlace gx gy gz c :
  (0 <= gx <= 2)%Z -> (0 <= gy <= 2)%Z -> (0 <= gz <= 2)%Z ->
  buildCube gx gy gz = Some c -> dotsInPlace (mkEuler 0 0 0) c.
Proof.
  intros Hx Hy Hz Hc. unfold dotsInPlace.
  apply Forall_forall. intros d Hd.
  rewrite getWorldPosition_rest
    by (by apply buildCube_spec in Hc as (_ & _ & ?)).
  unfold buildCube in Hc. change (SEGMENTS - 1)%Z with 2%Z in Hc.
  destruct (negb _); [done|].
  injection Hc as <-. cbn [dots position] in *.
  assert (0 <= IZR gx <= 2 ∧ 0 <= IZR gy <= 2 ∧ 0 <= IZR gz <= 2)
    as (Hrx & Hry & Hrz)
    by (repeat split; apply IZR_le; lia).
  unfold SEGMENTS in *.
  repeat (apply elem_of_app in Hd as [Hd | Hd]);
    match type of Hd with
    | _ ∈ (if (?a =? ?b)%Z then _ else _) =>
        destruct (Z.eqb_spec a b) as [He|He];
        [apply list_elem_of_singleton in Hd as ->
        |by apply elem_of_nil in Hd]
    end; subst;
    unfold classify, allFaces, beyond, gridPosition, offset, add, createDot,
      threshold, SEGMENT_SIZE, GAP, CUBE_SIZE, SEGMENTS, Math.gtb, Math.ltb;
    cbn [find vx vy vz dotPosition faceIndex faceOf];
    repeat (destruct (Rlt_dec _ _) as [?|?]; try done; try (exfalso; lra)).
Qed.

Lemma buildCubes_dotsInPlace : Forall (dotsInPlace (mkEuler 0 0 0)) buildCubes.
Proof.
  unfold buildCubes. apply Forall_forall. intros c Hc.
  apply list_elem_of_bind in Hc as (gx & Hc & Hx%segmentRange_bounds).
  apply list_elem_of_bind in Hc as (gy & Hc & Hy%segmentRange_bounds).
  apply list_elem_of_bind in Hc as (gz & Hc & Hz%segmentRange_bounds).
  destruct (buildCube gx gy gz) as [c'|] eqn:E.
  - apply list_elem_of_singleton in Hc as ->.
    by apply (buildCube_dotsInPlace gx gy gz).
  - by apply elem_of_nil in Hc.
Qed.

Lemma buildCubes_createdFor f :
  faceOk (createdFor f buildCubes) = true.
Proof. destruct f; reflexivity. Qed.

(** The cube as built, seen without any display rotation, is solved. *)
Lemma built_solved s :
  smallCubes s = buildCubes -> cubeGroupRotation s = mkEuler 0 0 0 ->
  checkIfSolved s = true.
Proof.
  intros Hc Hg. unfold checkIfSolved. rewrite Hc, Hg.
  apply checkDots_spec. intros f.
  rewrite group_worldDots by apply buildCubes_dotsInPlace.
  apply faceOk_spec, buildCubes_createdFor.
Qed.
End BuiltSolved.

(** What [checkIfSolved] files under a face are the dots seen on it. *)
Lemma group_seenOn f g cubes :
  SpecA.group f (VariantA.worldDots g cubes) = SpecA.seenOn f g cubes.
Proof.
  unfold VariantA.worldDots, SpecA.seenOn.
  induction cubes as [|c cs IH]; [done|].
  cbn [mbind list_bind]. rewrite group_app, IH. f_equal.
  induction (VariantA.dots c) as [|d ds IHd]; [done|].
  rewrite fmap_cons, group_cons, IHd, filter_cons.
  by destruct (decide (SpecA.classify (VariantA.getWorldPosition g c d)
                       = Some f)).
Qed.

(** On the cube as built every dot is seen on the face it was created
    for. *)
Lemma seenOn_createdFor f g cubes :
  Forall (SpecA.dotsInPlace g) cubes ->
  SpecA.seenOn f g cubes = SpecA.createdFor f cubes.
Proof.
  intros H. rewrite <- group_seenOn. by apply group_worldDots.
Qed.

(** ** The page under face navigation *)

Section NavigationA.
Import VariantA SpecA.

Lemma faceToMove_outer face move :
  faceToMove face = Some move ->
  ((index move = 0 ∨ index move = 2) ∧
   (direction move = 1 ∨ direction move = -1))%Z.
Proof.
  unfold faceToMove.
  destruct face as [|p|p]; [|do 3 (try destruct p as [p|p|])|];
    intros H; try discriminate H; injection H as <-; cbn; lia.
Qed.

(** A quarter turn of an outer slice keeps its face center. *)
Lemma quarterTurn_center a i dir u :
  u ∈ faceCenters -> coordinate a u = i -> (i = 0 ∨ i = 2)%Z ->
  quarterTurn a dir u = u.
Proof.
  unfold faceCenters. intros Hu Hc Hi.
  repeat (apply elem_of_cons in Hu as [-> | Hu]);
    [..|by apply elem_of_nil in Hu];
    destruct a; cbn in *; try lia; f_equal; lia.
Qed.

Lemma centersKept_turnSlice a i dir cubes :
  (i = 0 ∨ i = 2)%Z -> (dir = 1 ∨ dir = -1)%Z ->
  Forall onGrid cubes -> centersKept cubes ->
  centersKept (turnSlice a i dir cubes).
Proof.
  intros Hi Hd Hg Hk j c Hj Hc.
  destruct (Hk j c Hj Hc) as (c' & Hc' & Hu).
  rewrite (turnSlice_lookup _ _ _ _ _ _ Hc').
  eexists. split; [done|].
  rewrite inSlice_coordinate. case_bool_decide as Hin; [|done].
  rewrite turnCube_userData; [|done|by eapply Forall_lookup_1 in Hg].
  rewrite Hu in *. rewrite (quarterTurn_center a i dir); done.
Qed.

Lemma centersKept_posed q a i cubes :
  centersKept cubes -> centersKept (posed q a i cubes).
Proof.
  intros Hk j c Hj Hc. destruct (Hk j c Hj Hc) as (c' & Hc' & Hu).
  unfold posed. rewrite list_lookup_fmap, Hc'. cbn.
  eexists. split; [done|]. by destruct (inSlice a i c').
Qed.

Lemma centersKept_buildCubes : centersKept buildCubes.
Proof. intros j c Hj _. eauto. Qed.

Lemma navigated_initial : navigated initialState.
Proof.
  exists buildCubes. split; [apply buildCubes_onGrid|].
  split; [apply centersKept_buildCubes|]. by left.
Qed.

(** [navigated] only looks at the sub-cubes and the rotation in flight. *)
Lemma navigated_ext s s' :
  smallCubes s' = smallCubes s -> isAnimating s' = isAnimating s ->
  animation s' = animation s -> navigated s -> navigated s'.
Proof.
  intros Hc Ha Hn (cubes & Hg & Hk & H). exists cubes.
  rewrite Hc, Ha, Hn. done.
Qed.

Lemma navigated_frame now s cubes a i dir k t0 :
  Forall onGrid cubes -> centersKept cubes ->
  animation s = Some (newAnimation a i dir k t0 cubes) ->
  isAnimating s = true ->
  sameButPose a i (smallCubes s) cubes ->
  (i = 0 ∨ i = 2)%Z -> (dir = 1 ∨ dir = -1)%Z ->
  navigated (animateSlice now s).
Proof.
  intros Hg Hk Ha Hs Hp Hi Hd.
  rewrite (animateSlice_frame now s a i dir k t0 cubes) by done.
  destruct (Math.ltb _ 1).
  - exists cubes. split; [done|]. split; [done|]. right.
    split; [done|]. eexists a, i, dir, k, t0, _. done.
  - exists (turnSlice a i dir cubes).
    split; [by apply turnSlice_onGrid|].
    split; [by apply centersKept_turnSlice|]. left.
    destruct (resolve_fields k (finish (turnSlice a i dir cubes) s))
      as (-> & -> & -> & _). done.
Qed.

Lemma navigateResume_fields face s :
  smallCubes (navigateResume face s) = smallCubes s ∧
  isAnimating (navigateResume face s) = isAnimating s ∧
  animation (navigateResume face s) = animation s ∧
  moveHistory (navigateResume face s) = moveHistory s ∧
  isSolved (navigateResume face s) = isSolved s.
Proof.
  destruct (resolve_fields (Some face) s) as (? & ? & ? & ? & ? & _).
  done.
Qed.

Lemma checkForSolve_fields s :
  smallCubes (snd (checkForSolve s)) = smallCubes s ∧
  isAnimating (snd (checkForSolve s)) = isAnimating s ∧
  animation (snd (checkForSolve s)) = animation s ∧
  moveHistory (snd (checkForSolve s)) = moveHistory s ∧
  isSolved (snd (checkForSolve s)) = isSolved s.
Proof.
  unfold checkForSolve, checkForSolveWith.
  destruct (negb (hasBeenMixed s)); [done|].
  by destruct (checkIfSolved s).
Qed.

(** Every event keeps the page [navigated]. *)
Lemma navigated_step s e : navigated s -> navigated (step s e).
Proof.
  intros Hn. destruct e as [|face t0 t1|now| |rx ry]; cbn [step].
  - destruct (introComplete s); [done|]. by eapply navigated_ext.
  - unfold navigateToFace.
    destruct (isAnimating s) eqn:Hs; [done|]. cbn [orb].
    destruct (negb (introComplete s)); [done|].
    destruct (faceToMove face) as [move|] eqn:Hm.
    + destruct (faceToMove_outer _ _ Hm) as [Hi Hd].
      destruct Hn as (cubes & Hg & Hk & [(_ & Hnone & Hc) | (Ha & _)]);
        [|congruence].
      rewrite rotateSlice_begin by done.
      eapply (navigated_frame _ _ cubes); [done..| | | |done|done].
      * cbn. by rewrite Hc.
      * done.
      * cbn. rewrite Hc. apply sameButPose_refl.
    + destruct (navigateResume_fields face s) as (? & ? & ? & _).
      by eapply navigated_ext.
  - destruct Hn as (cubes & Hg & Hk & [(Hs & Hnone & Hc) | (Hs & H)]).
    + unfold animateSlice. rewrite Hnone.
      exists cubes. split; [done|]. split; [done|]. by left.
    + destruct H as (a & i & dir & k & t0 & q & Ha & Hc & Hi & Hd).
      eapply (navigated_frame _ _ cubes); [done..| |done|done].
      rewrite Hc. apply sameButPose_posed.
  - destruct (solveTimers s) as [|n]; [done|].
    destruct (checkForSolve_fields
                (mkState (smallCubes s) (cubeGroupRotation s)
                   (introComplete s) (isAnimating s) (animation s)
                   (moveHistory s) (isSolved s) (hasBeenMixed s)
                   (display s) (currentFace s) n)) as (? & ? & ? & _).
    by eapply navigated_ext.
  - by eapply navigated_ext.
Qed.

Lemma navigated_run es s : navigated s -> navigated (run s es).
Proof.
  revert s. induction es as [|e es IH]; intros s Hs; [done|].
  change (run s (e :: es)) with (run (step s e) es).
  apply IH. by apply navigated_step.
Qed.

Lemma navigated_centersKept s : navigated s -> centersKept (smallCubes s).
Proof.
  intros (cubes & Hg & Hk & [(_ & _ & ->) | (_ & H)]); [done|].
  destruct H as (a & i & dir & k & t0 & q & _ & -> & _).
  by apply centersKept_posed.
Qed.




End NavigationA.

(** ** Four turns of one slice *)

Lemma quarterTurn4 a dir u :
  dir = 1%Z ∨ dir = (-1)%Z ->
  quarterTurn a dir (quarterTurn a dir (quarterTurn a dir (quarterTurn a dir u)))
  = u.
Proof.
  intros [-> | ->]; destruct a, u as [ux uy uz]; cbn; f_equal; lia.
Qed.

Section FourTurnsA.
Import VariantA SpecA.

Lemma initialState_aligned : aligned initialState.
Proof.
  unfold aligned. cbn. unfold buildCubes. apply Forall_forall. intros c Hc.
  apply list_elem_of_bind in Hc as (gx & Hc & _).
  apply list_elem_of_bind in Hc as (gy & Hc & _).
  apply list_elem_of_bind in Hc as (gz & Hc & _).
  destruct (buildCube gx gy gz) as [c'|] eqn:E;
    [|by apply elem_of_nil in Hc].
  apply list_elem_of_singleton in Hc as ->.
  apply buildCube_spec in E as (_ & _ & ->).
  exists 0%Z, 0%Z, 0%Z. repeat split; try lia. left.
  unfold setFromEuler, quarterAngles, identityQuaternion. cbn.
  replace (0 * (Math.PI / 2) / 2) with 0 by lra.
  rewrite sin_0, cos_0. f_equal; ring.
Qed.

Lemma turnCube_inSlice a i dir c :
  dir = 1%Z ∨ dir = (-1)%Z -> onGrid c ->
  inSlice a i (turnCube a dir c) = inSlice a i c.
Proof.
  intros Hd Hc. rewrite !inSlice_coordinate, turnCube_userData by done.
  by rewrite quarterTurn_coordinate.
Qed.

Lemma quaternion_turnCube a dir c :
  quaternion (turnCube a dir c) = turnOrientation a dir (quaternion c).
Proof. reflexivity. Qed.

Lemma completed_aligned a i dir rec k s :
  dir = 1%Z ∨ dir = (-1)%Z -> aligned s ->
  aligned (completed a i dir rec k s).
Proof.
  intros Hd Ha. unfold aligned.
  destruct (completed_cubes a i dir rec k s) as (-> & _).
  unfold turnSlice. apply Forall_fmap.
  eapply Forall_impl; [exact Ha|]. intros c Hc. cbn.
  destruct (inSlice a i c); [|done].
  rewrite quaternion_turnCube. by apply turn_aligned.
Qed.

(** A sub-cube of the slice after four completed turns of the slice. *)
Lemma turnCube4 a dir c :
  dir = 1%Z ∨ dir = (-1)%Z -> onGrid c -> axisAligned (quaternion c) ->
  let c4 := turnCube a dir (turnCube a dir (turnCube a dir (turnCube a dir c)))
  in userData c4 = userData c ∧ position c4 = position c ∧
     sameOrientation (quaternion c4) (quaternion c).
Proof.
  intros Hd Hg Ha c4.
  assert (userData c4 = userData c) as Hu.
  { unfold c4. rewrite !turnCube_userData by (done || apply turnCube_onGrid).
    by apply quarterTurn4. }
  repeat split; [done| |].
  - assert (onGrid c4) as -> by apply turnCube_onGrid. by rewrite Hu.
  - unfold c4. rewrite !quaternion_turnCube.
    by apply turn4_orientation.
Qed.

Lemma turnSlice4_lookup a i dir cubes j c :
  dir = 1%Z ∨ dir = (-1)%Z -> Forall onGrid cubes ->
  cubes !! j = Some c ->
  turnSlice a i dir (turnSlice a i dir (turnSlice a i dir
    (turnSlice a i dir cubes))) !! j
  = Some (if inSlice a i c
          then turnCube a dir (turnCube a dir (turnCube a dir
                 (turnCube a dir c)))
          else c).
Proof.
  intros Hd Hg Hj.
  assert (onGrid c) as Hc by (by eapply Forall_lookup_1 in Hg).
  rewrite (turnSlice_lookup a i dir _ j
             (if inSlice a i c
              then turnCube a dir (turnCube a dir (turnCube a dir c))
              else c)).
  - destruct (inSlice a i c) eqn:Hin; [|by rewrite Hin].
    by rewrite !turnCube_inSlice, Hin by (done || apply turnCube_onGrid).
  - rewrite (turnSlice_lookup a i dir _ j
               (if inSlice a i c
                then turnCube a dir (turnCube a dir c) else c)).
    + destruct (inSlice a i c) eqn:Hin; [|by rewrite Hin].
      by rewrite !turnCube_inSlice, Hin by (done || apply turnCube_onGrid).
    + rewrite (turnSlice_lookup a i dir _ j
                 (if inSlice a i c then turnCube a dir c else c)).
      * destruct (inSlice a i c) eqn:Hin; [|by rewrite Hin].
        by rewrite !turnCube_inSlice, Hin by done.
      * by rewrite (turnSlice_lookup a i dir cubes j c).
Qed.
End FourTurnsA.

Section FourTurnsB.
Import VariantB SpecB.

Lemma setFromEuler_full_turn (e : Euler) (a : Axis) (dir : Z) (v : R) :
  dir = 1%Z ∨ dir = (-1)%Z ->
  v = match a with AxisX => ex e | AxisY => ey e | AxisZ => ez e end
      + 4 * (Math.PI / 2 * IZR dir) ->
  sameOrientation (setFromEuler (setAxis a v e)) (setFromEuler e).
Proof.
  intros Hd ->.
  assert (setFromEuler (setAxis a
            (match a with AxisX => ex e | AxisY => ey e | AxisZ => ez e end
             + 4 * (Math.PI / 2 * IZR dir)) e)
          = negateQuaternion (setFromEuler e)) as ->;
    [|apply sameOrientation_negate].
  unfold Math.PI.
  assert (∀ t, cos ((t + 4 * (PI / 2 * IZR dir)) / 2) = - cos (t / 2)
               ∧ sin ((t + 4 * (PI / 2 * IZR dir)) / 2) = - sin (t / 2)) as H.
  { intros t. destruct Hd as [-> | ->].
    - replace ((t + 4 * (PI / 2 * 1)) / 2) with (t / 2 + PI) by lra.
      by rewrite neg_cos, neg_sin.
    - replace ((t + 4 * (PI / 2 * -1)) / 2) with (t / 2 - PI) by lra.
      unfold Rminus. rewrite cos_plus, sin_plus, cos_neg, sin_neg,
        cos_PI, sin_PI. split; ring. }
  unfold setFromEuler, negateQuaternion, setAxis.
  destruct e as [x0 y0 z0], a; cbn [ex ey ez qx qy qz qw];
    match goal with
    | |- context [cos ((?t + _) / 2)] =>
        destruct (H t) as [-> ->]
    end; f_equal; ring.
Qed.

Lemma settle_spec a dir c :
  dir = 1%Z ∨ dir = (-1)%Z -> onGrid c ->
  userData (settle a dir c) = quarterTurn a dir (userData c) ∧
  onGrid (settle a dir c) ∧
  (∀ i, inSlice a i (settle a dir c) = inSlice a i c).
Proof.
  intros Hd Hc. destruct (settleCube_spec a dir c Hd Hc) as [Hu Hg].
  repeat split; [done..|]. intros i.
  rewrite !inSliceB_coordinate. unfold settle. rewrite Hu.
  by rewrite quarterTurn_coordinate.
Qed.

Lemma settleSlice_rest_lookup a i dir cubes j c :
  cubes !! j = Some c ->
  settleSlice a i dir (mkEuler 0 0 0) cubes !! j
  = Some (if inSlice a i c then settle a dir c else c).
Proof. apply settleSlice_lookup. Qed.

Lemma settle4 a dir c :
  dir = 1%Z ∨ dir = (-1)%Z -> onGrid c ->
  let c4 := settle a dir (settle a dir (settle a dir (settle a dir c))) in
  userData c4 = userData c ∧ position c4 = position c ∧
  sameOrientation (quaternion c4) (quaternion c).
Proof.
  intros Hd Hg c4.
  destruct (settle_spec a dir c Hd Hg) as (Hu1 & Hg1 & _).
  destruct (settle_spec a dir _ Hd Hg1) as (Hu2 & Hg2 & _).
  destruct (settle_spec a dir _ Hd Hg2) as (Hu3 & Hg3 & _).
  destruct (settle_spec a dir _ Hd Hg3) as (Hu4 & Hg4 & _).
  assert (userData c4 = userData c) as Hu.
  { unfold c4. rewrite Hu4, Hu3, Hu2, Hu1. by apply quarterTurn4. }
  repeat split; [done| |].
  - unfold c4. rewrite Hg4. fold c4. by rewrite Hu.
  - unfold quaternion, c4, settle, settleCube. cbn [rotation].
    set (h := Math.PI / 2 * IZR dir).
    destruct (rotation c) as [rx ry rz].
    destruct a; cbn [setAxis ex ey ez].
    + replace (mkEuler (rx + h + h + h + h) (ry + 0 + 0 + 0 + 0)
                       (rz + 0 + 0 + 0 + 0))
        with (setAxis AxisX (rx + 4 * h) (mkEuler rx ry rz))
        by (cbn; f_equal; lra).
      by apply (setFromEuler_full_turn _ AxisX dir).
    + replace (mkEuler (rx + 0 + 0 + 0 + 0) (ry + h + h + h + h)
                       (rz + 0 + 0 + 0 + 0))
        with (setAxis AxisY (ry + 4 * h) (mkEuler rx ry rz))
        by (cbn; f_equal; lra).
      by apply (setFromEuler_full_turn _ AxisY dir).
    + replace (mkEuler (rx + 0 + 0 + 0 + 0) (ry + 0 + 0 + 0 + 0)
                       (rz + h + h + h + h))
        with (setAxis AxisZ (rz + 4 * h) (mkEuler rx ry rz))
        by (cbn; f_equal; lra).
      by apply (setFromEuler_full_turn _ AxisZ dir).
Qed.

Lemma settleSlice4_lookup a i dir cubes j c :
  dir = 1%Z ∨ dir = (-1)%Z -> Forall onGrid cubes ->
  cubes !! j = Some c ->
  settleSlice a i dir (mkEuler 0 0 0) (settleSlice a i dir (mkEuler 0 0 0)
    (settleSlice a i dir (mkEuler 0 0 0)
       (settleSlice a i dir (mkEuler 0 0 0) cubes))) !! j
  = Some (if inSlice a i c
          then settle a dir (settle a dir (settle a dir (settle a dir c)))
          else c).
Proof.
  intros Hd Hg Hj.
  assert (onGrid c) as Hc by (by eapply Forall_lookup_1 in Hg).
  destruct (settle_spec a dir c Hd Hc) as (_ & Hg1 & Hi1).
  destruct (settle_spec a dir _ Hd Hg1) as (_ & Hg2 & Hi2).
  destruct (settle_spec a dir _ Hd Hg2) as (_ & Hg3 & Hi3).
  rewrite (settleSlice_rest_lookup a i dir _ j
             (if inSlice a i c
              then settle a dir (settle a dir (settle a dir c)) else c)).
  - destruct (inSlice a i c) eqn:Hin; [|by rewrite Hin].
    by rewrite Hi3, Hi2, Hi1, Hin.
  - rewrite (settleSlice_rest_lookup a i dir _ j
               (if inSlice a i c then settle a dir (settle a dir c) else c)).
    + destruct (inSlice a i c) eqn:Hin; [|by rewrite Hin].
      by rewrite Hi2, Hi1, Hin.
    + rewrite (settleSlice_rest_lookup a i dir _ j
                 (if inSlice a i c then settle a dir c else c)).
      * destruct (inSlice a i c) eqn:Hin; [|by rewrite Hin].
        by rewrite Hi1, Hin.
      * by rewrite (settleSlice_rest_lookup a i dir cubes j c).
Qed.
End FourTurnsB.

(** * The claims of the specification *)

(** * The claims *)

Section InitialB.
Import VariantB SpecB.

Lemma buildCubeB_spec gx gy gz c :
  buildCube gx gy gz = Some c ->
  userData c = mkUserData gx gy gz ∧ onGrid c ∧ rotation c = mkEuler 0 0 0.
Proof.
  unfold buildCube. destruct (negb _); [done|]. by intros [= <-].
Qed.

Lemma buildCubesB_userData : userData <$> buildCubes = shell.
Proof. unfold buildCubes, shell. reflexivity. Qed.

Lemma buildCubesB_onGrid : Forall onGrid buildCubes.
Proof.
  unfold buildCubes. apply Forall_forall. intros c Hc.
  apply list_elem_of_bind in Hc as (gx & Hc & _).
  apply list_elem_of_bind in Hc as (gy & Hc & _).
  apply list_elem_of_bind in Hc as (gz & Hc & _).
  destruct (buildCube gx gy gz) as [c'|] eqn:E.
  - apply list_elem_of_singleton in Hc as ->.
    by apply buildCubeB_spec in E as (_ & ? & _).
  - by apply elem_of_nil in Hc.
Qed.

Lemma initialStateB_atRest : atRest initialState.
Proof.
  repeat split; cbn.
  - by rewrite buildCubesB_userData.
  - apply buildCubesB_onGrid.
Qed.

Lemma rotateSliceB_early a i dir t0 t1 s :
  isAnimating s = false -> ¬ duration <= t1 - t0 ->
  ∃ v, rotateSlice a i dir t0 t1 s = inflight v a i dir t0 s.
Proof.
  intros Hs Hn. unfold rotateSlice. rewrite Hs, moved_frame.
  pose proof (animateSliceB_frame t1 a i dir t0 s (rotationGroupRotation s))
    as H.
  unfold newAnimation in H. rewrite H by done.
  assert (Math.ltb (Math.min ((t1 - t0) / duration) 1) 1 = true) as ->.
  { unfold Math.ltb, Math.min, duration in *.
    destruct (Rlt_dec _ _) as [|Hge]; [done|]. exfalso.
    apply Hge. rewrite Rmin_left by lra. lra. }
  eauto.
Qed.
End InitialB.

Lemma sampleTiming_completes :
  completes VariantA.duration sampleTiming ∧
  completes VariantB.duration sampleTiming.
Proof.
  unfold completes, sampleTiming, VariantA.duration, VariantB.duration. cbn.
  split; do 3 apply Exists_cons_tl; apply Exists_cons_hd; lra.
Defined.

(** C1.  From a rest state (no rotation in flight, the sub-cubes on the 26
    shell slots, one each) every valid move that runs to completion clears
    [isAnimating], permutes the grid coordinates of the slice among
    themselves, loses, duplicates or pushes out of {0,1,2} no coordinate,
    and leaves every sub-cube outside the slice as it was.  Both
    variants. *)
Theorem C1_rotation_permutes_slice :
  (∀ (s : VariantA.State) a i dir recordMove tm,
     SpecA.atRest s -> (0 <= i <= 2)%Z -> dir = 1%Z ∨ dir = (-1)%Z ->
     completes VariantA.duration tm ->
     let s' := SpecA.rotationRun a i dir recordMove tm s in
     VariantA.isAnimating s' = false ∧
     SpecA.sliceCoordinates a i s' ≡ₚ SpecA.sliceCoordinates a i s ∧
     VariantA.userData <$> VariantA.smallCubes s'
       ≡ₚ VariantA.userData <$> VariantA.smallCubes s ∧
     NoDup (VariantA.userData <$> VariantA.smallCubes s') ∧
     Forall inRange (VariantA.userData <$> VariantA.smallCubes s') ∧
     (∀ j c, VariantA.smallCubes s !! j = Some c ->
        coordinate a (VariantA.userData c) ≠ i ->
        VariantA.smallCubes s' !! j = Some c)) ∧
  (∀ (s : VariantB.State) a i dir tm,
     SpecB.atRest s -> (0 <= i <= 2)%Z -> dir = 1%Z ∨ dir = (-1)%Z ->
     completes VariantB.duration tm ->
     let s' := SpecB.rotationRun a i dir tm s in
     VariantB.isAnimating s' = false ∧
     SpecB.sliceCoordinates a i s' ≡ₚ SpecB.sliceCoordinates a i s ∧
     VariantB.userData <$> VariantB.smallCubes s'
       ≡ₚ VariantB.userData <$> VariantB.smallCubes s ∧
     NoDup (VariantB.userData <$> VariantB.smallCubes s') ∧
     Forall inRange (VariantB.userData <$> VariantB.smallCubes s') ∧
     (∀ j c, VariantB.smallCubes s !! j = Some c ->
        coordinate a (VariantB.userData c) ≠ i ->
        VariantB.smallCubes s' !! j = Some c)).
Proof.
  split.
  - intros s a i dir rec tm Hs Hi Hd Hc s'. unfold s'.
    rewrite rotation_completed by (done || apply Hs).
    destruct (completed_atRest a i dir rec None s Hs Hi Hd)
      as (Hr & Hp1 & Hp2 & Hout & _).
    destruct Hr as (Ha & _ & Hshell & _).
    destruct (perm_shell_facts _ Hshell) as (Hnd & Hin & _).
    done.
  - intros s a i dir tm Hs Hi Hd Hc s'. unfold s'.
    rewrite rotationB_done by (done || apply Hs).
    destruct (completedB_atRest a i dir s Hs Hi Hd)
      as (Hr & Hp1 & Hp2 & Hout & _).
    destruct Hr as (Ha & _ & _ & Hshell & _).
    destruct (perm_shell_facts _ Hshell) as (Hnd & Hin & _).
    done.
Qed.

Lemma C1_witness :
  (SpecA.atRest VariantA.initialState ∧
   VariantA.isAnimating
     (SpecA.rotationRun AxisX 2%Z 1%Z true sampleTiming VariantA.initialState)
   = false) ∧
  (SpecB.atRest VariantB.initialState ∧
   VariantB.isAnimating
     (SpecB.rotationRun AxisX 2%Z 1%Z sampleTiming VariantB.initialState)
   = false).
Proof.
  split.
  - split; [apply initialState_atRest|].
    apply (proj1 C1_rotation_permutes_slice VariantA.initialState AxisX 2%Z 1%Z
             true sampleTiming).
    + apply initialState_atRest.
    + lia.
    + by left.
    + apply sampleTiming_completes.
  - split; [apply initialStateB_atRest|].
    apply (proj2 C1_rotation_permutes_slice VariantB.initialState AxisX 2%Z 1%Z
             sampleTiming).
    + apply initialStateB_atRest.
    + lia.
    + by left.
    + apply sampleTiming_completes.
Defined.

Lemma distinctInt_sound a b :
  Exact.distinctInt a b = true -> Exact.toR a ≠ Exact.toR b.
Proof.
  unfold Exact.distinctInt.
  destruct (Exact.toZ a) as [n|] eqn:Ea; [|done].
  destruct (Exact.toZ b) as [m|] eqn:Eb; [|done].
  intros Hne%negb_true_iff%Z.eqb_neq.
  rewrite (toR_toZ _ _ Ea), (toR_toZ _ _ Eb). intros H%eq_IZR. done.
Qed.

Lemma differ_sound a b :
  Exact.differ a b = true -> Exact.toMatrix3 a ≠ Exact.toMatrix3 b.
Proof.
  unfold Exact.differ, Exact.toMatrix3. intros H Heq.
  injection Heq as H11 H12 H13 H21 H22 H23 H31 H32 H33.
  repeat (apply orb_prop in H as [H | H]);
    apply distinctInt_sound in H; done.
Qed.

Lemma returnsOther_spec o q :
  Exact.returnsOther o q = true ->
  ∃ q', o = Some q' ∧
        ¬ sameOrientation (Exact.toQuaternion q') (Exact.toQuaternion q).
Proof.
  destruct o as [q'|]; [|done]. cbn. intros H. exists q'. split; [done|].
  unfold sameOrientation. rewrite <- !toMatrix3_makeRotation.
  by apply differ_sound.
Qed.

Lemma twoTurns_differ :
  Exact.returnsOther (Exact.turn AxisZ 1 (Exact.setFromEuler (0, 1, 0)%Z))
                     (Exact.setFromEuler (0, 1, 1)%Z) = true.
Proof. vm_compute. reflexivity. Qed.

(** What the completion step leaves of a sub-cube of the turned slice, in
    each variant.  In variant A: as grid coordinate its rotated position
    divided by the grid spacing, shifted by the offset and rounded; as
    position exactly [(grid - offset) * (SEGMENT_SIZE + GAP)] on each axis;
    and as orientation the quaternion rebuilt from the Euler angles of its
    rotated orientation, each rounded to the nearest multiple of 90
    degrees.  In variant B: the grid coordinate rounded in the same way,
    the rotated position as it is, and the Euler angles it had with the
    angles of the rotation group added. *)
Lemma completion_step_of_both_variants :
  (∀ (s : VariantA.State) a i dir recordMove tm j c,
     VariantA.isAnimating s = false -> completes VariantA.duration tm ->
     VariantA.smallCubes s !! j = Some c -> VariantA.inSlice a i c = true ->
     ∃ c',
       VariantA.smallCubes (SpecA.rotationRun a i dir recordMove tm s) !! j
         = Some c' ∧
       let p := applyQuaternion (VariantA.position c)
                                (SpecA.finalQuaternion a dir) in
       let e := setFromQuaternion
                  (multiply (SpecA.finalQuaternion a dir)
                            (VariantA.quaternion c)) in
       let g := VariantA.userData c' in
       g = mkUserData
             (Math.round (vx p / (SEGMENT_SIZE + GAP) + VariantA.offset))
             (Math.round (vy p / (SEGMENT_SIZE + GAP) + VariantA.offset))
             (Math.round (vz p / (SEGMENT_SIZE + GAP) + VariantA.offset)) ∧
       VariantA.position c'
         = mkVector3 ((IZR (x g) - VariantA.offset) * (SEGMENT_SIZE + GAP))
                     ((IZR (y g) - VariantA.offset) * (SEGMENT_SIZE + GAP))
                     ((IZR (z g) - VariantA.offset) * (SEGMENT_SIZE + GAP)) ∧
       VariantA.quaternion c'
         = setFromEuler
             (mkEuler
                (IZR (Math.round (ex e / (Math.PI / 2))) * (Math.PI / 2))
                (IZR (Math.round (ey e / (Math.PI / 2))) * (Math.PI / 2))
                (IZR (Math.round (ez e / (Math.PI / 2))) * (Math.PI / 2)))) ∧
  (∀ (s : VariantB.State) a i dir tm j c,
     VariantB.isAnimating s = false -> completes VariantB.duration tm ->
     VariantB.smallCubes s !! j = Some c -> VariantB.inSlice a i c = true ->
     ∃ c',
       VariantB.smallCubes (SpecB.rotationRun a i dir tm s) !! j = Some c' ∧
       let angles := SpecB.setAxis a (Math.PI / 2 * IZR dir)
                                   (VariantB.rotationGroupRotation s) in
       let p := applyEuler (VariantB.position c) angles in
       VariantB.userData c'
         = mkUserData (Math.round (vx p / (SEGMENT_SIZE + GAP) + 1))
                      (Math.round (vy p / (SEGMENT_SIZE + GAP) + 1))
                      (Math.round (vz p / (SEGMENT_SIZE + GAP) + 1)) ∧
       VariantB.position c' = p ∧
       VariantB.rotation c'
         = mkEuler (ex (VariantB.rotation c) + ex angles)
                   (ey (VariantB.rotation c) + ey angles)
                   (ez (VariantB.rotation c) + ez angles)).
Proof.
  split.
  - intros s a i dir rec tm j c Hs Hc Hj Hin.
    rewrite rotation_completed by done.
    destruct (completed_cubes a i dir rec None s) as (-> & _).
    rewrite (turnSlice_lookup a i dir _ j c Hj), Hin.
    eexists. split; [done|]. done.
  - intros s a i dir tm j c Hs Hc Hj Hin.
    rewrite rotationB_done by done.
    unfold SpecB.completed. cbn [VariantB.smallCubes].
    rewrite (settleSlice_lookup a i dir _ _ j c Hj), Hin.
    eexists. split; [done|]. done.
Qed.

Lemma twoTurns_shown_differs :
  Exact.differ
    (Exact.makeRotationFromQuaternion (Exact.setFromEuler (0, 1, 1)%Z))
    (Exact.makeRotationFromQuaternion
       (Exact.multiply (Exact.setFromAxisAngle AxisZ 1)
                       (Exact.setFromEuler (0, 1, 0)%Z))) = true.
Proof. vm_compute. reflexivity. Qed.

Lemma twoTurns_snap_keeps :
  Exact.returns
    (Exact.turn AxisZ 1 (Exact.setFromEuler (0, 1, 0)%Z))
    (Exact.multiply (Exact.setFromAxisAngle AxisZ 1)
                    (Exact.setFromEuler (0, 1, 0)%Z)) = true.
Proof. vm_compute. reflexivity. Qed.

Lemma twoTurns_variantA :
  Exact.returns
    (Exact.turn AxisY 1 (Exact.setFromEuler (0, 0, 0)%Z)
       ≫= Exact.turn AxisZ 1)
    (Exact.multiply (Exact.setFromAxisAngle AxisZ 1)
                    (Exact.setFromEuler (0, 1, 0)%Z)) = true.
Proof. vm_compute. reflexivity. Qed.

(** C2.  The claim holds of variant A and fails in variant B, where the
    completion step adds the slice angle to the sub-cube's Euler angles
    instead of applying the rotation.  From the cube as built, the bottom
    slice is turned (y, 0, +1) and then the front slice (z, 2, +1), each
    to completion; the sub-cube built first is in both.  In both
    variants it ends on the same grid slot, exactly on it.  The
    orientation it is shown with at the last frame of the second turn is
    the front turn after the bottom turn; its snap, as the claim
    describes it, is that same rotation, and variant A stores it.
    Variant B stores the Euler angles (0, 90, 90) degrees, which is
    another rotation. *)
Theorem C2_variantB_adds_euler_angles :
  let b1 := SpecB.rotationRun AxisY 0 1 sampleTiming VariantB.initialState in
  let b2 := SpecB.rotationRun AxisZ 2 1 sampleTiming b1 in
  let a1 := SpecA.rotationRun AxisY 0 1 true sampleTiming
              VariantA.initialState in
  let a2 := SpecA.rotationRun AxisZ 2 1 true sampleTiming a1 in
  ∃ c1 c2 c2A,
    VariantB.smallCubes b1 !! 0%nat = Some c1 ∧
    VariantB.inSlice AxisZ 2 c1 = true ∧
    VariantB.smallCubes b2 !! 0%nat = Some c2 ∧
    VariantA.smallCubes a2 !! 0%nat = Some c2A ∧
    VariantB.userData c2 = VariantA.userData c2A ∧
    SpecB.onGrid c2 ∧ SpecA.onGrid c2A ∧
    VariantB.rotation c1 = mkEuler 0 (Math.PI / 2) 0 ∧
    VariantB.rotation c2 = mkEuler 0 (Math.PI / 2) (Math.PI / 2) ∧
    let shown := multiply (SpecA.finalQuaternion AxisZ 1)
                          (VariantB.quaternion c1) in
    sameOrientation (VariantA.snapQuaternion shown) shown ∧
    sameOrientation (VariantA.quaternion c2A) shown ∧
    ¬ sameOrientation (VariantB.quaternion c2) shown ∧
    ¬ sameOrientation (VariantB.quaternion c2)
                      (VariantA.snapQuaternion shown).
Proof.
  intros b1 b2 a1 a2.
  (* variant B *)
  pose proof initialStateB_atRest as Hr0.
  assert (b1 = SpecB.completed AxisY 0 1 VariantB.initialState) as Hb1
    by (apply rotationB_done; [done|apply sampleTiming_completes]).
  destruct (completedB_atRest AxisY 0 1 VariantB.initialState Hr0)
    as (Hr1 & _); [lia|by left|]. rewrite <- Hb1 in Hr1.
  assert (b2 = SpecB.completed AxisZ 2 1 b1) as Hb2
    by (apply rotationB_done; [apply Hr1|apply sampleTiming_completes]).
  set (c0 := VariantB.mkCube (mkUserData 0 0 0) (VariantB.gridPosition 0 0 0)
               (mkEuler 0 0 0) VariantB.InCubeGroup).
  assert (VariantB.smallCubes VariantB.initialState !! 0%nat = Some c0) as H0
    by reflexivity.
  assert (SpecB.onGrid c0) as Hg0 by done.
  destruct (settle_spec AxisY 1 c0) as (Hu1 & Hg1 & _); [by left|done|].
  destruct (settle_spec AxisZ 1 (SpecB.settle AxisY 1 c0))
    as (Hu2 & Hg2 & _); [by left|done|].
  assert (VariantB.smallCubes b1 !! 0%nat = Some (SpecB.settle AxisY 1 c0))
    as H1.
  { rewrite Hb1. exact (settleSlice_rest_lookup AxisY 0 1 _ 0 c0 H0). }
  assert (VariantB.inSlice AxisZ 2 (SpecB.settle AxisY 1 c0) = true) as Hin.
  { rewrite inSliceB_coordinate, Hu1. done. }
  assert (VariantB.smallCubes b2 !! 0%nat
          = Some (SpecB.settle AxisZ 1 (SpecB.settle AxisY 1 c0))) as H2.
  { rewrite Hb2. unfold SpecB.completed. cbn [VariantB.smallCubes].
    destruct Hr1 as (_ & _ & -> & _).
    by rewrite (settleSlice_rest_lookup AxisZ 2 1 _ 0 _ H1), Hin. }
  assert (VariantB.rotation (SpecB.settle AxisY 1 c0)
          = mkEuler 0 (Math.PI / 2) 0) as He1
    by (cbn; f_equal; lra).
  assert (VariantB.rotation (SpecB.settle AxisZ 1 (SpecB.settle AxisY 1 c0))
          = mkEuler 0 (Math.PI / 2) (Math.PI / 2)) as He2
    by (cbn; f_equal; lra).
  assert (VariantB.quaternion (SpecB.settle AxisZ 1 (SpecB.settle AxisY 1 c0))
          = Exact.toQuaternion (Exact.setFromEuler (0, 1, 1)%Z)) as Hq2.
  { rewrite toQuaternion_setFromEuler by lia.
    unfold VariantB.quaternion. rewrite He2. f_equal.
    unfold quarterAngles. f_equal; lra. }
  assert (VariantB.quaternion (SpecB.settle AxisY 1 c0)
          = Exact.toQuaternion (Exact.setFromEuler (0, 1, 0)%Z)) as Hq1.
  { rewrite toQuaternion_setFromEuler by lia.
    unfold VariantB.quaternion. rewrite He1. f_equal.
    unfold quarterAngles. f_equal; lra. }
  assert (multiply (SpecA.finalQuaternion AxisZ 1)
                   (Exact.toQuaternion (Exact.setFromEuler (0, 1, 0)%Z))
          = Exact.toQuaternion
              (Exact.multiply (Exact.setFromAxisAngle AxisZ 1)
                              (Exact.setFromEuler (0, 1, 0)%Z))) as Hshown.
  { rewrite toQuaternion_multiply. f_equal.
    apply setFromAxisAngle_exact. by left. }
  (* variant A *)
  destruct (VariantA.smallCubes VariantA.initialState !! 0%nat)
    as [a0|] eqn:Ha0; [|discriminate Ha0].
  assert (VariantA.userData a0 = mkUserData 0 0 0 ∧
          VariantA.quaternion a0 = identityQuaternion) as [Hua Hqa]
    by (injection Ha0 as <-; split; reflexivity).
  assert (SpecA.onGrid a0) as Hga.
  { pose proof buildCubes_onGrid as Hall.
    rewrite Forall_lookup in Hall. exact (Hall _ _ Ha0). }
  assert (a1 = SpecA.completed AxisY 0 1 true None VariantA.initialState)
    as Ha1 by (apply rotation_completed; [done|apply sampleTiming_completes]).
  destruct (completed_cubes AxisY 0 1 true None VariantA.initialState)
    as (Hc1 & Hs1 & _). rewrite <- Ha1 in Hc1, Hs1.
  assert (a2 = SpecA.completed AxisZ 2 1 true None a1) as Ha2
    by (apply rotation_completed; [done|apply sampleTiming_completes]).
  destruct (completed_cubes AxisZ 2 1 true None a1) as (Hc2 & _).
  rewrite <- Ha2 in Hc2.
  assert (VariantA.smallCubes a1 !! 0%nat
          = Some (SpecA.turnCube AxisY 1 a0)) as HA1.
  { assert (VariantA.inSlice AxisY 0 a0 = true) as HinA0
      by (rewrite inSlice_coordinate, Hua; reflexivity).
    rewrite Hc1, (turnSlice_lookup AxisY 0 1 _ 0 a0 Ha0), HinA0.
    reflexivity. }
  assert (VariantA.userData (SpecA.turnCube AxisY 1 a0)
          = quarterTurn AxisY 1 (mkUserData 0 0 0)) as Hu1A
    by (rewrite turnCube_userData, Hua; [done|by left|done]).
  assert (VariantA.smallCubes a2 !! 0%nat
          = Some (SpecA.turnCube AxisZ 1 (SpecA.turnCube AxisY 1 a0))) as HA2.
  { assert (VariantA.inSlice AxisZ 2 (SpecA.turnCube AxisY 1 a0) = true)
      as HinA1 by (rewrite inSlice_coordinate, Hu1A; reflexivity).
    rewrite Hc2, (turnSlice_lookup AxisZ 2 1 _ 0 _ HA1), HinA1.
    reflexivity. }
  assert (identityQuaternion
          = Exact.toQuaternion (Exact.setFromEuler (0, 0, 0)%Z)) as Hid.
  { rewrite toQuaternion_setFromEuler by lia.
    unfold setFromEuler, quarterAngles, identityQuaternion. cbn [ex ey ez].
    replace (0 * (Math.PI / 2) / 2) with 0 by lra.
    rewrite sin_0, cos_0. f_equal; ring. }
  assert (VariantA.quaternion (SpecA.turnCube AxisZ 1 (SpecA.turnCube AxisY 1 a0))
          = SpecA.turnOrientation AxisZ 1
              (SpecA.turnOrientation AxisY 1
                 (Exact.toQuaternion (Exact.setFromEuler (0, 0, 0)%Z)))) as HqA.
  { rewrite !quaternion_turnCube, Hqa. by rewrite <- Hid. }
  destruct (returns_spec _ _ twoTurns_variantA) as (eA & HeA & HsameA).
  apply bind_Some in HeA as (e1 & E1 & HeA).
  destruct (returns_spec _ _ twoTurns_snap_keeps) as (eS & HeS & HsameS).
  destruct (returnsOther_spec _ _ twoTurns_differ) as (eO & HeO & HneO).
  exists (SpecB.settle AxisY 1 c0),
         (SpecB.settle AxisZ 1 (SpecB.settle AxisY 1 c0)),
         (SpecA.turnCube AxisZ 1 (SpecA.turnCube AxisY 1 a0)).
  split; [exact H1|]. split; [exact Hin|]. split; [exact H2|].
  split; [exact HA2|].
  split.
  { rewrite Hu2, Hu1, turnCube_userData, Hu1A;
      [done|by left|apply turnCube_onGrid]. }
  split; [exact Hg2|]. split; [apply turnCube_onGrid|].
  split; [exact He1|]. split; [exact He2|].
  cbv zeta. rewrite Hq1, Hq2, HqA.
  rewrite (turn_exact AxisZ 1 _ eS (or_introl eq_refl) HeS).
  unfold SpecA.turnOrientation.
  rewrite (turn_exact AxisY 1 _ e1 (or_introl eq_refl) E1).
  rewrite (turn_exact AxisZ 1 _ eA (or_introl eq_refl) HeA).
  rewrite Hshown.
  split; [exact HsameS|]. split; [exact HsameA|].
  split.
  - unfold sameOrientation. rewrite <- !toMatrix3_makeRotation.
    apply differ_sound, twoTurns_shown_differs.
  - rewrite HeS in HeO. injection HeO as <-.
    intros H. apply HneO. by symmetry.
Qed.

Lemma earlyTiming_inflight :
  ¬ completes VariantA.duration earlyTiming ∧
  ¬ completes VariantB.duration earlyTiming.
Proof.
  unfold completes, earlyTiming, VariantA.duration, VariantB.duration. cbn.
  split; intros H;
    do 3 (apply Exists_cons in H as [H | H]; [lra|]);
    inversion H.
Qed.

(** The frame callback of variant A reads the sub-cubes and the animation
    record only: two states that agree on the rotation bookkeeping still
    agree on it after a frame. *)
Lemma animateSlice_fields now (s1 s2 : VariantA.State) :
  VariantA.smallCubes s1 = VariantA.smallCubes s2 ->
  VariantA.animation s1 = VariantA.animation s2 ->
  VariantA.isAnimating s1 = VariantA.isAnimating s2 ->
  VariantA.moveHistory s1 = VariantA.moveHistory s2 ->
  VariantA.isSolved s1 = VariantA.isSolved s2 ->
  VariantA.smallCubes (VariantA.animateSlice now s1)
    = VariantA.smallCubes (VariantA.animateSlice now s2) ∧
  VariantA.animation (VariantA.animateSlice now s1)
    = VariantA.animation (VariantA.animateSlice now s2) ∧
  VariantA.isAnimating (VariantA.animateSlice now s1)
    = VariantA.isAnimating (VariantA.animateSlice now s2) ∧
  VariantA.moveHistory (VariantA.animateSlice now s1)
    = VariantA.moveHistory (VariantA.animateSlice now s2) ∧
  VariantA.isSolved (VariantA.animateSlice now s1)
    = VariantA.isSolved (VariantA.animateSlice now s2).
Proof.
  intros Hc Ha Hi Hh Hs. unfold VariantA.animateSlice.
  rewrite Ha, Hc.
  destruct (VariantA.animation s2) as [an|] eqn:E;
    [|repeat split; congruence].
  destruct (Math.ltb _ 1).
  - unfold VariantA.withCubes. cbn. repeat split; congruence.
  - match goal with
    | |- context [VariantA.resolve ?k ?u] =>
        destruct (resolve_fields k u) as (-> & -> & -> & -> & -> & _)
    end.
    match goal with
    | |- context [VariantA.resolve ?k ?u] =>
        destruct (resolve_fields k u) as (-> & -> & -> & -> & -> & _)
    end.
    cbn. done.
Qed.

Lemma frames_fields later (s1 s2 : VariantA.State) :
  VariantA.smallCubes s1 = VariantA.smallCubes s2 ->
  VariantA.animation s1 = VariantA.animation s2 ->
  VariantA.isAnimating s1 = VariantA.isAnimating s2 ->
  VariantA.moveHistory s1 = VariantA.moveHistory s2 ->
  VariantA.isSolved s1 = VariantA.isSolved s2 ->
  VariantA.smallCubes
    (fold_left (fun st now => VariantA.animateSlice now st) later s1)
    = VariantA.smallCubes
        (fold_left (fun st now => VariantA.animateSlice now st) later s2) ∧
  VariantA.moveHistory
    (fold_left (fun st now => VariantA.animateSlice now st) later s1)
    = VariantA.moveHistory
        (fold_left (fun st now => VariantA.animateSlice now st) later s2).
Proof.
  revert s1 s2. induction later as [|now later IH]; intros s1 s2 Hc Ha Hi Hh Hs.
  - done.
  - cbn [fold_left].
    destruct (animateSlice_fields now s1 s2) as (? & ? & ? & ? & ?); try done.
    by apply IH.
Qed.

(** C3.  A call of [rotateSlice] while a rotation is in flight does
    nothing but resolve its promise at once: in variant A the state it
    returns is the state it was given with the awaiting continuation run,
    the sub-cubes, the move history, the solved flag and the animation in
    flight are untouched, and whatever frames follow, the sub-cubes and
    the history end as they would have without the call; in variant B the
    state is returned as it was given. *)
Theorem C3_reentrant_call_is_dropped :
  (∀ (s : VariantA.State) a i dir recordMove k t0 t1,
     VariantA.isAnimating s = true ->
     let s' := VariantA.rotateSlice a i dir recordMove k t0 t1 s in
     s' = VariantA.resolve k s ∧
     VariantA.smallCubes s' = VariantA.smallCubes s ∧
     VariantA.moveHistory s' = VariantA.moveHistory s ∧
     VariantA.isSolved s' = VariantA.isSolved s ∧
     VariantA.isAnimating s' = true ∧
     VariantA.animation s' = VariantA.animation s ∧
     ∀ later,
       VariantA.smallCubes
         (fold_left (fun st now => VariantA.animateSlice now st) later s')
       = VariantA.smallCubes
           (fold_left (fun st now => VariantA.animateSlice now st) later s) ∧
       VariantA.moveHistory
         (fold_left (fun st now => VariantA.animateSlice now st) later s')
       = VariantA.moveHistory
           (fold_left (fun st now => VariantA.animateSlice now st) later s)) ∧
  (∀ (s : VariantB.State) a i dir t0 t1,
     VariantB.isAnimating s = true ->
     VariantB.rotateSlice a i dir t0 t1 s = s).
Proof.
  split.
  - intros s a i dir rec k t0 t1 Hs s'.
    assert (s' = VariantA.resolve k s) as ->
      by (unfold s', VariantA.rotateSlice; by rewrite Hs).
    destruct (resolve_fields k s) as (Ha & Hi & Hc & Hh & Hsol & _).
    repeat split; try done; try congruence.
    all: by apply frames_fields.
  - intros s a i dir t0 t1 Hs. unfold VariantB.rotateSlice. by rewrite Hs.
Qed.

Lemma C3_witness :
  let s := SpecA.rotationRun AxisX 2 1 true earlyTiming VariantA.initialState in
  VariantA.isAnimating s = true ∧
  VariantA.rotateSlice AxisY 0 1 true None 40 40 s = s.
Proof.
  intros s.
  assert (VariantA.isAnimating s = true) as Hs.
  { destruct (rotation_inflight AxisX 2 1 true earlyTiming
                VariantA.initialState eq_refl (proj1 earlyTiming_inflight))
      as [q Hq].
    unfold s. rewrite Hq. reflexivity. }
  split; [exact Hs|].
  exact (proj1 (proj1 C3_reentrant_call_is_dropped s AxisY 0%Z 1%Z true None
                  40 40 Hs)).
Defined.

Section ScenarioA.
Import VariantA SpecA.

(** The rotation of the scenario: the sub-cubes of the slice x = 2 of the
  cube as built, after the completed rotation. *)
Lemma scenario_turn recordMove tm j c :
completes duration tm ->
smallCubes initialState !! j = Some c -> x (userData c) = 2%Z ->
∃ c', smallCubes (rotationRun AxisX 2 1 recordMove tm initialState) !! j
      = Some c' ∧
      userData c' = quarterTurn AxisX 1 (userData c) ∧
      onGrid c' ∧ onGrid c.
Proof.
intros Htm Hj Hx. rewrite rotation_completed by done.
destruct (completed_atRest AxisX 2 1 recordMove None initialState
            initialState_atRest) as (Hr & _ & _ & _ & Hturn);
  [lia|by left|].
destruct (Hturn j c Hj Hx) as (c' & Hj' & Hu).
exists c'. repeat split; try done.
- destruct Hr as (_ & _ & _ & Hg).
  by apply (proj1 (Forall_lookup _ _) Hg j c').
- by apply (proj1 (Forall_lookup _ _) buildCubes_onGrid j c).
Qed.

Lemma scenario_corner tm :
completes duration tm ->
∃ c', smallCubes (rotationRun AxisX 2 1 true tm initialState) !! 17%nat
      = Some c' ∧ userData c' = mkUserData 2 2 0.
Proof.
intros Htm.
destruct (smallCubes initialState !! 17%nat) as [c|] eqn:Hj;
  [|discriminate Hj].
assert (userData c = mkUserData 2 0 0) as Hu
  by (injection Hj as <-; reflexivity).
destruct (scenario_turn true tm 17 c Htm Hj) as (c' & Hj' & Hu' & _);
  [by rewrite Hu|].
exists c'. split; [done|]. by rewrite Hu', Hu.
Qed.
End ScenarioA.

(** C4, as stated, fails: after the completed rotation of the slice x = 2
    about the x axis in direction +1, the sub-cube built at grid slot
    (2,0,0) is not at (2,0,2). *)
Lemma C4_corner_not_at_2_0_2 :
  ¬ (∀ c c',
       VariantA.smallCubes VariantA.initialState !! 17%nat = Some c ->
       VariantA.userData c = mkUserData 2 0 0 ->
       VariantA.smallCubes
         (SpecA.rotationRun AxisX 2 1 true sampleTiming
            VariantA.initialState) !! 17%nat = Some c' ->
       VariantA.userData c' = mkUserData 2 0 2).
Proof.
  intros Hclaim.
  destruct (scenario_corner sampleTiming (proj1 sampleTiming_completes))
    as (c' & Hj' & Hu').
  destruct (VariantA.smallCubes VariantA.initialState !! 17%nat)
    as [c|] eqn:Hj; [|discriminate Hj].
  assert (VariantA.userData c = mkUserData 2 0 0) as Hu
    by (injection Hj as <-; reflexivity).
  specialize (Hclaim c c' eq_refl Hu Hj'). rewrite Hu' in Hclaim.
  discriminate Hclaim.
Qed.

(** C4, amended.  Starting from the cube as built, a completed
    rotateSlice(axis = x, index = 2, direction = +1) moves each of the 9
    sub-cubes with x = 2 by the quarter turn about the x axis that takes
    +y to +z: the sub-cube at grid (x, y, z) ends at grid (x, 2 - z, y),
    and its position (px, py, pz) becomes (px, -pz, py).  In particular
    the sub-cube at grid (2,0,0) ends at (2,2,0) and the sub-cube at grid
    (2,2,0) ends at (2,2,2). *)
Theorem C4_x_slice_quarter_turn recordMove tm :
  completes VariantA.duration tm ->
  let s' := SpecA.rotationRun AxisX 2 1 recordMove tm VariantA.initialState in
  (∀ j c,
     VariantA.smallCubes VariantA.initialState !! j = Some c ->
     x (VariantA.userData c) = 2%Z ->
     ∃ c', VariantA.smallCubes s' !! j = Some c' ∧
           VariantA.userData c'
           = mkUserData 2 (2 - z (VariantA.userData c))
                        (y (VariantA.userData c)) ∧
           VariantA.position c'
           = mkVector3 (vx (VariantA.position c))
                       (- vz (VariantA.position c))
                       (vy (VariantA.position c))) ∧
  length (filter (fun u => x u = 2%Z)
                 (VariantA.userData <$> VariantA.smallCubes
                                          VariantA.initialState)) = 9%nat ∧
  (VariantA.userData <$> VariantA.smallCubes VariantA.initialState !! 17%nat
   = Some (mkUserData 2 0 0) ∧
   VariantA.userData <$> VariantA.smallCubes s' !! 17%nat
   = Some (mkUserData 2 2 0)) ∧
  (VariantA.userData <$> VariantA.smallCubes VariantA.initialState !! 23%nat
   = Some (mkUserData 2 2 0) ∧
   VariantA.userData <$> VariantA.smallCubes s' !! 23%nat
   = Some (mkUserData 2 2 2)).
Proof.
  intros Htm s'.
  assert (∀ j c,
     VariantA.smallCubes VariantA.initialState !! j = Some c ->
     x (VariantA.userData c) = 2%Z ->
     ∃ c', VariantA.smallCubes s' !! j = Some c' ∧
           VariantA.userData c'
           = mkUserData 2 (2 - z (VariantA.userData c))
                        (y (VariantA.userData c)) ∧
           VariantA.position c'
           = mkVector3 (vx (VariantA.position c))
                       (- vz (VariantA.position c))
                       (vy (VariantA.position c))) as Hall.
  { intros j c Hj Hx.
    destruct (scenario_turn recordMove tm j c Htm Hj Hx)
      as (c' & Hj' & Hu & Hg' & Hg).
    exists c'. split; [done|].
    assert (VariantA.userData c'
            = mkUserData 2 (2 - z (VariantA.userData c))
                         (y (VariantA.userData c))) as Hu'.
    { rewrite Hu. unfold quarterTurn. rewrite Hx. f_equal; lia. }
    split; [done|].
    rewrite Hg', Hg, Hu'. unfold VariantA.gridPosition.
    rewrite offset_value, Hx. cbn [x y z vx vy vz].
    f_equal; repeat (rewrite plus_IZR || rewrite minus_IZR); ring. }
  split; [exact Hall|]. split.
  { change (VariantA.smallCubes VariantA.initialState)
      with VariantA.buildCubes.
    rewrite buildCubes_userData. reflexivity. }
  split; (split; [reflexivity|]).
  - destruct (VariantA.smallCubes VariantA.initialState !! 17%nat)
      as [c|] eqn:Hj; [|discriminate Hj].
    assert (VariantA.userData c = mkUserData 2 0 0) as Hu
      by (injection Hj as <-; reflexivity).
    destruct (Hall 17%nat c Hj) as (c' & -> & Hu' & _); [by rewrite Hu|].
    cbn. by rewrite Hu', Hu.
  - destruct (VariantA.smallCubes VariantA.initialState !! 23%nat)
      as [c|] eqn:Hj; [|discriminate Hj].
    assert (VariantA.userData c = mkUserData 2 2 0) as Hu
      by (injection Hj as <-; reflexivity).
    destruct (Hall 23%nat c Hj) as (c' & -> & Hu' & _); [by rewrite Hu|].
    cbn. by rewrite Hu', Hu.
Qed.

Lemma C4_witness :
  completes VariantA.duration sampleTiming ∧
  VariantA.userData <$>
    VariantA.smallCubes
      (SpecA.rotationRun AxisX 2 1 true sampleTiming VariantA.initialState)
      !! 17%nat
  = Some (mkUserData 2 2 0).
Proof.
  split; [exact (proj1 sampleTiming_completes)|].
  exact (proj2 (proj1 (proj2 (proj2
           (C4_x_slice_quarter_turn true sampleTiming
              (proj1 sampleTiming_completes)))))).
Defined.

Section FourRotations.

(** Four completed rotations of one slice in variant A, from a rest state
  with axis-aligned orientations. *)
Lemma four_rotationsA (s : VariantA.State) a i dir recordMove tm1 tm2 tm3 tm4 :
SpecA.atRest s -> (0 <= i <= 2)%Z -> dir = 1%Z ∨ dir = (-1)%Z ->
completes VariantA.duration tm1 -> completes VariantA.duration tm2 ->
completes VariantA.duration tm3 -> completes VariantA.duration tm4 ->
let s4 := SpecA.rotationRun a i dir recordMove tm4
            (SpecA.rotationRun a i dir recordMove tm3
               (SpecA.rotationRun a i dir recordMove tm2
                  (SpecA.rotationRun a i dir recordMove tm1 s))) in
SpecA.atRest s4 ∧
VariantA.smallCubes s4
= SpecA.turnSlice a i dir (SpecA.turnSlice a i dir (SpecA.turnSlice a i dir
    (SpecA.turnSlice a i dir (VariantA.smallCubes s)))).
Proof.
intros Hr Hi Hd H1 H2 H3 H4.
pose proof (λ rec s Hs, proj1 (completed_atRest a i dir rec None s Hs Hi Hd))
  as Hrest.
pose proof (λ rec s, proj1 (completed_cubes a i dir rec None s)) as Hcubes.
rewrite (rotation_completed a i dir recordMove tm1 s) by (done || apply Hr).
pose proof (Hrest recordMove _ Hr) as Hr1.
rewrite (rotation_completed a i dir recordMove tm2) by (done || apply Hr1).
pose proof (Hrest recordMove _ Hr1) as Hr2.
rewrite (rotation_completed a i dir recordMove tm3) by (done || apply Hr2).
pose proof (Hrest recordMove _ Hr2) as Hr3.
rewrite (rotation_completed a i dir recordMove tm4) by (done || apply Hr3).
pose proof (Hrest recordMove _ Hr3) as Hr4.
intros s4. split; [exact Hr4|].
unfold s4. by rewrite !Hcubes.
Qed.

Lemma four_rotationsB (s : VariantB.State) a i dir tm1 tm2 tm3 tm4 :
SpecB.atRest s -> (0 <= i <= 2)%Z -> dir = 1%Z ∨ dir = (-1)%Z ->
completes VariantB.duration tm1 -> completes VariantB.duration tm2 ->
completes VariantB.duration tm3 -> completes VariantB.duration tm4 ->
let s4 := SpecB.rotationRun a i dir tm4
            (SpecB.rotationRun a i dir tm3
               (SpecB.rotationRun a i dir tm2
                  (SpecB.rotationRun a i dir tm1 s))) in
SpecB.atRest s4 ∧
VariantB.smallCubes s4
= SpecB.settleSlice a i dir (mkEuler 0 0 0)
    (SpecB.settleSlice a i dir (mkEuler 0 0 0)
       (SpecB.settleSlice a i dir (mkEuler 0 0 0)
          (SpecB.settleSlice a i dir (mkEuler 0 0 0)
             (VariantB.smallCubes s)))).
Proof.
intros Hr Hi Hd H1 H2 H3 H4.
pose proof (λ s Hs, proj1 (completedB_atRest a i dir s Hs Hi Hd)) as Hrest.
assert (∀ s, SpecB.atRest s ->
          VariantB.smallCubes (SpecB.completed a i dir s)
          = SpecB.settleSlice a i dir (mkEuler 0 0 0)
              (VariantB.smallCubes s)) as Hcubes.
{ intros s0 (_ & _ & Hg & _). unfold SpecB.completed. cbn. by rewrite Hg. }
rewrite (rotationB_done a i dir tm1 s) by (done || apply Hr).
pose proof (Hrest _ Hr) as Hr1.
rewrite (rotationB_done a i dir tm2) by (done || apply Hr1).
pose proof (Hrest _ Hr1) as Hr2.
rewrite (rotationB_done a i dir tm3) by (done || apply Hr2).
pose proof (Hrest _ Hr2) as Hr3.
rewrite (rotationB_done a i dir tm4) by (done || apply Hr3).
pose proof (Hrest _ Hr3) as Hr4.
intros s4. split; [exact Hr4|].
unfold s4. by rewrite !Hcubes.
Qed.
End FourRotations.

(** C5.  Four completed rotations of the same slice about the same axis
    in the same direction, from a rest state, leave the cube at rest with
    every sub-cube at the grid coordinate and position it had and in the
    orientation it had (the same rotation matrix).  In variant A the
    orientations of the rest state are taken axis-aligned, as every
    completed rotation leaves them. *)
Theorem C5_four_rotations_restore :
  (∀ (s : VariantA.State) a i dir recordMove tm1 tm2 tm3 tm4,
     SpecA.atRest s -> SpecA.aligned s ->
     (0 <= i <= 2)%Z -> dir = 1%Z ∨ dir = (-1)%Z ->
     completes VariantA.duration tm1 -> completes VariantA.duration tm2 ->
     completes VariantA.duration tm3 -> completes VariantA.duration tm4 ->
     let s4 := SpecA.rotationRun a i dir recordMove tm4
                 (SpecA.rotationRun a i dir recordMove tm3
                    (SpecA.rotationRun a i dir recordMove tm2
                       (SpecA.rotationRun a i dir recordMove tm1 s))) in
     VariantA.isAnimating s4 = false ∧
     ∀ j c, VariantA.smallCubes s !! j = Some c ->
       ∃ c4, VariantA.smallCubes s4 !! j = Some c4 ∧
             VariantA.userData c4 = VariantA.userData c ∧
             VariantA.position c4 = VariantA.position c ∧
             sameOrientation (VariantA.quaternion c4)
                             (VariantA.quaternion c)) ∧
  (∀ (s : VariantB.State) a i dir tm1 tm2 tm3 tm4,
     SpecB.atRest s ->
     (0 <= i <= 2)%Z -> dir = 1%Z ∨ dir = (-1)%Z ->
     completes VariantB.duration tm1 -> completes VariantB.duration tm2 ->
     completes VariantB.duration tm3 -> completes VariantB.duration tm4 ->
     let s4 := SpecB.rotationRun a i dir tm4
                 (SpecB.rotationRun a i dir tm3
                    (SpecB.rotationRun a i dir tm2
                       (SpecB.rotationRun a i dir tm1 s))) in
     VariantB.isAnimating s4 = false ∧
     ∀ j c, VariantB.smallCubes s !! j = Some c ->
       ∃ c4, VariantB.smallCubes s4 !! j = Some c4 ∧
             VariantB.userData c4 = VariantB.userData c ∧
             VariantB.position c4 = VariantB.position c ∧
             sameOrientation (VariantB.quaternion c4)
                             (VariantB.quaternion c)).
Proof.
  split.
  - intros s a i dir rec tm1 tm2 tm3 tm4 Hr Hal Hi Hd H1 H2 H3 H4 s4.
    destruct (four_rotationsA s a i dir rec tm1 tm2 tm3 tm4)
      as (Hr4 & Hc4); try done.
    fold s4 in Hr4, Hc4. split; [apply Hr4|].
    intros j c Hj. destruct Hr as (_ & _ & _ & Hg).
    rewrite Hc4, (turnSlice4_lookup a i dir _ j c Hd Hg Hj).
    eexists. split; [done|].
    destruct (VariantA.inSlice a i c); [|done].
    apply turnCube4; [done| |].
    + by apply (proj1 (Forall_lookup _ _) Hg j c).
    + by apply (proj1 (Forall_lookup _ _) Hal j c).
  - intros s a i dir tm1 tm2 tm3 tm4 Hr Hi Hd H1 H2 H3 H4 s4.
    destruct (four_rotationsB s a i dir tm1 tm2 tm3 tm4)
      as (Hr4 & Hc4); try done.
    fold s4 in Hr4, Hc4. split; [apply Hr4|].
    intros j c Hj. destruct Hr as (_ & _ & _ & _ & Hg).
    rewrite Hc4, (settleSlice4_lookup a i dir _ j c Hd Hg Hj).
    eexists. split; [done|].
    destruct (VariantB.inSlice a i c); [|done].
    apply settle4; [done|].
    by apply (proj1 (Forall_lookup _ _) Hg j c).
Qed.

Lemma C5_witness :
  SpecA.atRest VariantA.initialState ∧ SpecA.aligned VariantA.initialState ∧
  SpecB.atRest VariantB.initialState ∧
  VariantA.isAnimating
    (SpecA.rotationRun AxisY 0 (-1) true sampleTiming
       (SpecA.rotationRun AxisY 0 (-1) true sampleTiming
          (SpecA.rotationRun AxisY 0 (-1) true sampleTiming
             (SpecA.rotationRun AxisY 0 (-1) true sampleTiming
                VariantA.initialState)))) = false ∧
  VariantB.isAnimating
    (SpecB.rotationRun AxisY 0 (-1) sampleTiming
       (SpecB.rotationRun AxisY 0 (-1) sampleTiming
          (SpecB.rotationRun AxisY 0 (-1) sampleTiming
             (SpecB.rotationRun AxisY 0 (-1) sampleTiming
                VariantB.initialState)))) = false.
Proof.
  assert (0 <= 0 <= 2)%Z as Hi by lia.
  assert ((-1)%Z = 1%Z ∨ (-1)%Z = (-1)%Z) as Hd by (right; reflexivity).
  split; [exact initialState_atRest|].
  split; [exact initialState_aligned|].
  split; [exact initialStateB_atRest|].
  split.
  - exact (proj1 (proj1 C5_four_rotations_restore VariantA.initialState
             AxisY 0%Z (-1)%Z true sampleTiming sampleTiming sampleTiming
             sampleTiming initialState_atRest initialState_aligned Hi Hd
             (proj1 sampleTiming_completes) (proj1 sampleTiming_completes)
             (proj1 sampleTiming_completes) (proj1 sampleTiming_completes))).
  - exact (proj1 (proj2 C5_four_rotations_restore VariantB.initialState
             AxisY 0%Z (-1)%Z sampleTiming sampleTiming sampleTiming
             sampleTiming initialStateB_atRest Hi Hd
             (proj2 sampleTiming_completes) (proj2 sampleTiming_completes)
             (proj2 sampleTiming_completes) (proj2 sampleTiming_completes))).
Defined.

(** The stored quaternion, unlike the orientation, is not a fixed point
    of the snap: a quaternion turned about x by an angle between -180 and
    -135 degrees snaps to the half turn written (-1, 0, 0, 0), whose
    Euler angle the library reads back as +180 degrees, so that a second
    snap stores (1, 0, 0, 0). *)
Lemma snapQuaternion_near_half_turn :
  VariantA.snapQuaternion (mkQuaternion (- (24 / 25)) 0 0 (7 / 25))
  = Exact.toQuaternion (Exact.setFromEuler (-2, 0, 0)%Z).
Proof.
  rewrite toQuaternion_setFromEuler by lia.
  unfold VariantA.snapQuaternion, setFromQuaternion.
  assert (makeRotationFromQuaternion (mkQuaternion (- (24 / 25)) 0 0 (7 / 25))
          = mkMatrix3 1 0 0 0 (- (527 / 625)) (336 / 625)
                      0 (- (336 / 625)) (- (527 / 625))) as ->.
  { unfold makeRotationFromQuaternion. cbn. f_equal; lra. }
  assert (setFromRotationMatrix
            (mkMatrix3 1 0 0 0 (- (527 / 625)) (336 / 625)
                       0 (- (336 / 625)) (- (527 / 625)))
          = mkEuler (atan (336 / 527) - Math.PI) 0 0) as ->.
  { unfold setFromRotationMatrix. cbn [m11 m12 m13 m22 m23 m32 m33].
    assert (Math.ltb (Math.abs 0) 0.9999999 = true) as ->.
    { unfold Math.ltb, Math.abs. rewrite Rabs_R0.
      destruct (Rlt_dec _ _); [done|lra]. }
    f_equal.
    - unfold Math.atan2.
      destruct (Rlt_dec 0 _) as [?|_]; [lra|].
      destruct (Rlt_dec _ 0) as [_|?]; [|lra].
      destruct (Rle_dec 0 _) as [?|_]; [lra|].
      do 2 f_equal. field.
    - unfold Math.clamp. rewrite Rmin_right, Rmax_right by lra.
      apply asin_0.
    - unfold Math.atan2. destruct (Rlt_dec 0 1) as [_|?]; [|lra].
      replace (- 0 / 1) with 0 by field. apply atan_0. }
  cbn [ex ey ez]. unfold quarterAngles.
  assert (0 < atan (336 / 527) < Math.PI / 4) as Hat.
  { unfold Math.PI. rewrite <- atan_0, <- atan_1.
    split; apply atan_increasing; lra. }
  pose proof PI2_pos as Hp.
  assert (Math.round ((atan (336 / 527) - Math.PI) / (Math.PI / 2)) = (-2)%Z)
    as ->.
  { unfold Math.round. apply Zfloor_eq.
    set (h := Math.PI / 2) in *.
    assert (Math.PI = 2 * h) as -> by (unfold h; lra).
    assert (Math.PI / 4 = h / 2) as Hq by (unfold h; lra).
    rewrite Hq in Hat. clearbody h.
    replace ((atan (336 / 527) - 2 * h) / h) with (atan (336 / 527) / h - 2)
      by (field; lra).
    assert (0 < atan (336 / 527) / h < / 2) as Hr.
    { split.
      - apply Rdiv_lt_0_compat; lra.
      - apply (Rmult_lt_reg_r h); [lra|].
        replace (atan (336 / 527) / h * h) with (atan (336 / 527))
          by (field; lra).
        lra. }
    change (IZR (-2)) with (- 2). lra. }
  assert (Math.round (0 / (Math.PI / 2)) = 0%Z) as ->.
  { replace (0 / (Math.PI / 2)) with (IZR 0) by (field; lra).
    apply round_IZR. }
  reflexivity.
Qed.

Lemma half_turn_read_back :
  Exact.snapQuaternion (Exact.setFromEuler (-2, 0, 0)%Z)
  = Some (Exact.negate (Exact.setFromEuler (-2, 0, 0)%Z)).
Proof. vm_compute. reflexivity. Qed.

Lemma half_turn_sign :
  Exact.distinctInt (Exact.qx (Exact.negate (Exact.setFromEuler (-2, 0, 0)%Z)))
                    (Exact.qx (Exact.setFromEuler (-2, 0, 0)%Z)) = true.
Proof. vm_compute. reflexivity. Qed.

Lemma snapQuaternion_stored_sign :
  let q := mkQuaternion (- (24 / 25)) 0 0 (7 / 25) in
  VariantA.snapQuaternion (VariantA.snapQuaternion q)
  = negateQuaternion (VariantA.snapQuaternion q) ∧
  VariantA.snapQuaternion (VariantA.snapQuaternion q)
  ≠ VariantA.snapQuaternion q.
Proof.
  intros q. unfold q. rewrite snapQuaternion_near_half_turn.
  rewrite (snapQuaternion_exact _ _ half_turn_read_back).
  split; [apply toQuaternion_negate|].
  intros Heq. apply (distinctInt_sound _ _ half_turn_sign).
  exact (f_equal qx Heq).
Qed.

(** C6.  The snap step of variant A is idempotent: snapping a sub-cube
    that has just been snapped leaves its grid coordinate, its position
    and its dots as they are and its orientation the same rotation; and
    [snapQuaternion] applied twice gives the orientation it gives applied
    once, whatever the quaternion. *)
Theorem C6_snap_idempotent :
  (∀ c : VariantA.Cube,
     let c1 := VariantA.snapCube c in
     let c2 := VariantA.snapCube c1 in
     VariantA.userData c2 = VariantA.userData c1 ∧
     VariantA.position c2 = VariantA.position c1 ∧
     sameOrientation (VariantA.quaternion c2) (VariantA.quaternion c1) ∧
     VariantA.dots c2 = VariantA.dots c1) ∧
  (∀ q, sameOrientation (VariantA.snapQuaternion (VariantA.snapQuaternion q))
                        (VariantA.snapQuaternion q)).
Proof.
  split.
  - intros c. apply snapCube_idempotent.
  - apply snapQuaternion_idempotent.
Qed.

(** C7.  [checkIfSolved] returns true exactly when, every dot of every
    sub-cube being classified by the first of the directions +x, -x, +y,
    -y, +z, -z along which its world position lies beyond the threshold,
    each of the six groups has exactly 9 dots and the dots of a group all
    carry one color tag; it returns false as soon as some group has
    another number of dots or holds two different tags.  The same holds
    of the check on any layout of dots. *)
Theorem C7_checkIfSolved_groups :
  (∀ wd : list (Vector3 * Z),
     (VariantA.checkDots wd = true ↔
      ∀ f, length (SpecA.group f wd) = 9%nat ∧ SpecA.uniform (SpecA.group f wd)) ∧
     (∀ f, length (SpecA.group f wd) ≠ 9%nat -> VariantA.checkDots wd = false) ∧
     (∀ f c c', c ∈ SpecA.group f wd -> c' ∈ SpecA.group f wd -> c ≠ c' ->
                VariantA.checkDots wd = false)) ∧
  (∀ s : VariantA.State,
     let seen f := SpecA.seenOn f (VariantA.cubeGroupRotation s)
                                (VariantA.smallCubes s) in
     (VariantA.checkIfSolved s = true ↔
      ∀ f, length (seen f) = 9%nat ∧ SpecA.uniform (seen f)) ∧
     (∀ f, length (seen f) ≠ 9%nat -> VariantA.checkIfSolved s = false) ∧
     (∀ f c c', c ∈ seen f -> c' ∈ seen f -> c ≠ c' ->
                VariantA.checkIfSolved s = false)).
Proof.
  assert (∀ wd : list (Vector3 * Z),
     (VariantA.checkDots wd = true ↔
      ∀ f, length (SpecA.group f wd) = 9%nat ∧ SpecA.uniform (SpecA.group f wd)) ∧
     (∀ f, length (SpecA.group f wd) ≠ 9%nat -> VariantA.checkDots wd = false) ∧
     (∀ f c c', c ∈ SpecA.group f wd -> c' ∈ SpecA.group f wd -> c ≠ c' ->
                VariantA.checkDots wd = false)) as Hall.
  { intros wd. split; [apply checkDots_spec|]. split.
    - intros f Hlen. apply not_true_is_false. intros H.
      by destruct (proj1 (checkDots_spec wd) H f).
    - intros f c c' Hc Hc' Hne. apply not_true_is_false. intros H.
      destruct (proj1 (checkDots_spec wd) H f) as [_ Hu].
      by apply Hne, Hu. }
  split; [exact Hall|]. intros s seen.
  destruct (Hall (VariantA.worldDots (VariantA.cubeGroupRotation s)
                                     (VariantA.smallCubes s)))
    as (Hiff & Hlen & Htag).
  unfold VariantA.checkIfSolved, seen. split; [|split].
  - rewrite Hiff. by setoid_rewrite group_seenOn.
  - intros f. rewrite <- group_seenOn. apply Hlen.
  - intros f c c'. rewrite <- group_seenOn. apply Htag.
Qed.

Lemma C7_witness :
  let s := VariantA.initialState in
  let seen f := SpecA.seenOn f (VariantA.cubeGroupRotation s)
                             (VariantA.smallCubes s) in
  let s' := VariantA.withCubes (tail VariantA.buildCubes) s in
  (∀ f, length (seen f) = 9%nat ∧ SpecA.uniform (seen f)) ∧
  seen SpecA.PosX = replicate 9 (VariantA.RUBIKS_COLORS 0) ∧
  VariantA.checkIfSolved s = true ∧
  length (SpecA.seenOn SpecA.NegX (VariantA.cubeGroupRotation s')
                       (VariantA.smallCubes s')) ≠ 9%nat ∧
  VariantA.checkIfSolved s' = false.
Proof.
  intros s seen s'.
  assert (∀ f, seen f = SpecA.createdFor f VariantA.buildCubes) as Hseen
    by (intros f; apply seenOn_createdFor, buildCubes_dotsInPlace).
  assert (∀ f, length (seen f) = 9%nat ∧ SpecA.uniform (seen f)) as Hall.
  { intros f. rewrite Hseen. apply faceOk_spec, buildCubes_createdFor. }
  assert (length (SpecA.seenOn SpecA.NegX (VariantA.cubeGroupRotation s')
                               (VariantA.smallCubes s')) ≠ 9%nat) as Hless.
  { unfold s', s, VariantA.withCubes, VariantA.initialState.
    cbn [VariantA.smallCubes VariantA.cubeGroupRotation].
    rewrite seenOn_createdFor
      by (apply Forall_tail, buildCubes_dotsInPlace).
    vm_compute. lia. }
  split; [exact Hall|]. split; [by rewrite Hseen|].
  split; [exact (proj2 (proj1 (proj2 C7_checkIfSolved_groups s)) Hall)|].
  split; [exact Hless|].
  exact (proj1 (proj2 (proj2 C7_checkIfSolved_groups s')) SpecA.NegX Hless).
Defined.

(** C8.  [checkForSolve] with the latch unset returns false and does
    nothing but set the latch; with the latch set and the cube solved it
    returns true, toggles dark mode, sets the body class and the two
    post-processing passes to the new mode, applies the default material
    when the new mode is dark, and resets the latch, so that the check
    that follows returns false; with the latch set and the cube not solved
    it returns false and changes nothing.  The cube as loaded is solved,
    and its first check returns false and leaves the display alone. *)
Theorem C8_solve_latch :
  (∀ s, VariantA.hasBeenMixed s = false ->
        VariantA.checkForSolve s = (false, VariantA.withHasBeenMixed true s)) ∧
  (∀ s, VariantA.hasBeenMixed s = true -> VariantA.checkIfSolved s = true ->
        let s' := snd (VariantA.checkForSolve s) in
        let dark := negb (VariantA.isDarkMode (VariantA.display s)) in
        fst (VariantA.checkForSolve s) = true ∧
        VariantA.display s'
        = VariantA.mkDisplay dark dark dark dark
            (if dark then Some (-1)%Z
             else VariantA.materialPreset (VariantA.display s)) ∧
        VariantA.hasBeenMixed s' = false ∧
        VariantA.smallCubes s' = VariantA.smallCubes s ∧
        fst (VariantA.checkForSolve s') = false) ∧
  (∀ s, VariantA.hasBeenMixed s = true -> VariantA.checkIfSolved s = false ->
        VariantA.checkForSolve s = (false, s)) ∧
  (VariantA.checkIfSolved VariantA.initialState = true ∧
   VariantA.checkForSolve VariantA.initialState
   = (false, VariantA.withHasBeenMixed true VariantA.initialState)).
Proof.
  split; [exact checkForSolve_unarmed|].
  split; [|split; [exact checkForSolve_unsolved|]].
  - intros s Hm Hs s' dark. unfold s'.
    rewrite (checkForSolve_fires s Hm Hs). cbn [fst snd].
    repeat split.
  - split; [by apply built_solved|]. by apply checkForSolve_unarmed.
Qed.

Lemma C8_witness :
  let s := VariantA.withHasBeenMixed true VariantA.initialState in
  VariantA.hasBeenMixed s = true ∧ VariantA.checkIfSolved s = true ∧
  fst (VariantA.checkForSolve s) = true ∧
  VariantA.isDarkMode (VariantA.display (snd (VariantA.checkForSolve s)))
  = true.
Proof.
  intros s.
  assert (VariantA.checkIfSolved s = true) as Hs by (by apply built_solved).
  destruct (proj1 (proj2 C8_solve_latch) s eq_refl Hs) as (Hf & Hd & _).
  repeat split; [exact Hs|exact Hf|]. rewrite Hd. reflexivity.
Defined.

(** C9.  Every entry of [faceToMove] turns an outer slice: its slice
    index is 0 or 2, for each of the faces 0..5 (and only these have an
    entry).  Whatever happens on the page (the intro ending, clicks on
    navigation buttons, animation frames, solve timers, rendering), the
    six face-center sub-cubes keep the grid coordinates they were built
    with. *)
Theorem C9_navigation_turns_outer_slices :
  (∀ face move, VariantA.faceToMove face = Some move ->
     (index move = 0 ∨ index move = 2)%Z) ∧
  (∀ face, (0 <= face <= 5)%Z ->
     ∃ move, VariantA.faceToMove face = Some move ∧ index move ≠ 1%Z) ∧
  (∀ es j c,
     VariantA.buildCubes !! j = Some c -> VariantA.userData c ∈ faceCenters ->
     ∃ c', VariantA.smallCubes (VariantA.run VariantA.initialState es) !! j
           = Some c' ∧
           VariantA.userData c' = VariantA.userData c).
Proof.
  split; [|split].
  - intros face move H. by apply faceToMove_outer in H as [? _].
  - intros face Hf.
    assert (face = 0 ∨ face = 1 ∨ face = 2 ∨ face = 3 ∨ face = 4 ∨ face = 5)%Z
      as Hcases by lia.
    destruct Hcases as [-> | [-> | [-> | [-> | [-> | ->]]]]];
      eexists; (split; [reflexivity|]); cbn; lia.
  - intros es. apply navigated_centersKept, navigated_run, navigated_initial.
Qed.

Lemma C9_witness :
  ∃ c', VariantA.smallCubes
          (VariantA.run VariantA.initialState
             [VariantA.IntroDone; VariantA.Click 0 0 0; VariantA.Frame 400;
              VariantA.Timeout]) !! 21%nat = Some c' ∧
        VariantA.userData c' = mkUserData 2 1 1.
Proof.
  destruct (VariantA.buildCubes !! 21%nat) as [c|] eqn:Hj; [|discriminate Hj].
  assert (VariantA.userData c = mkUserData 2 1 1) as Hu
    by (injection Hj as <-; reflexivity).
  assert (VariantA.userData c ∈ faceCenters) as Hin
    by (rewrite Hu; apply list_elem_of_here).
  destruct (proj2 (proj2 C9_navigation_turns_outer_slices)
              [VariantA.IntroDone; VariantA.Click 0 0 0; VariantA.Frame 400;
               VariantA.Timeout] 21%nat c Hj Hin) as (c' & Hj' & Hu').
  exists c'. split; [exact Hj'|]. by rewrite Hu'.
Defined.



(** * Further properties of the code *)

Section ReachableA.
Import VariantA SpecA ReachA.

Lemma posed_userData q a i cubes :
  userData <$> posed q a i cubes = userData <$> cubes.
Proof.
  unfold posed. rewrite <- list_fmap_compose. apply list_fmap_ext.
  intros j c _. cbn. by destruct (inSlice a i c).
Qed.

Lemma settled_buildCubes : settled buildCubes.
Proof.
  split; [by rewrite buildCubes_userData|].
  split; [apply buildCubes_onGrid|apply initialState_aligned].
Qed.

Lemma settled_turnSlice a i dir cubes :
  (0 <= i <= 2)%Z -> dir = 1%Z ∨ dir = (-1)%Z ->
  settled cubes -> settled (turnSlice a i dir cubes).
Proof.
  intros Hi Hd (Hp & Hg & Ha). split; [|split].
  - rewrite turnSlice_userData by done.
    by rewrite (proj1 (turnSlot_shell_perm a i dir _ Hi Hd Hp)).
  - by apply turnSlice_onGrid.
  - unfold turnSlice. apply Forall_fmap.
    eapply Forall_impl; [exact Ha|]. intros c Hc. cbn.
    destruct (inSlice a i c); [|done].
    rewrite quaternion_turnCube. by apply turn_aligned.
Qed.

Lemma reachable_initial : reachable initialState.
Proof. exists buildCubes. split; [apply settled_buildCubes|]. by left. Qed.

Lemma reachable_ext s s' :
  smallCubes s' = smallCubes s -> isAnimating s' = isAnimating s ->
  animation s' = animation s -> reachable s -> reachable s'.
Proof.
  intros Hc Ha Hn (cubes & Hs & H). exists cubes. rewrite Hc, Ha, Hn. done.
Qed.

Lemma reachable_frame now s cubes a i dir k t0 :
  settled cubes ->
  animation s = Some (newAnimation a i dir k t0 cubes) ->
  isAnimating s = true ->
  sameButPose a i (smallCubes s) cubes ->
  (0 <= i <= 2)%Z -> (dir = 1 ∨ dir = -1)%Z ->
  reachable (animateSlice now s).
Proof.
  intros Hset Ha Hs Hp Hi Hd.
  rewrite (animateSlice_frame now s a i dir k t0 cubes) by done.
  destruct (Math.ltb _ 1).
  - exists cubes. split; [done|]. right.
    split; [done|]. eexists a, i, dir, k, t0, _. done.
  - exists (turnSlice a i dir cubes).
    split; [by apply settled_turnSlice|]. left.
    destruct (resolve_fields k (finish (turnSlice a i dir cubes) s))
      as (-> & -> & -> & _). done.
Qed.

Lemma faceToMove_valid face move :
  faceToMove face = Some move ->
  ((0 <= index move <= 2) ∧ (direction move = 1 ∨ direction move = -1))%Z.
Proof.
  intros H. destruct (faceToMove_outer _ _ H) as [[Hi | Hi] Hd];
    (split; [lia|done]).
Qed.

Lemma reachable_step s e : reachable s -> reachable (step s e).
Proof.
  intros Hn. destruct e as [|face t0 t1|now| |rx ry]; cbn [step].
  - destruct (introComplete s); [done|]. by eapply reachable_ext.
  - unfold navigateToFace.
    destruct (isAnimating s) eqn:Hs; [done|]. cbn [orb].
    destruct (negb (introComplete s)); [done|].
    destruct (faceToMove face) as [move|] eqn:Hm.
    + destruct (faceToMove_valid _ _ Hm) as [Hi Hd].
      destruct Hn as (cubes & Hset & [(_ & Hnone & Hc) | (Ha & _)]);
        [|congruence].
      rewrite rotateSlice_begin by done.
      eapply (reachable_frame _ _ cubes); [done| | | |done|done].
      * cbn. by rewrite Hc.
      * done.
      * cbn. rewrite Hc. apply sameButPose_refl.
    + destruct (navigateResume_fields face s) as (? & ? & ? & _).
      by eapply reachable_ext.
  - destruct Hn as (cubes & Hset & [(Hs & Hnone & Hc) | (Hs & H)]).
    + unfold animateSlice. rewrite Hnone.
      exists cubes. split; [done|]. by left.
    + destruct H as (a & i & dir & k & t0 & q & Ha & Hc & Hi & Hd).
      eapply (reachable_frame _ _ cubes); [done..| |done|done].
      rewrite Hc. apply sameButPose_posed.
  - destruct (solveTimers s) as [|n]; [done|].
    destruct (checkForSolve_fields
                (mkState (smallCubes s) (cubeGroupRotation s)
                   (introComplete s) (isAnimating s) (animation s)
                   (moveHistory s) (isSolved s) (hasBeenMixed s)
                   (display s) (currentFace s) n)) as (? & ? & ? & _).
    by eapply reachable_ext.
  - by eapply reachable_ext.
Qed.

Lemma reachable_run es s : reachable s -> reachable (run s es).
Proof.
  revert s. induction es as [|e es IH]; intros s Hs; [done|].
  change (run s (e :: es)) with (run (step s e) es).
  apply IH. by apply reachable_step.
Qed.
End ReachableA.

Section ShuffleB.
Import VariantB SpecB PageB ReachB.

Lemma floor_thirds (r : R) : 0 <= r < 1 -> (0 <= Zfloor (r * 3) <= 2)%Z.
Proof.
  intros Hr. split.
  - apply Zfloor_lub. cbn. lra.
  - assert (Zfloor (r * 3) < 3)%Z; [|lia].
    apply lt_IZR. pose proof (Zfloor_bound (r * 3)). lra.
Qed.

Lemma drawMove_valid r1 r2 r3 :
  0 <= r1 < 1 -> 0 <= r2 < 1 ->
  ∃ m, drawMove r1 r2 r3 = Some m ∧ validMove m.
Proof.
  intros H1 H2. unfold drawMove.
  pose proof (floor_thirds r1 H1) as Hk.
  pose proof (floor_thirds r2 H2) as Hi.
  assert (Zfloor (r1 * 3) = 0 ∨ Zfloor (r1 * 3) = 1 ∨ Zfloor (r1 * 3) = 2)%Z
    as [-> | [-> | ->]] by lia; cbn [axes];
    (eexists; split; [reflexivity|]; split; cbn [index direction];
     [exact Hi|destruct (Math.gtb r3 0.5); [by left|by right]]).
Qed.

Lemma inflight_isAnimating v a i dir t0 s :
  isAnimating (inflight v a i dir t0 s) = true.
Proof. reflexivity. Qed.

Lemma completedB_isAnimating a i dir s :
  isAnimating (completed a i dir s) = false.
Proof. reflexivity. Qed.

Lemma reachableB_view v p : reachable p -> reachable (withView v p).
Proof. done. Qed.

Lemma reachableB_shuffleDone k p : reachable p -> reachable (shuffleDone k p).
Proof. destruct k; [apply reachableB_view|done]. Qed.

Section Random.
Variables random clock : nat -> R.
Hypothesis random_range : ∀ n, 0 <= random n < 1.

Lemma reachableB_rubiksShuffle n k p :
  reachable p -> reachable (rubiksShuffle random clock n k p).
Proof.
  revert p. induction n as [|n IH]; intros p Hp; cbn [rubiksShuffle].
  - by apply reachableB_shuffleDone.
  - destruct (drawMove_valid (random (randomReads p))
                (random (randomReads p + 1)) (random (randomReads p + 2))
                (random_range _) (random_range _)) as (m & -> & Hi & Hd).
    destruct (isAnimating (scene p)) eqn:Ha.
    + apply IH. exact Hp.
    + destruct Hp as [(Hr & Hw) | (s0 & v & a & i & dir & t0 & w & _ & Hs & _)];
        [|by rewrite Hs in Ha].
      destruct (rotateSliceB_outcome (axis m) (index m) (direction m)
                  (clock (clockReads p)) (clock (clockReads p + 1))
                  (scene p) Ha) as [-> | [v ->]].
      * rewrite completedB_isAnimating. apply IH. left. split; [|done].
        by apply completedB_atRest.
      * rewrite inflight_isAnimating. right.
        eexists (scene p), v, (axis m), (index m), (direction m), _, _.
        done.
Qed.

Lemma reachableB_step hasTemplate p e :
  reachable p -> reachable (step random clock hasTemplate p e).
Proof.
  intros Hp. destruct e; cbn [step]; try by apply reachableB_view.
  - destruct (shufflePending p); [|done].
    by apply reachableB_rubiksShuffle.
  - unfold navigateToFace. destruct (isAnimating (scene p)); [done|].
    by apply reachableB_rubiksShuffle, reachableB_view.
  - unfold sliceFrame.
    destruct Hp as [(Hr & Hw) | (s0 & v & a & i & dir & t0 & w & Hr & Hs & Hm & Hw)].
    + pose proof Hr as (_ & Hn & _). rewrite Hn. by left.
    + rewrite Hs. cbn [inflight animation].
      destruct Hm as [Hi Hd]. cbn [index direction] in Hi, Hd.
      destruct (animateSliceB_inflight (clock (clockReads p)) v a i dir t0 s0)
        as [-> | [v' ->]].
      * rewrite completedB_isAnimating, Hw.
        apply reachableB_rubiksShuffle. left. split; [|done].
        by apply completedB_atRest.
      * rewrite inflight_isAnimating. right.
        eexists s0, v', a, i, dir, t0, w. done.
  - destruct onBackdrop; [by apply reachableB_view|done].
Qed.

Lemma reachableB_run hasTemplate es p :
  reachable p -> reachable (run random clock hasTemplate p es).
Proof.
  revert p. induction es as [|e es IH]; intros p Hp; [done|].
  cbn. apply IH. by apply reachableB_step.
Qed.

End Random.

Lemma reachable_initialPage : reachable initialPage.
Proof. left. split; [apply initialStateB_atRest|done]. Qed.

Lemma moved_userData a i cubes :
  userData <$> moved a i cubes = userData <$> cubes.
Proof.
  unfold moved. rewrite <- list_fmap_compose. apply list_fmap_ext.
  intros j c _. cbn. by destruct (inSlice a i c).
Qed.

End ShuffleB.

(** X2.  Variant B, whatever the random draws (in [0, 1)) and clock
    readings, and whatever happens on the page (the initial shuffle, clicks
    on navigation buttons, frames, dragging, timers, clicks on the cube and
    the overlay): the 26 sub-cubes carry the 26 shell coordinates, one
    each; whenever [isAnimating] is clear every sub-cube sits on the grid
    position of its coordinate, the rotation group is reset and no shuffle
    is suspended; and whenever it is set, the shuffle that started the
    rotation awaits it. *)
Theorem X2_grid_invariant_B (random clock : nat -> R)
    (hasTemplate : Z -> bool) (es : list PageB.Event) :
  (∀ n, 0 <= random n < 1) ->
  let p := PageB.run random clock hasTemplate PageB.initialPage es in
  VariantB.userData <$> VariantB.smallCubes (PageB.scene p) ≡ₚ shell ∧
  (VariantB.isAnimating (PageB.scene p) = false ->
     SpecB.atRest (PageB.scene p) ∧ PageB.waiter p = None) ∧
  (VariantB.isAnimating (PageB.scene p) = true ->
     ∃ w, PageB.waiter p = Some w).
Proof.
  intros Hrand p.
  pose proof (reachableB_run random clock Hrand hasTemplate es
                PageB.initialPage reachable_initialPage) as Hp.
  fold p in Hp.
  destruct Hp
    as [(Hr & Hw) | (s0 & v & a & i & dir & t0 & w & Hr & Hs & Hm & Hw)].
  - split; [apply Hr|]. split; [done|].
    intros Ha. destruct Hr as (Ha' & _). congruence.
  - rewrite Hs. split; [|split].
    + cbn. rewrite moved_userData. apply Hr.
    + done.
    + eauto.
Qed.

Lemma X2_witness :
  (∀ n : nat, 0 <= (fun _ => / 2) n < 1) ∧
  VariantB.userData <$>
    VariantB.smallCubes
      (PageB.scene
         (PageB.run (fun _ => / 2) (fun n => INR n * 1000) (fun _ => true)
            PageB.initialPage
            [PageB.InitialShuffle; PageB.NavClick 3; PageB.SliceFrame]))
  ≡ₚ shell.
Proof.
  assert (∀ n : nat, 0 <= (fun _ => / 2) n < 1) as H by (intros _; lra).
  split; [exact H|].
  exact (proj1 (X2_grid_invariant_B (fun _ => / 2) (fun n => INR n * 1000)
                  (fun _ => true)
                  [PageB.InitialShuffle; PageB.NavClick 3; PageB.SliceFrame]
                  H)).
Defined.

Section ViewB.
Import PageB.

Lemma animate_dragging v t c :
  isDragging v = true -> targetRotation v = Some t ->
  currentRotation v = Some c ->
  isDragging (animate v) = true ∧ targetRotation (animate v) = Some t ∧
  velocity (animate v) = velocity v ∧
  currentRotation (animate v)
  = Some (mkXY (px c + (px t - px c) * 0.03) (py c + (py t - py c) * 0.03)) ∧
  cubeGroupRotation (animate v) = currentRotation (animate v).
Proof.
  intros Hd Ht Hc. unfold animate. rewrite Hd, Ht, Hc.
  rewrite andb_false_r. cbn. done.
Qed.

Lemma animate_released v t :
  isDragging v = false -> targetRotation v = Some t ->
  isDragging (animate v) = false ∧ autoRotate (animate v) = autoRotate v ∧
  targetRotation (animate v)
  = Some (mkXY (px t + px (velocity v))
               (py t + (if autoRotate v then 0.003 else 0)
                + py (velocity v))) ∧
  velocity (animate v)
  = mkXY (px (velocity v) * 0.95) (py (velocity v) * 0.95).
Proof.
  intros Hd Ht. unfold animate. rewrite Hd, Ht, andb_true_r. cbn.
  destruct (autoRotate v); cbn; repeat split; do 2 f_equal; lra.
Qed.

End ViewB.

(** X3.  Variant B: a shuffle that starts while a rotation is in flight
    makes no move at all.  When the timer of the initial shuffle fires
    during a rotation, each of its three [rotateSlice] calls is dropped:
    the scene, the suspended shuffle, the view and the clock are left as
    they were, and nine random numbers have been drawn for nothing. *)
Theorem X3_shuffle_dropped_while_animating (random clock : nat -> R)
    (hasTemplate : Z -> bool) (p : PageB.Page) :
  (∀ n, 0 <= random n < 1) ->
  VariantB.isAnimating (PageB.scene p) = true ->
  PageB.shufflePending p = true ->
  PageB.step random clock hasTemplate p PageB.InitialShuffle
  = PageB.mkPage (PageB.scene p) (PageB.waiter p) (PageB.view p) false
                 (PageB.randomReads p + 9)%nat (PageB.clockReads p).
Proof.
  intros Hrand Ha Hp. cbn [PageB.step]. rewrite Hp.
  assert (∀ n k q, VariantB.isAnimating (PageB.scene q) = true ->
            PageB.rubiksShuffle random clock n k q
            = PageB.shuffleDone k
                (PageB.mkPage (PageB.scene q) (PageB.waiter q) (PageB.view q)
                   (PageB.shufflePending q) (PageB.randomReads q + 3 * n)%nat
                   (PageB.clockReads q))) as Hdrop.
  { induction n as [|n IH]; intros k q Hq; cbn [PageB.rubiksShuffle].
    - destruct q. cbn. by rewrite Nat.add_0_r.
    - destruct (drawMove_valid (random (PageB.randomReads q))
                  (random (PageB.randomReads q + 1)%nat)
                  (random (PageB.randomReads q + 2)%nat)
                  (Hrand _) (Hrand _)) as (m & -> & _).
      rewrite Hq, IH by done. cbn. do 2 f_equal. lia. }
  rewrite Hdrop by done. reflexivity.
Qed.

Lemma X3_witness :
  let p := PageB.mkPage
             (SpecB.inflight 0 AxisX 0 1 0 VariantB.initialState)
             (Some (PageB.mkWaiter 1 (Some 0%Z))) PageB.initialView true 3 3 in
  (∀ n : nat, 0 <= (fun _ => / 2) n < 1) ∧
  PageB.randomReads
    (PageB.step (fun _ => / 2) (fun _ => 0) (fun _ => true) p
       PageB.InitialShuffle) = 12%nat.
Proof.
  intros p.
  assert (∀ n : nat, 0 <= (fun _ => / 2) n < 1) as H by (intros _; lra).
  split; [exact H|].
  rewrite (X3_shuffle_dropped_while_animating (fun _ => / 2) (fun _ => 0)
             (fun _ => true) p H eq_refl eq_refl).
  reflexivity.
Defined.

(** X4.  [rubiksShuffle] draws exactly the 18 valid moves: whatever the
    three random numbers in [0, 1), the move drawn has a slice index in
    {0,1,2} and a direction in {+1,-1}; and every such move, a middle
    slice included, is drawn by some random numbers. *)
Theorem X4_drawMove_range :
  (∀ r1 r2 r3, 0 <= r1 < 1 -> 0 <= r2 < 1 -> 0 <= r3 < 1 ->
     ∃ m, PageB.drawMove r1 r2 r3 = Some m ∧
          (0 <= index m <= 2)%Z ∧ (direction m = 1 ∨ direction m = -1)%Z) ∧
  (∀ m, (0 <= index m <= 2)%Z -> (direction m = 1 ∨ direction m = -1)%Z ->
     ∃ r1 r2 r3, 0 <= r1 < 1 ∧ 0 <= r2 < 1 ∧ 0 <= r3 < 1 ∧
                 PageB.drawMove r1 r2 r3 = Some m).
Proof.
  split.
  - intros r1 r2 r3 H1 H2 _. by apply drawMove_valid.
  - intros [a i d] Hi Hd. cbn [index direction] in Hi, Hd.
    assert (∀ k : Z, (0 <= k <= 2)%Z ->
              0 <= IZR k / 3 < 1 ∧ Zfloor (IZR k / 3 * 3) = k) as Hthird.
    { intros k Hk.
      assert (0 <= IZR k <= 2) as Hr
        by (split; [apply (IZR_le 0)|apply (IZR_le _ 2)]; lia).
      split; [lra|].
      replace (IZR k / 3 * 3) with (IZR k) by field.
      apply Zfloor_eq. lra. }
    exists (IZR (match a with AxisX => 0 | AxisY => 1 | AxisZ => 2 end) / 3),
           (IZR i / 3),
           (if decide (d = 1%Z) then 3 / 4 else / 4).
    assert (0 <= match a with AxisX => 0 | AxisY => 1 | AxisZ => 2 end <= 2)%Z
      as Ha by (destruct a; lia).
    destruct (Hthird _ Ha) as [Hr1 Hf1]. destruct (Hthird _ Hi) as [Hr2 Hf2].
    split; [exact Hr1|]. split; [exact Hr2|].
    split; [destruct (decide (d = 1%Z)); lra|].
    unfold PageB.drawMove. rewrite Hf1.
    change (IZR SEGMENTS) with 3. rewrite Hf2.
    assert (PageB.axes (match a with AxisX => 0 | AxisY => 1 | AxisZ => 2 end)
            = Some a) as -> by (by destruct a).
    do 2 f_equal. unfold Math.gtb, Math.ltb.
    destruct (decide (d = 1%Z)) as [->|Hne].
    + destruct (Rlt_dec _ _); [done|lra].
    + destruct (Rlt_dec _ _); [lra|]. destruct Hd; [done|congruence].
Qed.

Lemma X4_witness :
  ∃ m, PageB.drawMove (/ 2) (/ 2) (/ 2) = Some m ∧ index m = 1%Z.
Proof.
  assert (0 <= / 2 < 1) as H by lra.
  destruct (proj1 X4_drawMove_range (/ 2) (/ 2) (/ 2) H H H)
    as (m & Hm & Hi & _).
  exists m. split; [exact Hm|].
  unfold PageB.drawMove in Hm.
  assert (Zfloor (/ 2 * 3) = 1%Z) as Hf by (apply Zfloor_eq; lra).
  change (IZR SEGMENTS) with 3 in Hm. rewrite Hf in Hm. cbn in Hm.
  by injection Hm as <-.
Defined.

(** X5.  Variant B's render loop while the user drags: every frame moves
    the displayed rotation 3% of the way to the target, so that after [n]
    frames the distance left is 0.97^n of what it was, on each axis; the
    target and the velocity are not touched, and the cube group shows the
    smoothed rotation. *)
Theorem X5_render_smoothing_B (v : PageB.View) (t c : PageB.XY) (n : nat) :
  PageB.isDragging v = true ->
  PageB.targetRotation v = Some t -> PageB.currentRotation v = Some c ->
  let v' := Nat.iter n PageB.animate v in
  PageB.targetRotation v' = Some t ∧
  PageB.velocity v' = PageB.velocity v ∧
  PageB.currentRotation v'
  = Some (PageB.mkXY (PageB.px t - 0.97 ^ n * (PageB.px t - PageB.px c))
                     (PageB.py t - 0.97 ^ n * (PageB.py t - PageB.py c))) ∧
  ((0 < n)%nat -> PageB.cubeGroupRotation v' = PageB.currentRotation v').
Proof.
  intros Hd Ht Hc. cbv zeta.
  assert (PageB.isDragging (Nat.iter n PageB.animate v) = true ∧
          PageB.targetRotation (Nat.iter n PageB.animate v) = Some t ∧
          PageB.velocity (Nat.iter n PageB.animate v) = PageB.velocity v ∧
          PageB.currentRotation (Nat.iter n PageB.animate v)
          = Some (PageB.mkXY
                    (PageB.px t - 0.97 ^ n * (PageB.px t - PageB.px c))
                    (PageB.py t - 0.97 ^ n * (PageB.py t - PageB.py c))))
    as Hall.
  { induction n as [|n (IHd & IHt & IHv & IHc)].
    - cbn. repeat split; try done. rewrite Hc. destruct c. cbn.
      do 2 f_equal; lra.
    - rewrite Nat.iter_succ.
      destruct (animate_dragging _ _ _ IHd IHt IHc)
        as (-> & -> & -> & -> & _).
      repeat split; try done. cbn [PageB.px PageB.py].
      do 2 f_equal; cbn [pow]; lra. }
  destruct Hall as (_ & ? & ? & ?). repeat split; try done.
  intros Hn. destruct n as [|n]; [lia|]. rewrite Nat.iter_succ.
  set (u := Nat.iter n PageB.animate v). unfold PageB.animate. done.
Qed.

Lemma X5_witness :
  let v := PageB.pointerDown 10 10 PageB.initialView in
  PageB.isDragging v = true ∧
  PageB.targetRotation (Nat.iter 5 PageB.animate v)
  = Some (PageB.mkXY 0 0).
Proof.
  intros v. split; [reflexivity|].
  exact (proj1 (X5_render_smoothing_B v (PageB.mkXY 0 0) (PageB.mkXY 0 0) 5
                  eq_refl eq_refl eq_refl)).
Defined.

(** X6.  Variant B's render loop after the user lets go: every frame adds
    the velocity to the target and then damps the velocity by 0.95.  After
    [n] frames the velocity is 0.95^n of the release velocity and the
    target has moved by 20 * (1 - 0.95^n) times the release velocity (plus
    0.003 per frame about y while auto-rotation is on): the momentum never
    carries the target further than 20 times the release velocity. *)
Theorem X6_render_momentum_B (v : PageB.View) (t : PageB.XY) (n : nat) :
  PageB.isDragging v = false -> PageB.targetRotation v = Some t ->
  let v' := Nat.iter n PageB.animate v in
  let vel := PageB.velocity v in
  PageB.velocity v'
  = PageB.mkXY (PageB.px vel * 0.95 ^ n) (PageB.py vel * 0.95 ^ n) ∧
  PageB.targetRotation v'
  = Some (PageB.mkXY
            (PageB.px t + 20 * (1 - 0.95 ^ n) * PageB.px vel)
            (PageB.py t + 20 * (1 - 0.95 ^ n) * PageB.py vel
             + (if PageB.autoRotate v then 0.003 * INR n else 0))) ∧
  (∀ x, PageB.targetRotation v' = Some x ->
        Rabs (PageB.px x - PageB.px t) <= 20 * Rabs (PageB.px vel)).
Proof.
  intros Hd Ht. cbv zeta.
  assert (PageB.isDragging (Nat.iter n PageB.animate v) = false ∧
          PageB.autoRotate (Nat.iter n PageB.animate v) = PageB.autoRotate v ∧
          PageB.velocity (Nat.iter n PageB.animate v)
          = PageB.mkXY (PageB.px (PageB.velocity v) * 0.95 ^ n)
                       (PageB.py (PageB.velocity v) * 0.95 ^ n) ∧
          PageB.targetRotation (Nat.iter n PageB.animate v)
          = Some (PageB.mkXY
                    (PageB.px t
                     + 20 * (1 - 0.95 ^ n) * PageB.px (PageB.velocity v))
                    (PageB.py t
                     + 20 * (1 - 0.95 ^ n) * PageB.py (PageB.velocity v)
                     + (if PageB.autoRotate v then 0.003 * INR n else 0))))
    as (_ & _ & Hv & Htn).
  { induction n as [|n (IHd & IHa & IHv & IHt)].
    - change (Nat.iter 0 PageB.animate v) with v. cbn [pow INR]. rewrite Ht.
      destruct (PageB.velocity v), t. cbn.
      repeat split; try done; do 2 f_equal; destruct (PageB.autoRotate v); lra.
    - rewrite Nat.iter_succ.
      destruct (animate_released _ _ IHd IHt) as (-> & -> & -> & ->).
      rewrite IHa, IHv. cbn [PageB.px PageB.py].
      split; [done|]. split; [done|]. split.
      + f_equal; cbn [pow]; ring.
      + do 2 f_equal; rewrite ?S_INR; cbn [pow];
          destruct (PageB.autoRotate v);
          generalize (0.95 ^ n); intros q; nra. }
  split; [exact Hv|]. split; [exact Htn|].
  intros x Hx. rewrite Htn in Hx. injection Hx as <-. cbn [PageB.px].
  replace (PageB.px t + 20 * (1 - 0.95 ^ n) * PageB.px (PageB.velocity v)
           - PageB.px t)
    with (20 * (1 - 0.95 ^ n) * PageB.px (PageB.velocity v)) by ring.
  assert (0 <= 0.95 ^ n <= 1) as Hp.
  { split; [apply pow_le; lra|].
    rewrite <- (pow1 n). apply pow_incr. lra. }
  rewrite Rabs_mult, (Rabs_right (20 * (1 - 0.95 ^ n))) by lra.
  pose proof (Rabs_pos (PageB.px (PageB.velocity v))). nra.
Qed.

Lemma X6_witness :
  let v := PageB.pointerUp
             (PageB.pointerMove 30 10
                (PageB.pointerDown 10 10 PageB.initialView)) in
  PageB.isDragging v = false ∧
  PageB.velocity (Nat.iter 3 PageB.animate v)
  = PageB.mkXY (PageB.px (PageB.velocity v) * 0.95 ^ 3)
               (PageB.py (PageB.velocity v) * 0.95 ^ 3).
Proof.
  intros v. split; [reflexivity|].
  assert (PageB.targetRotation v
          = Some (PageB.mkXY (0 + (10 - 10) * 0.005) (0 + (30 - 10) * 0.005)))
    as Ht by reflexivity.
  exact (proj1 (X6_render_momentum_B v _ 3 eq_refl Ht)).
Defined.

Section LostRotationB.
Import PageB.

Lemma lost_view_step (f : View -> View) :
  (∀ v, currentRotation v = None -> currentRotation (f v) = None) ->
  ∀ p, currentRotation (view p) = None ->
       currentRotation (view (withView (f (view p)) p)) = None.
Proof. intros Hf p Hp. cbn. by apply Hf. Qed.

Lemma lost_shuffle random clock n k p :
  currentRotation (view (rubiksShuffle random clock n k p))
  = currentRotation (view p).
Proof.
  revert p. induction n as [|n IH]; intros p; cbn [rubiksShuffle].
  - by destruct k.
  - destruct (drawMove _ _ _) as [m|]; [|done].
    destruct (VariantB.isAnimating (scene p)); [by rewrite IH|].
    destruct (VariantB.isAnimating _); [done|by rewrite IH].
Qed.

Lemma lost_step random clock hasTemplate p e :
  currentRotation (view p) = None ->
  currentRotation (view (step random clock hasTemplate p e)) = None.
Proof.
  intros Hp. destruct e; cbn [step].
  - destruct (shufflePending p); [|done]. by rewrite lost_shuffle.
  - unfold navigateToFace.
    destruct (VariantB.isAnimating (scene p)); [done|].
    by rewrite lost_shuffle.
  - unfold sliceFrame. destruct (VariantB.animation (scene p)); [|done].
    destruct (VariantB.isAnimating _); [done|].
    destruct (waiter p); [by rewrite lost_shuffle|done].
  - cbn. rewrite Hp. by destruct (if negb _ then _ else _).
  - done.
  - cbn. unfold pointerMove. by destruct (negb _).
  - done.
  - done.
  - cbn. unfold autoRotateTimeout. by destruct (autoTimers _).
  - cbn. unfold containerClick, showContent.
    destruct (_ && _); [|done]. by destruct (hasTemplate _).
  - done.
  - by destruct onBackdrop.
Qed.
End LostRotationB.

(** X7.  Variant B: [faceRotations] has entries for the faces 0..5 only.
    Presenting a face without entry leaves the target rotation without
    numbers; the next render frame then makes the displayed rotation of
    the cube group NaN, and no later event (dragging, navigation to a
    valid face, frames) ever brings a number back. *)
Theorem X7_unknown_face_loses_rotation (random clock : nat -> R)
    (hasTemplate : Z -> bool) :
  (∀ face, (0 <= face <= 5)%Z ↔ PageB.faceRotations face ≠ None) ∧
  (∀ face v, PageB.faceRotations face = None ->
     PageB.currentRotation (PageB.animate (PageB.presentFace face v)) = None ∧
     PageB.cubeGroupRotation (PageB.animate (PageB.presentFace face v))
     = None) ∧
  (∀ p es, PageB.currentRotation (PageB.view p) = None ->
     PageB.currentRotation
       (PageB.view (PageB.run random clock hasTemplate p es)) = None).
Proof.
  split; [|split].
  - intros face. split.
    + intros Hf.
      assert (face = 0 ∨ face = 1 ∨ face = 2 ∨ face = 3 ∨ face = 4
              ∨ face = 5)%Z as Hc by lia.
      by destruct Hc as [-> | [-> | [-> | [-> | [-> | ->]]]]].
    + intros Hf. destruct face as [|q|q]; [lia| |done].
      do 3 (try destruct q as [q|q|]); try done; lia.
  - intros face v Hf. unfold PageB.animate, PageB.presentFace.
    cbn [PageB.targetRotation PageB.isDragging PageB.autoRotate
         PageB.velocity PageB.currentRotation PageB.cubeGroupRotation].
    rewrite Hf. cbn [PageB.addXY].
    by destruct (_ && _), (negb _).
  - intros p es. revert p. induction es as [|e es IH]; intros p Hp; [done|].
    cbn [PageB.run fold_left]. apply IH. by apply lost_step.
Qed.

Lemma X7_witness :
  PageB.faceRotations 6 = None ∧
  PageB.currentRotation
    (PageB.animate (PageB.presentFace 6 PageB.initialView)) = None.
Proof.
  split; [reflexivity|].
  exact (proj1 (proj1 (proj2 (X7_unknown_face_loses_rotation
                                (fun _ => 0) (fun _ => 0) (fun _ => true)))
                  6%Z PageB.initialView eq_refl)).
Defined.

Section SmoothingA.
Import PageB ViewA.

Lemma powR_pos b e : 0 < powR b e.
Proof. unfold powR, Rpower. apply exp_pos. Qed.

Lemma powR_0 b : powR b 0 = 1.
Proof. unfold powR, Rpower. rewrite Rmult_0_l. apply exp_0. Qed.

Lemma powR_add b e1 e2 : powR b (e1 + e2) = powR b e1 * powR b e2.
Proof. apply Rpower_plus. Qed.

(** For a base below 1 the power does not exceed 1 on [0, +oo). *)
Lemma powR_le_1 b e : 0 < b < 1 -> 0 <= e -> powR b e <= 1.
Proof.
  intros Hb He. unfold powR, Rpower.
  rewrite <- exp_0. destruct (Req_dec e 0) as [->|Hne].
  - rewrite Rmult_0_l. lra.
  - left. apply exp_increasing.
    assert (ln b < 0) as Hl by (rewrite <- ln_1; apply ln_increasing; lra).
    nra.
Qed.

Lemma last_frame_cons (now : R) frames d :
  List.last (now :: frames) d = List.last frames now.
Proof.
  revert now d. induction frames as [|a frames IH]; intros now d; [done|].
  change (List.last (now :: a :: frames) d) with (List.last (a :: frames) d).
  by rewrite !IH.
Qed.

Lemma frame_deltaTime now last :
  0 <= now - last <= 100 ->
  Math.min ((now - last) / 1000) 0.1 = (now - last) / 1000.
Proof. intros H. unfold Math.min. apply Rmin_left. lra. Qed.

Lemma animateA_dragging now v t c :
  isDragging v = true -> targetRotation v = Some t ->
  currentRotation v = Some c ->
  let f := powR 0.001 (Math.min ((now - lastTime v) / 1000) 0.1) in
  isDragging (animate now v) = true ∧ targetRotation (animate now v) = Some t ∧
  velocity (animate now v) = velocity v ∧ lastTime (animate now v) = now ∧
  currentRotation (animate now v)
  = Some (mkXY (px t - f * (px t - px c)) (py t - f * (py t - py c))) ∧
  cubeGroupRotation (animate now v) = currentRotation (animate now v).
Proof.
  intros Hd Ht Hc f. unfold animate. rewrite Hd, Ht, Hc. cbn.
  repeat split. fold f. do 2 f_equal; ring.
Qed.
End SmoothingA.

(** X8.  Variant A's render loop while the user drags is independent of
    the frame rate: as long as consecutive frames are at most 100 ms
    apart, the distance between the displayed rotation and the target
    after any number of frames is 0.001^(elapsed seconds) of what it was,
    on each axis, whatever the number of frames in between; the target and
    the velocity are not touched. *)
Theorem X8_render_frame_rate_independent (frames : list R)
    (v : ViewA.View) (t c : PageB.XY) :
  ViewA.isDragging v = true ->
  ViewA.targetRotation v = Some t -> ViewA.currentRotation v = Some c ->
  ViewA.steady (ViewA.lastTime v) frames ->
  let v' := fold_left (fun v now => ViewA.animate now v) frames v in
  let f := ViewA.powR 0.001 ((ViewA.lastTime v' - ViewA.lastTime v) / 1000) in
  ViewA.lastTime v' = List.last frames (ViewA.lastTime v) ∧
  ViewA.targetRotation v' = Some t ∧
  ViewA.velocity v' = ViewA.velocity v ∧
  ViewA.currentRotation v'
  = Some (PageB.mkXY (PageB.px t - f * (PageB.px t - PageB.px c))
                     (PageB.py t - f * (PageB.py t - PageB.py c))).
Proof.
  revert v c. induction frames as [|now frames IH]; intros v c Hd Ht Hc Hs.
  - cbn. repeat split; try done. rewrite Hc.
    replace ((ViewA.lastTime v - ViewA.lastTime v) / 1000) with 0 by lra.
    rewrite powR_0. destruct c. cbn. do 2 f_equal; lra.
  - destruct Hs as [Hgap Hs]. cbn [fold_left].
    destruct (animateA_dragging now v t c Hd Ht Hc)
      as (Hd1 & Ht1 & Hv1 & Hl1 & Hc1 & _).
    rewrite frame_deltaTime in Hc1 by done.
    rewrite <- Hl1 in Hs.
    destruct (IH _ _ Hd1 Ht1 Hc1 Hs) as (Hl & Ht' & Hv' & Hc').
    cbv zeta. rewrite Hl, Ht', Hv', Hv1, Hc'.
    rewrite ?Hl, ?Hl1. split; [by rewrite last_frame_cons|]. split; [done|].
    split; [done|]. cbn [PageB.px PageB.py].
    set (l := List.last frames now).
    replace ((l - ViewA.lastTime v) / 1000)
      with ((l - now) / 1000 + (now - ViewA.lastTime v) / 1000) by lra.
    rewrite powR_add. do 2 f_equal; ring.
Qed.

Lemma X8_witness :
  let v := ViewA.mkView true (PageB.mkXY 0 0) (Some (PageB.mkXY 1 0))
                        (Some (PageB.mkXY 0 0)) (PageB.mkXY 0 0) 0 None in
  ViewA.steady (ViewA.lastTime v) [16; 33; 50] ∧
  ViewA.lastTime (fold_left (fun v now => ViewA.animate now v) [16; 33; 50] v)
  = 50.
Proof.
  intros v.
  assert (ViewA.steady (ViewA.lastTime v) [16; 33; 50]) as Hs
    by (cbn; lra).
  split; [exact Hs|].
  exact (proj1 (X8_render_frame_rate_independent [16; 33; 50] v
                  (PageB.mkXY 1 0) (PageB.mkXY 0 0)
                  eq_refl eq_refl eq_refl Hs)).
Defined.

(** X9.  Variant A's render loop never overshoots and never jumps,
    whether the cube is being dragged or not: with a clock that does not
    run backwards, every frame leaves the displayed rotation between
    where it was and the target the frame ends with (the target as it
    was while dragging; the target moved on by the velocity after
    release), on each axis, and at least 0.001^0.1 (about half) of the
    distance to it is left whatever the time since the last frame, since
    the time step is capped at 100 ms.  The cube group is given the
    displayed rotation. *)
Theorem X9_render_step_bounded (now : R) (v : ViewA.View) (t c : PageB.XY) :
  ViewA.lastTime v <= now ->
  ViewA.targetRotation v = Some t -> ViewA.currentRotation v = Some c ->
  let t' := if ViewA.isDragging v then t
            else PageB.mkXY (PageB.px t + PageB.px (ViewA.velocity v))
                            (PageB.py t + PageB.py (ViewA.velocity v)) in
  ViewA.targetRotation (ViewA.animate now v) = Some t' ∧
  ∃ c' f, ViewA.currentRotation (ViewA.animate now v) = Some c' ∧
    ViewA.cubeGroupRotation (ViewA.animate now v) = Some c' ∧
    ViewA.powR 0.001 0.1 <= f <= 1 ∧
    PageB.px t' - PageB.px c' = f * (PageB.px t' - PageB.px c) ∧
    PageB.py t' - PageB.py c' = f * (PageB.py t' - PageB.py c) ∧
    Rabs (PageB.px t' - PageB.px c') <= Rabs (PageB.px t' - PageB.px c) ∧
    Rabs (PageB.py t' - PageB.py c') <= Rabs (PageB.py t' - PageB.py c).
Proof.
  intros Hnow Ht Hc t'.
  set (dt := Math.min ((now - ViewA.lastTime v) / 1000) 0.1).
  assert (0 <= dt <= 0.1) as Hdt.
  { unfold dt, Math.min. split; [apply Rmin_glb; lra|apply Rmin_r]. }
  assert (ViewA.powR 0.001 0.1 <= ViewA.powR 0.001 dt <= 1) as Hf.
  { split; [|apply powR_le_1; lra].
    replace 0.1 with (dt + (0.1 - dt)) at 1 by lra. rewrite powR_add.
    pose proof (powR_pos 0.001 dt).
    pose proof (powR_le_1 0.001 (0.1 - dt)). nra. }
  assert (ViewA.targetRotation (ViewA.animate now v) = Some t' ∧
          ViewA.currentRotation (ViewA.animate now v)
          = Some (PageB.mkXY
                    (PageB.px c
                     + (PageB.px t' - PageB.px c) * (1 - ViewA.powR 0.001 dt))
                    (PageB.py c
                     + (PageB.py t' - PageB.py c) * (1 - ViewA.powR 0.001 dt))) ∧
          ViewA.cubeGroupRotation (ViewA.animate now v)
          = ViewA.currentRotation (ViewA.animate now v)) as (Ht' & Hc' & Hg).
  { unfold t', ViewA.animate. fold dt. rewrite Ht, Hc.
    by destruct (ViewA.isDragging v). }
  pose proof (powR_pos 0.001 dt) as Hpos.
  split; [exact Ht'|].
  eexists _, (ViewA.powR 0.001 dt). split; [exact Hc'|].
  split; [by rewrite Hg|]. split; [exact Hf|].
  cbn [PageB.px PageB.py]. split; [ring|]. split; [ring|].
  split.
  - replace (PageB.px t' - (PageB.px c + (PageB.px t' - PageB.px c)
                                         * (1 - ViewA.powR 0.001 dt)))
      with (ViewA.powR 0.001 dt * (PageB.px t' - PageB.px c)) by ring.
    rewrite Rabs_mult, (Rabs_right (ViewA.powR 0.001 dt)) by lra.
    pose proof (Rabs_pos (PageB.px t' - PageB.px c)). nra.
  - replace (PageB.py t' - (PageB.py c + (PageB.py t' - PageB.py c)
                                         * (1 - ViewA.powR 0.001 dt)))
      with (ViewA.powR 0.001 dt * (PageB.py t' - PageB.py c)) by ring.
    rewrite Rabs_mult, (Rabs_right (ViewA.powR 0.001 dt)) by lra.
    pose proof (Rabs_pos (PageB.py t' - PageB.py c)). nra.
Qed.

Lemma X9_witness :
  let v := ViewA.mkView false (PageB.mkXY 0 0) (Some (PageB.mkXY 1 0))
                        (Some (PageB.mkXY 0 0)) (PageB.mkXY 0.5 0) 0 None in
  ViewA.lastTime v <= 5000 ∧
  ViewA.targetRotation (ViewA.animate 5000 v)
  = Some (PageB.mkXY (1 + 0.5) (0 + 0)) ∧
  ∃ c', ViewA.currentRotation (ViewA.animate 5000 v) = Some c' ∧
        Rabs (1 + 0.5 - PageB.px c') <= Rabs (1 + 0.5 - 0).
Proof.
  intros v. assert (ViewA.lastTime v <= 5000) as H by (cbn; lra).
  split; [exact H|].
  destruct (X9_render_step_bounded 5000 v (PageB.mkXY 1 0) (PageB.mkXY 0 0)
              H eq_refl eq_refl) as (Ht & c' & f & Hc & _ & _ & _ & _ & Hx & _).
  split; [exact Ht|]. exists c'. split; [exact Hc|exact Hx].
Defined.

(** X10.  [updateCameraForScreenSize] on a window with positive sizes:
    the camera distance is 6.5 exactly when the window is taller than
    wide; otherwise it is 4 when the window is less than 500 high and 5
    when it is not (the smaller dimension of a landscape window is its
    height, whatever its width). *)
Theorem X10_camera_distance (w h : R) :
  0 < w -> 0 < h ->
  ViewA.updateCameraForScreenSize w h
  = (if Rlt_dec w h then 6.5 else if Rlt_dec h 500 then 4 else 5).
Proof.
  intros Hw Hh. unfold ViewA.updateCameraForScreenSize, Math.ltb, Math.min.
  destruct (Rlt_dec (w / h) 1) as [Ha|Ha], (Rlt_dec w h) as [Hwh|Hwh].
  - done.
  - exfalso. apply Hwh.
    apply (Rmult_lt_reg_r (/ h)); [by apply Rinv_0_lt_compat|].
    rewrite Rinv_r by lra. exact Ha.
  - exfalso. apply Ha.
    apply (Rmult_lt_reg_r h); [done|]. unfold Rdiv.
    rewrite Rmult_assoc, Rinv_l by lra. lra.
  - rewrite Rmin_right by lra. by destruct (Rlt_dec h 500).
Qed.

Lemma X10_witness :
  0 < 1920 ∧ 0 < 400 ∧ ViewA.updateCameraForScreenSize 1920 400 = 4.
Proof.
  assert (0 < 1920) as Hw by lra. assert (0 < 400) as Hh by lra.
  split; [exact Hw|]. split; [exact Hh|].
  rewrite (X10_camera_distance 1920 400 Hw Hh).
  destruct (Rlt_dec 1920 400); [lra|]. destruct (Rlt_dec 400 500); [done|lra].
Defined.

Section VerdictA.
Import VariantA SpecA.

(** The solved detector sees a sub-cube through its position, the
    rotation matrix of its orientation and its dots only. *)
Lemma worldDots_ext g (f : Cube -> Cube) cubes :
  Forall (fun c => position (f c) = position c ∧ dots (f c) = dots c ∧
                   sameOrientation (quaternion (f c)) (quaternion c)) cubes ->
  worldDots g (f <$> cubes) = worldDots g cubes.
Proof.
  induction 1 as [|c cubes (Hp & Hd & Hq) _ IH]; [done|].
  unfold worldDots in *. rewrite fmap_cons, !bind_cons, IH. f_equal.
  rewrite Hd. apply list_fmap_ext. intros j d _. f_equal.
  unfold getWorldPosition. unfold sameOrientation in Hq. by rewrite Hp, Hq.
Qed.

Lemma turnSlice4_fmap a i dir cubes :
  dir = 1%Z ∨ dir = (-1)%Z -> Forall onGrid cubes ->
  turnSlice a i dir (turnSlice a i dir (turnSlice a i dir
    (turnSlice a i dir cubes)))
  = (fun c => if inSlice a i c
              then turnCube a dir (turnCube a dir (turnCube a dir
                     (turnCube a dir c)))
              else c) <$> cubes.
Proof.
  intros Hd Hg. apply list_eq. intros j. rewrite list_lookup_fmap.
  destruct (cubes !! j) as [c|] eqn:Hj.
  - by rewrite (turnSlice4_lookup a i dir cubes j c).
  - cbn. apply lookup_ge_None. apply lookup_ge_None in Hj.
    unfold turnSlice. by rewrite !length_fmap.
Qed.
End VerdictA.

(** X11.  Variant A: four completed quarter turns of one slice in one
    direction, from any rest state with axis-aligned orientations, leave
    the verdict of the solved detector as it was, whatever the display
    rotation of the whole cube: every dot is back at its world
    position. *)
Theorem X11_four_turns_keep_verdict (s : VariantA.State) a i dir recordMove
    tm1 tm2 tm3 tm4 :
  SpecA.atRest s -> SpecA.aligned s ->
  (0 <= i <= 2)%Z -> dir = 1%Z ∨ dir = (-1)%Z ->
  completes VariantA.duration tm1 -> completes VariantA.duration tm2 ->
  completes VariantA.duration tm3 -> completes VariantA.duration tm4 ->
  let s4 := SpecA.rotationRun a i dir recordMove tm4
              (SpecA.rotationRun a i dir recordMove tm3
                 (SpecA.rotationRun a i dir recordMove tm2
                    (SpecA.rotationRun a i dir recordMove tm1 s))) in
  VariantA.worldDots (VariantA.cubeGroupRotation s4) (VariantA.smallCubes s4)
  = VariantA.worldDots (VariantA.cubeGroupRotation s) (VariantA.smallCubes s) ∧
  VariantA.checkIfSolved s4 = VariantA.checkIfSolved s.
Proof.
  intros Hr Hal Hi Hd H1 H2 H3 H4 s4.
  assert (VariantA.worldDots (VariantA.cubeGroupRotation s4)
            (VariantA.smallCubes s4)
          = VariantA.worldDots (VariantA.cubeGroupRotation s)
              (VariantA.smallCubes s)) as Hw.
  { destruct (four_rotationsA s a i dir recordMove tm1 tm2 tm3 tm4)
      as (_ & Hc4); try done.
    fold s4 in Hc4. rewrite Hc4.
    assert (VariantA.cubeGroupRotation s4 = VariantA.cubeGroupRotation s)
      as ->.
    { assert (∀ tm u, VariantA.isAnimating u = false ->
                completes VariantA.duration tm ->
                VariantA.isAnimating
                  (SpecA.rotationRun a i dir recordMove tm u) = false ∧
                VariantA.cubeGroupRotation
                  (SpecA.rotationRun a i dir recordMove tm u)
                = VariantA.cubeGroupRotation u) as Hkeep.
      { intros tm u Hu Htm. rewrite rotation_completed by done.
        split; [|reflexivity].
        by destruct (completed_cubes a i dir recordMove None u)
          as (_ & ? & _). }
      destruct (Hkeep tm1 s (proj1 Hr) H1) as [Ha1 E1].
      destruct (Hkeep tm2 _ Ha1 H2) as [Ha2 E2].
      destruct (Hkeep tm3 _ Ha2 H3) as [Ha3 E3].
      destruct (Hkeep tm4 _ Ha3 H4) as [_ E4].
      unfold s4. by rewrite E4, E3, E2, E1. }
    destruct Hr as (_ & _ & _ & Hg).
    rewrite turnSlice4_fmap by done. apply worldDots_ext.
    apply Forall_forall. intros c Hc.
    destruct (VariantA.inSlice a i c); [|done].
    destruct (turnCube4 a dir c Hd) as (_ & Hp & Hq).
    - by apply (proj1 (Forall_forall _ _) Hg).
    - by apply (proj1 (Forall_forall _ _) Hal).
    - done. }
  split; [exact Hw|]. unfold VariantA.checkIfSolved. by rewrite Hw.
Qed.

Lemma X11_witness :
  SpecA.atRest VariantA.initialState ∧
  VariantA.checkIfSolved
    (SpecA.rotationRun AxisZ 0 (-1) false sampleTiming
       (SpecA.rotationRun AxisZ 0 (-1) false sampleTiming
          (SpecA.rotationRun AxisZ 0 (-1) false sampleTiming
             (SpecA.rotationRun AxisZ 0 (-1) false sampleTiming
                VariantA.initialState)))) = true.
Proof.
  split; [exact initialState_atRest|].
  assert (0 <= 0 <= 2)%Z as Hi by lia.
  assert ((-1)%Z = 1%Z ∨ (-1)%Z = (-1)%Z) as Hd by (right; reflexivity).
  rewrite (proj2 (X11_four_turns_keep_verdict VariantA.initialState AxisZ 0
                    (-1) false sampleTiming sampleTiming sampleTiming
                    sampleTiming initialState_atRest initialState_aligned
                    Hi Hd
                    (proj1 sampleTiming_completes)
                    (proj1 sampleTiming_completes)
                    (proj1 sampleTiming_completes)
                    (proj1 sampleTiming_completes))).
  by apply built_solved.
Defined.

Section IntroProps.
Import VariantA IntroA.

Variable slerpQuaternions : Quaternion -> Quaternion -> R -> Quaternion.
Hypothesis slerp_end : ∀ qa qb, slerpQuaternions qa qb 1 = qb.

Lemma lerpVectors_end v1 v2 : lerpVectors v1 v2 1 = v2.
Proof. unfold lerpVectors. destruct v2. cbn. f_equal; ring. Qed.

Lemma sameIntro_refl sc : sameIntro sc sc.
Proof. done. Qed.

Lemma animateCube_same elapsed sc sc0 :
  sameIntro sc sc0 ->
  sameIntro (fst (animateCube slerpQuaternions elapsed sc)) sc0.
Proof. unfold animateCube. by destruct (Math.ltb _ 0). Qed.

(** A sub-cube whose staggered time has run out is put where it was
    when the intro started, and does not hold the intro back. *)
Lemma animateCube_late elapsed sc :
  duration <= elapsed - delay sc ->
  animateCube slerpQuaternions elapsed sc
  = (mkScattered
       (mkCube (userData (cube sc)) (targetPos sc) (targetRot sc)
               (dots (cube sc)))
       (targetPos sc) (targetRot sc) (startPos sc) (startRot sc) (delay sc),
     true).
Proof.
  intros H. unfold animateCube, Math.ltb, Math.min, duration in *.
  destruct (Rlt_dec (elapsed - delay sc) 0) as [?|_]; [lra|].
  rewrite Rmin_right by lra.
  destruct (Req_dec_T 1 1) as [_|?]; [|done].
  rewrite lerpVectors_end, slerp_end.
  destruct (Rlt_dec 1 1) as [?|_]; [lra|]. done.
Qed.

Lemma animateCube_early elapsed sc :
  elapsed - delay sc < duration ->
  snd (animateCube slerpQuaternions elapsed sc) = false.
Proof.
  intros H. unfold animateCube, Math.ltb, Math.min, duration in *.
  destruct (Rlt_dec (elapsed - delay sc) 0) as [?|?]; [done|]. cbn.
  rewrite Rmin_left by lra.
  destruct (Rlt_dec _ 1) as [?|Hn]; [done|]. exfalso. apply Hn. lra.
Qed.

Lemma inIntro_play random t0 cubes0 preset :
  inIntro random t0 cubes0 (playIntroAnimation random t0 cubes0 preset).
Proof.
  split; [done|]. split; [apply length_imap|]. split; [|done].
  intros i sc c Hsc Hc. cbn in Hsc.
  rewrite list_lookup_imap, Hc in Hsc. by injection Hsc as <-.
Qed.

Lemma inIntro_frame random t0 cubes0 now st :
  inIntro random t0 cubes0 st ->
  inIntro random t0 cubes0 (animateIntro slerpQuaternions now st).
Proof.
  intros (Hs & Hl & Hsame & Hdone). unfold animateIntro.
  destruct (introComplete st) eqn:Hc; [unfold inIntro; by rewrite Hc|].
  set (results := animateCube slerpQuaternions (now - start st) <$> cubes st).
  assert (∀ i sc c, (fst <$> results) !! i = Some sc ->
            cubes0 !! i = Some c -> sameIntro sc (scatter random i c))
    as Hsame'.
  { intros i sc c Hsc Hi. unfold results in Hsc.
    rewrite !list_lookup_fmap in Hsc.
    destruct (cubes st !! i) as [sc0|] eqn:E; [|done].
    injection Hsc as <-. apply animateCube_same. by eapply Hsame. }
  assert (length (fst <$> results) = length cubes0) as Hl'
    by (unfold results; by rewrite !length_fmap).
  destruct (forallb snd results) eqn:Hall.
  - split; [done|]. split; [done|]. split; [done|]. intros _.
    split; [|done]. unfold smallCubes. cbn [cubes].
    apply list_eq. intros i. unfold results.
    rewrite !list_lookup_fmap.
    destruct (cubes st !! i) as [sc|] eqn:E.
    + destruct (cubes0 !! i) as [c|] eqn:Ec.
      2:{ apply lookup_ge_None in Ec. apply lookup_lt_Some in E. lia. }
      cbn. f_equal.
      assert (snd (animateCube slerpQuaternions (now - start st) sc) = true)
        as Hlate.
      { rewrite forallb_forall in Hall. apply Hall.
        apply List.in_map. apply list_elem_of_In.
        by eapply list_elem_of_lookup_2. }
      destruct (Rlt_dec (now - start st - delay sc) duration) as [He|He].
      { by rewrite animateCube_early in Hlate. }
      rewrite animateCube_late by lra. cbn.
      destruct (Hsame i sc c E Ec) as (-> & -> & _ & _ & _ & -> & ->).
      by destruct c.
    + cbn. symmetry. apply lookup_ge_None. apply lookup_ge_None in E. lia.
  - split; [done|]. split; [done|]. split; [done|]. done.
Qed.

Lemma inIntro_frames random t0 cubes0 frames st :
  inIntro random t0 cubes0 st ->
  inIntro random t0 cubes0
    (fold_left (fun st now => animateIntro slerpQuaternions now st) frames st).
Proof.
  revert st. induction frames as [|now frames IH]; intros st Hst; [done|].
  cbn. apply IH. by apply inIntro_frame.
Qed.

Lemma intro_state random t0 cubes0 preset frames :
  let st := fold_left (fun st now => animateIntro slerpQuaternions now st)
              frames (playIntroAnimation random t0 cubes0 preset) in
  start st = t0 ∧ length (cubes st) = length cubes0 ∧
  (∀ i sc c, cubes st !! i = Some sc -> cubes0 !! i = Some c ->
             sameIntro sc (scatter random i c)) ∧
  (introComplete st = true ->
   smallCubes st = cubes0 ∧ IntroA.materialPreset st = Some (-1)%Z).
Proof. apply inIntro_frames, inIntro_play. Qed.

End IntroProps.

(** X12.  The intro animation of variant A, whatever the random start
    poses, the frames drawn so far and the library's interpolation of
    orientations (of which only [slerp(qa, qb, 1) = qb] is used).  No
    frame changes a grid coordinate or a dot.  The intro completes at the
    first frame at which the last sub-cube's staggered 2 seconds have run
    out, that is 2000 + 50 * (n - 1) ms after its start for [n] sub-cubes
    (3250 ms for the 26 of the page), and at no earlier frame; and when
    it completes every sub-cube is exactly at the position and in the
    orientation it had before the intro, [introComplete] is set and the
    default material is applied. *)
Theorem X12_intro_completion
    (slerpQuaternions : Quaternion -> Quaternion -> R -> Quaternion)
    (random : nat -> R) (t0 : R) (cubes0 : list VariantA.Cube)
    (preset : option Z) (frames : list R) (now : R) :
  (∀ qa qb, slerpQuaternions qa qb 1 = qb) ->
  let st := fold_left
              (fun st now => IntroA.animateIntro slerpQuaternions now st)
              frames (IntroA.playIntroAnimation random t0 cubes0 preset) in
  let st' := IntroA.animateIntro slerpQuaternions now st in
  let finish := IntroA.duration
                + IntroA.staggerDelay * (INR (length cubes0) - 1) in
  VariantA.userData <$> IntroA.smallCubes st = VariantA.userData <$> cubes0 ∧
  VariantA.dots <$> IntroA.smallCubes st = VariantA.dots <$> cubes0 ∧
  (IntroA.introComplete st = true ->
     IntroA.smallCubes st = cubes0 ∧
     IntroA.materialPreset st = Some (-1)%Z) ∧
  (IntroA.introComplete st = false -> finish <= now - t0 ->
     IntroA.introComplete st' = true ∧ IntroA.smallCubes st' = cubes0) ∧
  (IntroA.introComplete st = false -> cubes0 ≠ [] -> now - t0 < finish ->
     IntroA.introComplete st' = false).
Proof.
  intros Hslerp st st' finish.
  destruct (intro_state slerpQuaternions Hslerp random t0 cubes0 preset frames)
    as (Hs & Hl & Hsame & Hdone).
  fold st in Hs, Hl, Hsame, Hdone.
  assert (∀ i sc, IntroA.cubes st !! i = Some sc ->
            ∃ c, cubes0 !! i = Some c ∧
                 IntroA.sameIntro sc (IntroA.scatter random i c)) as Hlook.
  { intros i sc Hsc. destruct (cubes0 !! i) as [c|] eqn:Ec.
    - exists c. split; [done|]. by eapply Hsame.
    - apply lookup_ge_None in Ec. apply lookup_lt_Some in Hsc. lia. }
  assert (∀ (f : VariantA.Cube -> UserData + list VariantA.Dot),
            (∀ sc sc0, IntroA.sameIntro sc sc0 ->
                       f (IntroA.cube sc) = f (IntroA.cube sc0)) ->
            (∀ i c, f (IntroA.cube (IntroA.scatter random i c)) = f c) ->
            f <$> IntroA.smallCubes st = f <$> cubes0) as Hfields.
  { intros f Hf Hsc. apply list_eq. intros i. unfold IntroA.smallCubes.
    rewrite !list_lookup_fmap.
    destruct (IntroA.cubes st !! i) as [sc|] eqn:E.
    - destruct (Hlook i sc E) as (c & -> & Hsm). cbn. f_equal.
      by rewrite (Hf _ _ Hsm).
    - apply lookup_ge_None in E. rewrite Hl in E.
      apply lookup_ge_None in E. by rewrite E. }
  split; [|split; [|split; [exact Hdone|split]]].
  - pose proof (Hfields (fun c => inl (VariantA.userData c))) as H.
    assert (∀ l : list VariantA.Cube,
              VariantA.userData <$> l
              = omap (fun x => match x with inl u => Some u | inr _ => None end)
                     ((fun c => inl (VariantA.userData c) : UserData + list VariantA.Dot) <$> l))
      as Hproj.
    { induction l as [|c l IH]; [done|]. cbn. by rewrite <- IH. }
    rewrite (Hproj (IntroA.smallCubes st)), (Hproj cubes0). f_equal.
    apply H.
    + intros sc sc0 (_ & _ & _ & _ & _ & -> & _). done.
    + done.
  - pose proof (Hfields (fun c => inr (VariantA.dots c))) as H.
    assert (∀ l : list VariantA.Cube,
              VariantA.dots <$> l
              = omap (fun x => match x with inl _ => None | inr d => Some d end)
                     ((fun c => inr (VariantA.dots c) : UserData + list VariantA.Dot) <$> l))
      as Hproj.
    { induction l as [|c l IH]; [done|]. cbn. by rewrite <- IH. }
    rewrite (Hproj (IntroA.smallCubes st)), (Hproj cubes0). f_equal.
    apply H.
    + intros sc sc0 (_ & _ & _ & _ & _ & _ & ->). done.
    + done.
  - intros Hc Hfin.
    assert (forallb snd
              (IntroA.animateCube slerpQuaternions (now - IntroA.start st)
                 <$> IntroA.cubes st) = true) as Hall.
    { apply forallb_forall. intros r Hr.
      apply List.in_map_iff in Hr as (sc & <- & Hin).
      apply list_elem_of_In, list_elem_of_lookup in Hin as (i & Hi).
      destruct (Hlook i sc Hi) as (c & Hci & (_ & _ & _ & _ & Hd & _)).
      rewrite animateCube_late; [done|done|].
      rewrite Hd, Hs. cbn [IntroA.delay IntroA.scatter].
      apply lookup_lt_Some in Hci.
      assert (INR i <= INR (length cubes0) - 1) as Hle.
      { replace (INR (length cubes0) - 1) with (INR (length cubes0 - 1)).
        - apply le_INR. lia.
        - rewrite minus_INR by lia. done. }
      unfold finish, IntroA.duration, IntroA.staggerDelay in *. nra. }
    pose proof (inIntro_frame slerpQuaternions Hslerp random t0 cubes0 now st)
      as Hnext.
    assert (IntroA.introComplete st' = true) as Hc'.
    { unfold st', IntroA.animateIntro. by rewrite Hc, Hall. }
    split; [exact Hc'|].
    destruct Hnext as (_ & _ & _ & Hd'); [done|]. by apply Hd'.
  - intros Hc Hne Hearly.
    unfold st', IntroA.animateIntro. rewrite Hc.
    assert (forallb snd
              (IntroA.animateCube slerpQuaternions (now - IntroA.start st)
                 <$> IntroA.cubes st) = false) as ->; [|done].
    apply not_true_is_false. intros Hall.
    rewrite forallb_forall in Hall.
    assert (0 < length cubes0)%nat as Hpos
      by (destruct cubes0; [done|cbn; lia]).
    destruct (IntroA.cubes st !! (length cubes0 - 1)%nat) as [sc|] eqn:E.
    2:{ apply lookup_ge_None in E. lia. }
    destruct (Hlook _ sc E) as (c & Hci & (_ & _ & _ & _ & Hd & _)).
    assert (snd (IntroA.animateCube slerpQuaternions
                   (now - IntroA.start st) sc) = true) as Hlate.
    { apply Hall. apply List.in_map. apply list_elem_of_In.
      by eapply list_elem_of_lookup_2. }
    rewrite animateCube_early in Hlate; [done|].
    rewrite Hd, Hs. cbn [IntroA.delay IntroA.scatter].
    rewrite minus_INR by lia.
    unfold finish, IntroA.duration, IntroA.staggerDelay in *.
    change (INR 1) with 1. lra.
Qed.

Lemma X12_witness :
  (∀ qa qb : Quaternion, (fun _ qb _ => qb) qa qb 1 = qb) ∧
  VariantA.userData <$>
    IntroA.smallCubes
      (fold_left (fun st now => IntroA.animateIntro (fun _ qb _ => qb) now st)
         [116; 1000; 4000]
         (IntroA.playIntroAnimation (fun _ => / 2) 100 VariantA.buildCubes
            None))
  = VariantA.userData <$> VariantA.buildCubes.
Proof.
  assert (∀ qa qb : Quaternion, (fun _ qb _ => qb) qa qb 1 = qb) as H
    by done.
  split; [exact H|].
  exact (proj1 (X12_intro_completion (fun _ qb _ => qb) (fun _ => / 2) 100
                  VariantA.buildCubes None [116; 1000; 4000] 5000 H)).
Defined.

Section BeveledBox.
Import Geometry.

Ltac box_compute :=
  cbv [createBeveledBox addQuad addTriangle emptyBuffers vertices indices
       normals uvs vertexIndex app Nat.add triangles points vertexNormals
       triangle item3 omap seq length Nat.div Nat.divmod fst snd lookup
       list_lookup Nat.mul fmap option_fmap option_map list_omap
       list_fmap mbind option_bind].

Ltac box_unfold :=
  cbv [upright existsb Nat.eqb uprightBevels orb negb wound onBox
       faceNormal cross sub dot vx vy vz
       corner0 corner1 corner2 normal0 normal1 normal2].

Lemma SQRT1_2_sq : SQRT1_2 * SQRT1_2 = 1 / 2.
Proof. unfold SQRT1_2. apply sqrt_sqrt. lra. Qed.

Lemma SQRT1_2_pos : 0 < SQRT1_2.
Proof. unfold SQRT1_2. apply sqrt_lt_R0. lra. Qed.

Lemma cornerNorm_sq : 1 / sqrt 3 * (1 / sqrt 3) = 1 / 3.
Proof.
  assert (0 < sqrt 3) as H by (apply sqrt_lt_R0; lra).
  assert (sqrt 3 * sqrt 3 = 3) as Hs by (apply sqrt_sqrt; lra).
  apply (Rmult_eq_reg_r (sqrt 3 * sqrt 3)); [|nra].
  rewrite Hs at 2. field_simplify; lra.
Qed.

Lemma cornerNorm_pos : 0 < 1 / sqrt 3.
Proof.
  apply Rdiv_lt_0_compat; [lra|]. apply sqrt_lt_R0. lra.
Qed.

Lemma box_points w h d b :
  0 <= b -> b <= w / 2 -> b <= h / 2 -> b <= d / 2 ->
  Forall (onBox (w / 2) (h / 2) (d / 2)) (points (createBeveledBox w h d b)).
Proof.
  intros Hb Hw Hh Hd. box_compute.
  repeat (apply Forall_cons; split;
          [box_unfold; repeat split; try lra; auto 7 using eq_refl|]).
  apply Forall_nil. done.
Qed.

Lemma box_normals w h d b :
  Forall (fun n => dot n n = 1) (vertexNormals (createBeveledBox w h d b)).
Proof.
  pose proof SQRT1_2_sq as Hs. pose proof cornerNorm_sq as Hc.
  box_compute. set (s := SQRT1_2) in *. set (c := 1 / sqrt 3) in *.
  clearbody s c.
  repeat (apply Forall_cons; split; [box_unfold; nra|]).
  apply Forall_nil. done.
Qed.

Lemma box_winding w h d b :
  0 < b -> b < w / 2 -> b < h / 2 -> b < d / 2 ->
  Forall (fun tt => wound (negb (upright (fst tt))) (snd tt))
         (triangles (createBeveledBox w h d b)).
Proof.
  intros Hb Hw Hh Hd.
  pose proof SQRT1_2_pos as Hs. pose proof cornerNorm_pos as Hc.
  box_compute. set (s := SQRT1_2) in *. set (c := 1 / sqrt 3) in *.
  clearbody s c.
  set (hw := w / 2) in *. set (hh := h / 2) in *. set (hd := d / 2) in *.
  clearbody hw hh hd.
  assert (0 < (hw - b) * (hh - b) ∧ 0 < (hw - b) * (hd - b) ∧
          0 < (hh - b) * (hd - b) ∧ 0 < (hw - b) * b ∧ 0 < (hh - b) * b ∧
          0 < (hd - b) * b ∧ 0 < b * b) as (P1 & P2 & P3 & P4 & P5 & P6 & P7)
    by (repeat split; apply Rmult_lt_0_compat; lra).
  assert (0 < s * ((hw - b) * b) ∧ 0 < s * ((hh - b) * b) ∧
          0 < s * ((hd - b) * b) ∧ 0 < c * (b * b)) as (S1 & S2 & S3 & S4)
    by (repeat split; apply Rmult_lt_0_compat; done).
  repeat (apply Forall_cons; split;
          [box_unfold; split; [reflexivity|]; split; [reflexivity|];
           split; [f_equal; ring|nra]|]).
  apply Forall_nil. done.
Qed.

Lemma box_buffers w h d b :
  let g := createBeveledBox w h d b in
  vertexIndex g = 96%nat ∧
  length (vertices g) = (3 * 96)%nat ∧ length (normals g) = (3 * 96)%nat ∧
  length (uvs g) = (2 * 96)%nat ∧ length (indices g) = (3 * 44)%nat ∧
  Forall (fun i => (i < vertexIndex g)%nat) (indices g) ∧
  length (points g) = 96%nat ∧ length (vertexNormals g) = 96%nat ∧
  length (triangles g) = 44%nat.
Proof.
  cbv zeta. box_compute.
  repeat split; try reflexivity.
  repeat (apply Forall_cons; split; [lia|]). apply Forall_nil. done.
Qed.
End BeveledBox.

(** X13.  [createBeveledBox], whatever its arguments, fills consistent
    buffers: 96 vertices with one normal and one uv pair each, and an
    index of 44 triangles (two for each of the 18 quads, one for each of
    the 8 corners) every entry of which is the number of a vertex that
    exists. *)
Theorem X13_beveled_box_buffers (w h d b : R) :
  let g := Geometry.createBeveledBox w h d b in
  Geometry.vertexIndex g = 96%nat ∧
  length (Geometry.vertices g) = (3 * 96)%nat ∧
  length (Geometry.normals g) = (3 * 96)%nat ∧
  length (Geometry.uvs g) = (2 * 96)%nat ∧
  length (Geometry.indices g) = (3 * 44)%nat ∧
  Forall (fun i => (i < Geometry.vertexIndex g)%nat) (Geometry.indices g) ∧
  length (Geometry.points g) = 96%nat ∧
  length (Geometry.vertexNormals g) = 96%nat ∧
  length (Geometry.triangles g) = 44%nat.
Proof. apply box_buffers. Qed.

(** X14.  With a bevel between 0 and half of each size, every vertex
    [createBeveledBox] emits lies on the surface of the box of the given
    width, height and depth: no coordinate leaves the box and at least
    one is at its extreme. *)
Theorem X14_beveled_box_on_surface (w h d b : R) :
  0 <= b -> b <= w / 2 -> b <= h / 2 -> b <= d / 2 ->
  Forall (Geometry.onBox (w / 2) (h / 2) (d / 2))
         (Geometry.points (Geometry.createBeveledBox w h d b)).
Proof. apply box_points. Qed.

Lemma X14_witness :
  0 <= BEVEL_SIZE ∧ BEVEL_SIZE <= SEGMENT_SIZE * 0.98 / 2 ∧
  Forall (Geometry.onBox (SEGMENT_SIZE * 0.98 / 2) (SEGMENT_SIZE * 0.98 / 2)
                         (SEGMENT_SIZE * 0.98 / 2))
         (Geometry.points
            (Geometry.createBeveledBox (SEGMENT_SIZE * 0.98)
               (SEGMENT_SIZE * 0.98) (SEGMENT_SIZE * 0.98) BEVEL_SIZE)).
Proof.
  assert (0 <= BEVEL_SIZE) as H0 by (unfold BEVEL_SIZE; lra).
  assert (BEVEL_SIZE <= SEGMENT_SIZE * 0.98 / 2) as H1
    by (unfold BEVEL_SIZE, SEGMENT_SIZE, CUBE_SIZE, GAP, SEGMENTS; lra).
  split; [exact H0|]. split; [exact H1|].
  exact (X14_beveled_box_on_surface _ _ _ _ H0 H1 H1 H1).
Defined.

(** X15.  The normals [createBeveledBox] stores are unit vectors.  With
    a bevel strictly between 0 and half of each size, every triangle of
    the index has positive area and carries, at its three corners, one
    normal at right angles to its plane; it is wound counter-clockwise
    around that normal, except for the eight triangles of the four bevels
    along the edges parallel to the y axis (front left, front right, back
    left, back right), which are wound clockwise. *)
Theorem X15_beveled_box_winding (w h d b : R) :
  0 < b -> b < w / 2 -> b < h / 2 -> b < d / 2 ->
  let g := Geometry.createBeveledBox w h d b in
  Forall (fun n => Geometry.dot n n = 1) (Geometry.vertexNormals g) ∧
  Forall (fun tt => Geometry.wound (negb (Geometry.upright (fst tt))) (snd tt))
         (Geometry.triangles g) ∧
  filter (fun t => Geometry.upright t = true) (fst <$> Geometry.triangles g)
  = Geometry.uprightBevels.
Proof.
  intros Hb Hw Hh Hd g. split; [apply box_normals|].
  split; [by apply box_winding|].
  unfold g. cbv [Geometry.createBeveledBox Geometry.addQuad
    Geometry.addTriangle Geometry.emptyBuffers Geometry.vertices
    Geometry.indices Geometry.normals Geometry.uvs Geometry.vertexIndex app
    Nat.add Geometry.triangles Geometry.triangle Geometry.item3 omap seq
    length Nat.div Nat.divmod fst snd lookup list_lookup Nat.mul fmap
    option_fmap option_map list_omap list_fmap mbind option_bind].
  reflexivity.
Qed.

Lemma X15_witness :
  0 < BEVEL_SIZE ∧ BEVEL_SIZE < SEGMENT_SIZE * 0.98 / 2 ∧
  Forall (fun n => Geometry.dot n n = 1)
         (Geometry.vertexNormals
            (Geometry.createBeveledBox (SEGMENT_SIZE * 0.98)
               (SEGMENT_SIZE * 0.98) (SEGMENT_SIZE * 0.98) BEVEL_SIZE)).
Proof.
  assert (0 < BEVEL_SIZE) as H0 by (unfold BEVEL_SIZE; lra).
  assert (BEVEL_SIZE < SEGMENT_SIZE * 0.98 / 2) as H1
    by (unfold BEVEL_SIZE, SEGMENT_SIZE, CUBE_SIZE, GAP, SEGMENTS; lra).
  split; [exact H0|]. split; [exact H1|].
  exact (proj1 (X15_beveled_box_winding _ _ _ _ H0 H1 H1 H1)).
Defined.

Section SnapRange.
Import CubeRotation.

Lemma isCubeRotationZ_sound a b c d e f g h i :
  isCubeRotationZ a b c d e f g h i = true ->
  isCubeRotation
    (mkMatrix3 (IZR a) (IZR b) (IZR c) (IZR d) (IZR e) (IZR f)
               (IZR g) (IZR h) (IZR i)).
Proof.
  unfold isCubeRotationZ. cbn [forallb]. intros H.
  repeat match goal with
         | H : (_ && _) = true |- _ => apply andb_prop in H as [? ?]
         end.
  repeat match goal with
         | H : (_ =? _)%Z = true |- _ => apply Z.eqb_eq in H
         | H : (_ <=? _)%Z = true |- _ => apply Z.leb_le in H
         end.
  assert (∀ v, (-1 <= v)%Z -> (v <= 1)%Z ->
            IZR v = -1 ∨ IZR v = 0 ∨ IZR v = 1) as Hrange.
  { intros v Hlo Hhi.
    assert (v = -1 ∨ v = 0 ∨ v = 1)%Z as [-> | [-> | ->]] by lia; auto. }
  unfold isCubeRotation, det. cbn [m11 m12 m13 m21 m22 m23 m31 m32 m33].
  split.
  { repeat (apply Forall_cons; split; [by apply Hrange|]). apply Forall_nil.
    done. }
  rewrite <- !mult_IZR, <- !minus_IZR, <- !mult_IZR, <- !plus_IZR,
    <- ?minus_IZR, <- ?plus_IZR.
  repeat split; f_equal; lia.
Qed.

Lemma checkMatrix_sound m :
  checkMatrix m = true -> isCubeRotation (Exact.toMatrix3 m).
Proof.
  unfold checkMatrix, Exact.toMatrix3.
  destruct (Exact.toZ (Exact.m11 m)) as [a|] eqn:E1; [|done].
  destruct (Exact.toZ (Exact.m12 m)) as [b|] eqn:E2; [|done].
  destruct (Exact.toZ (Exact.m13 m)) as [c|] eqn:E3; [|done].
  destruct (Exact.toZ (Exact.m21 m)) as [d|] eqn:E4; [|done].
  destruct (Exact.toZ (Exact.m22 m)) as [e|] eqn:E5; [|done].
  destruct (Exact.toZ (Exact.m23 m)) as [f|] eqn:E6; [|done].
  destruct (Exact.toZ (Exact.m31 m)) as [g|] eqn:E7; [|done].
  destruct (Exact.toZ (Exact.m32 m)) as [h|] eqn:E8; [|done].
  destruct (Exact.toZ (Exact.m33 m)) as [i|] eqn:E9; [|done].
  intros H.
  rewrite (toR_toZ _ _ E1), (toR_toZ _ _ E2), (toR_toZ _ _ E3),
    (toR_toZ _ _ E4), (toR_toZ _ _ E5), (toR_toZ _ _ E6),
    (toR_toZ _ _ E7), (toR_toZ _ _ E8), (toR_toZ _ _ E9).
  by apply isCubeRotationZ_sound.
Qed.

Lemma checkUnit_sound q : checkUnit q = true -> isUnit (Exact.toQuaternion q).
Proof.
  unfold checkUnit, isUnit, Exact.toQuaternion. intros H%toR_eqb.
  rewrite !toR_add, !toR_mul, toR_ofZ in H. cbn [qx qy qz qw]. exact H.
Qed.

Lemma eulerTriples_rotations :
  forallb (fun k =>
             checkMatrix (Exact.makeRotationFromQuaternion
                            (Exact.setFromEuler k)) &&
             checkUnit (Exact.setFromEuler k)) Exact.eulerTriples = true.
Proof. vm_compute. reflexivity. Qed.
End SnapRange.

(** X16.  Whatever quaternion goes in (unit or not), [snapQuaternion]
    returns a unit quaternion that turns the cube onto itself: its
    rotation matrix has entries 0, 1 and -1 only, exactly one of them
    not 0 in every row and every column, and determinant 1. *)
Theorem X16_snapQuaternion_range (q : Quaternion) :
  CubeRotation.isUnit (VariantA.snapQuaternion q) ∧
  CubeRotation.isCubeRotation
    (makeRotationFromQuaternion (VariantA.snapQuaternion q)).
Proof.
  destruct (snapQuaternion_angles q) as (kx & ky & kz & Hx & Hy & Hz & ->).
  rewrite <- toQuaternion_setFromEuler by done.
  pose proof eulerTriples_rotations as Hall.
  rewrite forallb_forall in Hall.
  specialize (Hall (kx, ky, kz)).
  destruct (andb_prop _ _ (Hall (proj1 (list_elem_of_In _ _)
                                    (eulerTriples_complete kx ky kz Hx Hy Hz))))
    as [Hm Hu].
  split; [by apply checkUnit_sound|].
  rewrite <- toMatrix3_makeRotation. by apply checkMatrix_sound.
Qed.

Section OverlayB.
Import PageB ReachB.

Variables random clock : nat -> R.
Variable hasTemplate : Z -> bool.

Lemma overlay_shuffle n k p :
  overlayContent (view (rubiksShuffle random clock n k p))
  = overlayContent (view p).
Proof.
  revert p. induction n as [|n IH]; intros p; cbn [rubiksShuffle].
  - by destruct k.
  - destruct (drawMove _ _ _) as [m|]; [|done].
    destruct (VariantB.isAnimating (scene p)); [by rewrite IH|].
    destruct (VariantB.isAnimating _); [done|by rewrite IH].
Qed.

Lemma overlay_step p e :
  shown hasTemplate p -> shown hasTemplate (step random clock hasTemplate p e).
Proof.
  unfold shown. intros Hp f. destruct e; cbn [step].
  - destruct (shufflePending p); [|by apply Hp].
    rewrite overlay_shuffle. by apply Hp.
  - unfold navigateToFace.
    destruct (VariantB.isAnimating (scene p)); [by apply Hp|].
    rewrite overlay_shuffle. by apply Hp.
  - unfold sliceFrame.
    destruct (VariantB.animation (scene p)); [|by apply Hp].
    destruct (VariantB.isAnimating _); [by apply Hp|].
    destruct (waiter p); [|by apply Hp].
    rewrite overlay_shuffle. by apply Hp.
  - by apply Hp.
  - by apply Hp.
  - cbn. unfold pointerMove. destruct (negb _); by apply Hp.
  - by apply Hp.
  - by apply Hp.
  - cbn. unfold autoRotateTimeout. destruct (autoTimers _); by apply Hp.
  - cbn. unfold containerClick, showContent.
    destruct (Math.ltb _ 300 && (0 <=? currentFace (view p))%Z) eqn:E;
      [|by apply Hp].
    apply andb_prop in E as [_ Hf%Z.leb_le].
    destruct (hasTemplate (currentFace (view p))) eqn:Ht; [|by apply Hp].
    cbn. by intros [= <-].
  - by apply Hp.
  - destruct onBackdrop; by apply Hp.
Qed.

Lemma unvisited_shuffle n p :
  unvisited p -> unvisited (rubiksShuffle random clock n None p).
Proof.
  revert p. induction n as [|n IH]; intros p Hp; cbn [rubiksShuffle].
  - done.
  - destruct (drawMove _ _ _) as [m|]; [|done].
    destruct (VariantB.isAnimating (scene p)); [by apply IH|].
    destruct (VariantB.isAnimating _).
    + destruct Hp as (? & ? & ?). repeat split; try done.
      cbn. by intros w [= <-].
    + by apply IH.
Qed.

Lemma unvisited_step p e :
  (∀ face, e ≠ NavClick face) ->
  unvisited p -> unvisited (step random clock hasTemplate p e).
Proof.
  intros Hne Hp. destruct e; cbn [step]; try done.
  - destruct (shufflePending p); [|done]. by apply unvisited_shuffle.
  - by destruct (Hne face).
  - unfold sliceFrame.
    destruct (VariantB.animation (scene p)); [|done].
    destruct (VariantB.isAnimating _); [done|].
    destruct Hp as (Hf & Ho & Hc).
    destruct (waiter p) as [w|] eqn:Hw; [|by repeat split].
    rewrite (Hc w eq_refl).
    apply unvisited_shuffle. split; [done|]. split; [done|].
    cbn. intros w' Hw'. discriminate Hw'.
  - destruct Hp as (Hf & Ho & Hc). cbn. unfold pointerMove.
    destruct (negb _); repeat split; done.
  - destruct Hp as (Hf & Ho & Hc). cbn. unfold autoRotateTimeout.
    destruct (autoTimers _); repeat split; done.
  - destruct Hp as (Hf & Ho & Hc). cbn. unfold containerClick.
    rewrite Hf. rewrite andb_false_r. done.
  - destruct onBackdrop; done.
Qed.

Lemma overlay_run es p :
  shown hasTemplate p -> shown hasTemplate (run random clock hasTemplate p es).
Proof.
  revert p. induction es as [|e es IH]; intros p Hp; [done|].
  cbn. apply IH. by apply overlay_step.
Qed.

Lemma unvisited_run es p :
  (∀ face, NavClick face ∉ es) ->
  unvisited p -> unvisited (run random clock hasTemplate p es).
Proof.
  revert p. induction es as [|e es IH]; intros p Hne Hp; [done|].
  cbn. apply IH.
  - intros face Hin. apply (Hne face). by right.
  - apply unvisited_step; [|done]. intros face ->. apply (Hne face). by left.
Qed.

Lemma overlay_facts es :
  let p := run random clock hasTemplate initialPage es in
  (∀ f, overlayContent (view p) = Some f ->
        (0 <= f)%Z ∧ hasTemplate f = true) ∧
  ((∀ face, NavClick face ∉ es) ->
   currentFace (view p) = (-1)%Z ∧ overlayContent (view p) = None).
Proof.
  split.
  - apply overlay_run. intros f Hf. discriminate Hf.
  - intros Hne.
    destruct (unvisited_run es initialPage Hne) as (? & ? & _); done.
Qed.
End OverlayB.

(** X17.  Variant B's overlay: whatever happens on the page, the content
    the overlay holds is that of a face with a non-negative index whose
    template exists in the document; and as long as no navigation button
    has been clicked no face is current and no click or double click on
    the cube puts content into the overlay. *)
Theorem X17_overlay_content (random clock : nat -> R)
    (hasTemplate : Z -> bool) (es : list PageB.Event) :
  let p := PageB.run random clock hasTemplate PageB.initialPage es in
  (∀ f, PageB.overlayContent (PageB.view p) = Some f ->
        (0 <= f)%Z ∧ hasTemplate f = true) ∧
  ((∀ face, PageB.NavClick face ∉ es) ->
   PageB.currentFace (PageB.view p) = (-1)%Z ∧
   PageB.overlayContent (PageB.view p) = None).
Proof. apply overlay_facts. Qed.

Section MomentumA.
Import PageB ViewA.

Lemma animateA_released now v t :
  isDragging v = false -> targetRotation v = Some t ->
  let f := powR 0.05 (Math.min ((now - lastTime v) / 1000) 0.1) in
  isDragging (animate now v) = false ∧ lastTime (animate now v) = now ∧
  targetRotation (animate now v)
  = Some (mkXY (px t + px (velocity v)) (py t + py (velocity v))) ∧
  velocity (animate now v)
  = mkXY (px (velocity v) * f) (py (velocity v) * f).
Proof. intros Hd Ht f. unfold animate. rewrite Hd, Ht. cbn. done. Qed.
End MomentumA.

(** X18.  Variant A's render loop after the user lets go.  The damping
    of the velocity is independent of the frame rate: as long as
    consecutive frames are at most 100 ms apart the velocity after any
    number of frames is 0.05^(elapsed seconds) of the release velocity.
    The way the target moves is not: a frame adds the whole velocity it
    finds to the target, whatever the time since the frame before, so a
    frame drawn in between carries the target further, by the velocity
    times a positive factor. *)
Theorem X18_render_momentum_A (frames : list R) (v : ViewA.View)
    (t : PageB.XY) :
  ViewA.isDragging v = false -> ViewA.targetRotation v = Some t ->
  ViewA.steady (ViewA.lastTime v) frames ->
  let v' := fold_left (fun v now => ViewA.animate now v) frames v in
  let f := ViewA.powR 0.05 ((ViewA.lastTime v' - ViewA.lastTime v) / 1000) in
  ViewA.velocity v'
  = PageB.mkXY (PageB.px (ViewA.velocity v) * f)
               (PageB.py (ViewA.velocity v) * f) ∧
  (∃ t', ViewA.targetRotation v' = Some t') ∧
  (∀ now, ViewA.targetRotation (ViewA.animate now v)
          = Some (PageB.mkXY (PageB.px t + PageB.px (ViewA.velocity v))
                             (PageB.py t + PageB.py (ViewA.velocity v)))) ∧
  (∀ mid now, ∃ g, 0 < g ∧
     ViewA.targetRotation (ViewA.animate now (ViewA.animate mid v))
     = Some (PageB.mkXY
               (PageB.px t + PageB.px (ViewA.velocity v)
                + PageB.px (ViewA.velocity v) * g)
               (PageB.py t + PageB.py (ViewA.velocity v)
                + PageB.py (ViewA.velocity v) * g))).
Proof.
  intros Hd Ht Hs. cbv zeta.
  split; [|split; [|split]].
  - revert v t Hd Ht Hs.
    induction frames as [|now frames IH]; intros v t Hd Ht Hs.
    + cbn.
      replace ((ViewA.lastTime v - ViewA.lastTime v) / 1000) with 0 by lra.
      rewrite powR_0. destruct (ViewA.velocity v). cbn. f_equal; lra.
    + destruct Hs as [Hgap Hs]. cbn [fold_left].
      destruct (animateA_released now v t Hd Ht) as (Hd1 & Hl1 & Ht1 & Hv1).
      rewrite frame_deltaTime in Hv1 by done.
      rewrite <- Hl1 in Hs.
      rewrite (IH _ _ Hd1 Ht1 Hs), Hv1, Hl1. cbn [PageB.px PageB.py].
      set (l := ViewA.lastTime (fold_left _ _ _)).
      replace ((l - ViewA.lastTime v) / 1000)
        with ((l - now) / 1000 + (now - ViewA.lastTime v) / 1000) by lra.
      rewrite powR_add. f_equal; ring.
  - clear Hs. revert v t Hd Ht.
    induction frames as [|now frames IH]; intros v t Hd Ht; [by eauto|].
    cbn [fold_left].
    destruct (animateA_released now v t Hd Ht) as (Hd1 & _ & Ht1 & _).
    by eapply IH.
  - intros now. by destruct (animateA_released now v t Hd Ht) as (_ & _ & ? & _).
  - intros mid now.
    destruct (animateA_released mid v t Hd Ht) as (Hd1 & _ & Ht1 & Hv1).
    destruct (animateA_released now _ _ Hd1 Ht1) as (_ & _ & Ht2 & _).
    eexists. split; [apply (powR_pos 0.05)|].
    rewrite Ht2, Hv1. done.
Qed.

Lemma X18_witness :
  let v := ViewA.mkView false (PageB.mkXY 0 0) (Some (PageB.mkXY 1 0))
                        (Some (PageB.mkXY 0 0)) (PageB.mkXY 0.1 0) 0 None in
  ViewA.steady (ViewA.lastTime v) [16; 33] ∧
  ViewA.targetRotation (ViewA.animate 16 v)
  = Some (PageB.mkXY (1 + 0.1) (0 + 0)).
Proof.
  intros v.
  assert (ViewA.steady (ViewA.lastTime v) [16; 33]) as Hs by (cbn; lra).
  split; [exact Hs|].
  exact (proj1 (proj2 (proj2 (X18_render_momentum_A [16; 33] v
                                (PageB.mkXY 1 0) eq_refl eq_refl Hs))) 16).
Defined.

Section DragGesture.
Import PageB Gesture.

Lemma dragA_inputs inputs : ∀ (v : ViewA.View) t0 p0,
  ViewA.isDragging v = true ->
  ViewA.targetRotation v
  = Some (dragged t0 p0 (ViewA.previousMousePosition v)) ->
  let v' := fold_left inputA inputs v in
  ViewA.isDragging v' = true ∧
  ViewA.previousMousePosition v'
  = pointer (ViewA.previousMousePosition v) inputs ∧
  ViewA.targetRotation v'
  = Some (dragged t0 p0 (ViewA.previousMousePosition v')).
Proof.
  induction inputs as [|i inputs IH]; intros v t0 p0 Hd Ht; [done|].
  cbn [fold_left pointer].
  assert (ViewA.isDragging (inputA v i) = true ∧
          ViewA.previousMousePosition (inputA v i)
          = match i with
            | Move x y => mkXY x y
            | Frame _ => ViewA.previousMousePosition v
            end ∧
          ViewA.targetRotation (inputA v i)
          = Some (dragged t0 p0 (ViewA.previousMousePosition (inputA v i))))
    as (Hd1 & Hp1 & Ht1).
  { destruct i as [x y|now]; cbn [inputA].
    - unfold ViewA.pointerMove. rewrite Hd, Ht. cbn.
      split; [done|]. split; [done|]. unfold dragged. cbn.
      do 2 f_equal; lra.
    - unfold ViewA.animate. rewrite Hd, Ht. cbn. done. }
  destruct (IH _ t0 p0 Hd1 Ht1) as (? & Hp & ?).
  cbv zeta. split; [done|]. split; [|done].
  rewrite Hp, Hp1. done.
Qed.

Lemma dragB_inputs inputs : ∀ (v : PageB.View) t0 p0,
  PageB.isDragging v = true ->
  PageB.targetRotation v
  = Some (dragged t0 p0 (PageB.previousMousePosition v)) ->
  let v' := fold_left inputB inputs v in
  PageB.isDragging v' = true ∧
  PageB.previousMousePosition v'
  = pointer (PageB.previousMousePosition v) inputs ∧
  PageB.targetRotation v'
  = Some (dragged t0 p0 (PageB.previousMousePosition v')).
Proof.
  induction inputs as [|i inputs IH]; intros v t0 p0 Hd Ht; [done|].
  cbn [fold_left pointer].
  assert (PageB.isDragging (inputB v i) = true ∧
          PageB.previousMousePosition (inputB v i)
          = match i with
            | Move x y => mkXY x y
            | Frame _ => PageB.previousMousePosition v
            end ∧
          PageB.targetRotation (inputB v i)
          = Some (dragged t0 p0 (PageB.previousMousePosition (inputB v i))))
    as (Hd1 & Hp1 & Ht1).
  { destruct i as [x y|now]; cbn [inputB].
    - unfold PageB.pointerMove. rewrite Hd, Ht. cbn.
      split; [done|]. split; [done|]. unfold dragged. cbn.
      do 2 f_equal; lra.
    - unfold PageB.animate. rewrite Hd, Ht, andb_false_r. cbn. done. }
  destruct (IH _ t0 p0 Hd1 Ht1) as (? & Hp & ?).
  cbv zeta. split; [done|]. split; [|done].
  rewrite Hp, Hp1. done.
Qed.

Lemma dragged_start t p : dragged t p p = t.
Proof. destruct t. unfold dragged. cbn. f_equal; lra. Qed.
End DragGesture.

(** X19.  Dragging turns the rotation target with the pointer, in both
    variants: from [pointerdown] on, after any moves and render frames
    in any order, the target is where it was plus 0.005 radians for each
    pixel between the place of the [pointerdown] and the pointer's last
    place (vertical way about x, horizontal way about y), whatever path
    the pointer took and however many frames were drawn; the next move
    sets the velocity to its own step alone.  In variant A a
    [pointerdown] during a slice rotation or before the end of the intro
    starts no drag: the moves that follow it change nothing. *)
Theorem X19_drag_follows_pointer (x0 y0 : R) (inputs : list Gesture.Input)
    (t : PageB.XY) :
  let p0 := PageB.mkXY x0 y0 in
  let p := Gesture.pointer p0 inputs in
  (∀ v, ViewA.targetRotation v = Some t ->
     let v' := fold_left Gesture.inputA inputs
                 (ViewA.pointerDown false true x0 y0 v) in
     ViewA.isDragging v' = true ∧
     ViewA.targetRotation v' = Some (Gesture.dragged t p0 p) ∧
     ∀ x y, ViewA.velocity (ViewA.pointerMove x y v')
            = PageB.mkXY ((y - PageB.py p) * 0.005)
                         ((x - PageB.px p) * 0.005)) ∧
  (∀ v, PageB.targetRotation v = Some t ->
     let v' := fold_left Gesture.inputB inputs (PageB.pointerDown x0 y0 v) in
     PageB.isDragging v' = true ∧
     PageB.targetRotation v' = Some (Gesture.dragged t p0 p) ∧
     ∀ x y, PageB.velocity (PageB.pointerMove x y v')
            = PageB.mkXY ((y - PageB.py p) * 0.005)
                         ((x - PageB.px p) * 0.005)) ∧
  (∀ v isAnimating introComplete (moves : list (R * R)),
     isAnimating || negb introComplete = true ->
     ViewA.isDragging v = false ->
     fold_left (fun v m => ViewA.pointerMove (fst m) (snd m) v) moves
       (ViewA.pointerDown isAnimating introComplete x0 y0 v) = v).
Proof.
  cbv zeta. split; [|split].
  - intros v Ht.
    destruct (dragA_inputs inputs (ViewA.pointerDown false true x0 y0 v)
                t (PageB.mkXY x0 y0) eq_refl) as (Hd & Hp & Ht').
    { cbn. by rewrite dragged_start. }
    cbn [ViewA.pointerDown orb negb ViewA.previousMousePosition] in Hp.
    split; [done|]. rewrite <- Hp. split; [done|].
    intros x y. unfold ViewA.pointerMove. rewrite Hd. done.
  - intros v Ht.
    destruct (dragB_inputs inputs (PageB.pointerDown x0 y0 v)
                t (PageB.mkXY x0 y0) eq_refl) as (Hd & Hp & Ht').
    { cbn. by rewrite dragged_start. }
    cbn [PageB.pointerDown PageB.previousMousePosition] in Hp.
    split; [done|]. rewrite <- Hp. split; [done|].
    intros x y. unfold PageB.pointerMove. rewrite Hd. done.
  - intros v busy intro moves Hb Hd. unfold ViewA.pointerDown. rewrite Hb.
    induction moves as [|m moves IH]; [done|].
    cbn [fold_left]. unfold ViewA.pointerMove at 2. by rewrite Hd.
Qed.

Section ReachablePageA.
Import VariantA SpecA.

Variable slerpQuaternions : Quaternion -> Quaternion -> R -> Quaternion.
Variable random : nat -> R.
Hypothesis slerp_end : ∀ qa qb, slerpQuaternions qa qb 1 = qb.

(** The intro never touches a grid coordinate. *)
Lemma inIntro_userData t0 cubes0 st :
  IntroA.inIntro random t0 cubes0 st ->
  userData <$> IntroA.smallCubes st = userData <$> cubes0.
Proof.
  intros (_ & Hl & Hsame & _). apply list_eq. intros i.
  unfold IntroA.smallCubes. rewrite !list_lookup_fmap.
  destruct (IntroA.cubes st !! i) as [sc|] eqn:E.
  - destruct (cubes0 !! i) as [c|] eqn:Ec.
    + destruct (Hsame i sc c E Ec) as (_ & _ & _ & _ & _ & Hu & _).
      cbn. by rewrite Hu.
    + apply lookup_ge_None in Ec. apply lookup_lt_Some in E. lia.
  - apply lookup_ge_None in E. rewrite Hl in E.
    apply lookup_ge_None in E. by rewrite E.
Qed.

Lemma animateSlice_introComplete now s :
  introComplete (animateSlice now s) = introComplete s.
Proof.
  unfold animateSlice. destruct (animation s) as [a|]; [|done].
  destruct (Math.ltb _ 1); [done|].
  match goal with
  | |- context [resolve ?k ?u] =>
      destruct (resolve_fields k u) as (_ & _ & _ & _ & _ & ->)
  end. done.
Qed.

Lemma step_introComplete s e :
  e ≠ IntroDone -> introComplete (VariantA.step s e) = introComplete s.
Proof.
  intros He. destruct e as [|face t0 t1|now| |rx ry]; cbn [VariantA.step].
  - done.
  - unfold navigateToFace. destruct (_ || _); [done|].
    destruct (faceToMove face) as [move|].
    + unfold rotateSlice. destruct (isAnimating s).
      * by destruct (resolve_fields (Some face) s) as (_ & _ & _ & _ & _ & ->).
      * by rewrite animateSlice_introComplete.
    + change (navigateResume face s) with (resolve (Some face) s).
      by destruct (resolve_fields (Some face) s) as (_ & _ & _ & _ & _ & ->).
  - apply animateSlice_introComplete.
  - destruct (solveTimers s) as [|n]; [done|].
    unfold checkForSolve, checkForSolveWith. cbn [hasBeenMixed].
    destruct (negb (hasBeenMixed s)); [done|].
    by destruct (checkIfSolved _).
  - done.
Qed.

(** Before the intro has completed the cube takes no event. *)
Lemma step_before_intro s e :
  e ≠ IntroDone -> introComplete s = false ->
  isAnimating s = false -> animation s = None ->
  isAnimating (VariantA.step s e) = false ∧
  animation (VariantA.step s e) = None ∧
  smallCubes (VariantA.step s e) = smallCubes s.
Proof.
  intros He Hi Ha Hn.
  destruct e as [|face t0 t1|now| |rx ry]; cbn [VariantA.step].
  - done.
  - unfold navigateToFace. by rewrite Hi, Ha.
  - unfold animateSlice. by rewrite Hn.
  - destruct (solveTimers s) as [|n]; [done|].
    match goal with
    | |- context [checkForSolve ?u] =>
        destruct (checkForSolve_fields u) as (-> & -> & -> & _)
    end. done.
  - done.
Qed.

Lemma reachablePage_cube p e :
  e ≠ IntroDone ->
  PageA.reachable random p ->
  PageA.reachable random
    (PageA.mkPage (VariantA.step (PageA.state p) e) (PageA.intro p)).
Proof.
  intros He Hr. unfold PageA.reachable in *.
  cbn [PageA.state PageA.intro]. rewrite step_introComplete by done.
  destruct (introComplete (PageA.state p)) eqn:Hi.
  - destruct Hr as [Hr Hst]. split; [by apply reachable_step|done].
  - destruct Hr as (Ha & Hn & Hc).
    destruct (step_before_intro _ e He Hi Ha Hn) as (-> & -> & ->). done.
Qed.

Lemma reachablePage_step p e :
  PageA.reachable random p ->
  PageA.reachable random (PageA.step slerpQuaternions random p e).
Proof.
  intros Hr.
  destruct e as [now|now|face t0 t1|now| |rx ry]; cbn [PageA.step];
    try (by apply reachablePage_cube).
  - (* the intro starts *)
    destruct (PageA.intro p) as [st|] eqn:Hst; [done|].
    unfold PageA.reachable in *. rewrite Hst in Hr.
    cbn [PageA.state PageA.intro withCubes introComplete isAnimating
         animation smallCubes].
    destruct (introComplete (PageA.state p)) eqn:Hi.
    { by destruct Hr as [_ (st & ? & _)]. }
    destruct Hr as (Ha & Hn & Hc). rewrite Hc.
    split; [done|]. split; [done|]. split; [|done].
    exists now. apply inIntro_play.
  - (* a frame of the intro *)
    destruct (PageA.intro p) as [st|] eqn:Hst; [|done].
    destruct (IntroA.introComplete st) eqn:Hdone; [done|].
    unfold PageA.reachable in Hr. rewrite Hst in Hr.
    destruct (introComplete (PageA.state p)) eqn:Hi.
    { destruct Hr as [_ (st' & [= <-] & ?)]. congruence. }
    destruct Hr as (Ha & Hn & (t0 & Hin) & _ & Hc).
    pose proof (inIntro_frame slerpQuaternions slerp_end random t0
                  buildCubes now st Hin) as Hin'.
    set (st' := IntroA.animateIntro slerpQuaternions now st) in *.
    unfold PageA.reachable. cbn [PageA.state PageA.intro].
    destruct (IntroA.introComplete st') eqn:Hdone'.
    + destruct Hin' as (_ & _ & _ & Hend).
      destruct (Hend Hdone') as [Hcubes _].
      cbn [VariantA.step withCubes introComplete]. rewrite Hi.
      cbn [withMaterial withDisplay introComplete].
      split; [|by exists st'].
      exists buildCubes. split; [apply settled_buildCubes|]. left.
      cbn [isAnimating animation smallCubes]. by rewrite Hcubes.
    + cbn [withCubes introComplete isAnimating animation smallCubes].
      rewrite Hi. split; [done|]. split; [done|]. split; [by exists t0|done].
Qed.

Lemma reachablePage_run es p :
  PageA.reachable random p ->
  PageA.reachable random (PageA.run slerpQuaternions random p es).
Proof.
  revert p. induction es as [|e es IH]; intros p Hp; [done|].
  change (PageA.run slerpQuaternions random p (e :: es))
    with (PageA.run slerpQuaternions random
            (PageA.step slerpQuaternions random p e) es).
  apply IH. by apply reachablePage_step.
Qed.

Lemma reachablePage_initial : PageA.reachable random PageA.initialPage.
Proof. unfold PageA.reachable. cbn. done. Qed.

End ReachablePageA.

(** X1.  Variant A with its intro, whatever the random start poses and
    the library's interpolation of orientations (of which only
    [slerp(qa, qb, 1) = qb] is used), and whatever happens on the page
    (the intro starting, its frames, clicks on navigation buttons,
    rotation frames, solve timers, rendering): the 26 sub-cubes carry the
    26 shell coordinates, one each, also while the intro has them
    scattered and in the middle of a rotation; [isAnimating] is set
    exactly while a rotation closure is in flight, and never before the
    intro has completed; [introComplete] is set only by a frame of the
    intro; and once it is set, whenever [isAnimating] is clear every
    sub-cube sits exactly on the grid position of its coordinate, turned
    by multiples of 90 degrees. *)
Theorem X1_grid_invariant_A
    (slerpQuaternions : Quaternion -> Quaternion -> R -> Quaternion)
    (random : nat -> R) (es : list PageA.Event) :
  (∀ qa qb, slerpQuaternions qa qb 1 = qb) ->
  let p := PageA.run slerpQuaternions random PageA.initialPage es in
  let s := PageA.state p in
  VariantA.userData <$> VariantA.smallCubes s ≡ₚ shell ∧
  NoDup (VariantA.userData <$> VariantA.smallCubes s) ∧
  Forall inRange (VariantA.userData <$> VariantA.smallCubes s) ∧
  (VariantA.isAnimating s = true ↔ VariantA.animation s ≠ None) ∧
  (VariantA.introComplete s = false -> VariantA.isAnimating s = false) ∧
  (VariantA.introComplete s = true ->
     ∃ st, PageA.intro p = Some st ∧ IntroA.introComplete st = true) ∧
  (VariantA.introComplete s = true -> VariantA.isAnimating s = false ->
     SpecA.atRest s ∧ SpecA.aligned s).
Proof.
  intros Hslerp p s.
  pose proof (reachablePage_run slerpQuaternions random Hslerp es
                PageA.initialPage (reachablePage_initial random)) as Hr.
  fold p in Hr. unfold PageA.reachable in Hr. fold s in Hr.
  destruct (VariantA.introComplete s) eqn:Hi.
  - destruct Hr as [(cubes & (Hp & Hg & Ha) & H) Hst].
    assert (VariantA.userData <$> VariantA.smallCubes s ≡ₚ shell) as Hs.
    { destruct H as [(_ & _ & ->) | (_ & a & i & dir & k & t0 & q & _ & -> & _)];
        [done|by rewrite posed_userData]. }
    destruct (perm_shell_facts _ Hs) as (Hnd & Hin & _).
    split; [done|]. split; [done|]. split; [done|].
    split; [split|].
    + intros Hanim.
      destruct H as [(? & _) | (_ & a & i & dir & k & t0 & q & -> & _)];
        [congruence|done].
    + intros Hsome. destruct H as [(_ & Hnone & _) | (? & _)]; done.
    + split; [done|]. split; [done|]. intros _ Hrest.
      destruct H as [(_ & Hnone & Hc) | (? & _)]; [|congruence].
      rewrite <- Hc in Hg, Ha. done.
  - destruct Hr as (Ha & Hn & Hc).
    assert (VariantA.userData <$> VariantA.smallCubes s ≡ₚ shell) as Hs.
    { destruct (PageA.intro p) as [st|].
      - destruct Hc as ((t0 & Hin) & _ & ->).
        by rewrite (inIntro_userData random t0 _ _ Hin), buildCubes_userData.
      - by rewrite Hc, buildCubes_userData. }
    destruct (perm_shell_facts _ Hs) as (Hnd & Hin & _).
    split; [done|]. split; [done|]. split; [done|].
    split; [by rewrite Ha, Hn|]. done.
Qed.

Lemma X1_witness :
  let slerp := fun (_ qb : Quaternion) (_ : R) => qb in
  let es := [PageA.IntroStart 100; PageA.Render 0 0; PageA.IntroFrame 116;
             PageA.IntroFrame 4000; PageA.Click 0 4100 4100;
             PageA.Frame 4500; PageA.Timeout] in
  let s := PageA.state (PageA.run slerp (fun _ => / 2) PageA.initialPage es) in
  (∀ qa qb, slerp qa qb 1 = qb) ∧
  VariantA.userData <$> VariantA.smallCubes s ≡ₚ shell ∧
  (VariantA.isAnimating s = true ↔ VariantA.animation s ≠ None).
Proof.
  intros slerp es s.
  assert (∀ qa qb, slerp qa qb 1 = qb) as H by reflexivity.
  split; [exact H|].
  destruct (X1_grid_invariant_A slerp (fun _ => / 2) es H)
    as (Hp & _ & _ & Ha & _).
  split; [exact Hp|exact Ha].
Defined.
